(** * LAIK: vector layouts and the block partitioner

    A shallow embedding of
    - [src/layout_compact_vector.c]  (dense 1-D layout),
    - [src/layout_sparse_vector.c]   (sparse 1-D layout),
    - the earlier sparse layout that is stored after [src/partitioner.c],
    - [src/partitioner.c]            (block partitioner, simple partitioners),
    - [examples/markov.c]            (the graph of the Markov chain example),
    together with the properties the specification states about them and
    further properties of the code. *)

From Stdlib Require Import ZArith List Bool Lia QArith Lqa Permutation.
From Stdlib Require Import PrimFloat SpecFloat FloatOps.
Import ListNotations.
Local Open Scope Z_scope.

(** ** C integer types

    Values of the fixed-width C types are integers of [Z]; every place where
    the C code computes in such a type applies the type's wrap-around. *)

Module CInt.

Definition uint64 (z : Z) : Z := z mod 2 ^ 64.
Definition sint64 (z : Z) : Z := (z + 2 ^ 63) mod 2 ^ 64 - 2 ^ 63.
Definition uint32 (z : Z) : Z := z mod 2 ^ 32.

Definition is_uint64 (z : Z) : Prop := 0 <= z < 2 ^ 64.
Definition is_sint64 (z : Z) : Prop := - 2 ^ 63 <= z < 2 ^ 63.
Definition is_uint32 (z : Z) : Prop := 0 <= z < 2 ^ 32.

Lemma uint64_id z : is_uint64 z -> uint64 z = z.
Proof. unfold is_uint64, uint64. intros H. apply Z.mod_small. exact H. Qed.

Lemma sint64_id z : is_sint64 z -> sint64 z = z.
Proof.
  unfold is_sint64, sint64. intros H.
  rewrite Z.mod_small; lia.
Qed.

Lemma uint32_id z : is_uint32 z -> uint32 z = z.
Proof. unfold is_uint32, uint32. intros H. apply Z.mod_small. exact H. Qed.

End CInt.

(** ** Outcomes of a call

    [assert] and [laik_panic] end the process; a call either returns a value,
    stops at one of them, or leaves the behaviour C defines (a read through
    an unset pointer, a write past an array, an overflowing signed
    increment). *)

Inductive outcome (A : Type) : Type :=
| Ret (a : A)
| AssertFail
| Panic
| Undefined.
Arguments Ret {A} a.
Arguments AssertFail {A}.
Arguments Panic {A}.
Arguments Undefined {A}.

Definition bind {A B : Type} (o : outcome A) (k : A -> outcome B) : outcome B :=
  match o with
  | Ret a => k a
  | AssertFail => AssertFail
  | Panic => Panic
  | Undefined => Undefined
  end.

Definition assert (b : bool) : outcome unit :=
  if b then Ret tt else AssertFail.

Declare Scope outcome_scope.
Delimit Scope outcome_scope with outcome.
Notation "x <- o ;; k" := (bind o (fun x => k))
  (at level 61, o at next level, right associativity) : outcome_scope.
Notation "o ;;; k" := (bind o (fun _ => k))
  (at level 61, right associativity) : outcome_scope.

(** ** Dense 1-D layout ([layout_compact_vector.c]) *)

(** The generic header [Laik_Layout h]: the fields the vector layouts use
    ([count] is a [uint64_t], the others are [int]). *)
Record Laik_Layout : Type := mkLayout {
  dims : Z;
  map_count : Z;
  count : Z
}.

(** A 1-D range [from, to): the vector layouts are created for 1-D spaces
    only ([assert(dims == 1)]) and read component [i[0]] of every index, so
    an index is that component. *)
Record Laik_Range : Type := mkRange {
  from : Z;
  to : Z
}.

(** ** Memory and the pack/unpack walk

    [pack_vector] and [unpack_vector] have the same text in both layout
    files; they reach the layout through its [offset] entry.  Memory is one
    flat byte store; [start], [buf] and the slots are addresses in it.
    Address arithmetic ([m->start + off * elemsize], [buf += elemsize]) is
    exact. *)

Definition memory : Type := Z -> Byte.byte.

Definition memcpy (mem : memory) (dst src n : Z) : memory :=
  fun a => if (dst <=? a) && (a <? dst + n) then mem (src + (a - dst)) else mem a.

(** Modelled from the spec: [laik_range_within_range] is declared in
    [laik-internal.h] and defined outside the layout files; it is the range
    containment of section 4.A, here for 1-D ranges. *)
Definition laik_range_within_range (r1 r2 : Laik_Range) : bool :=
  (from r2 <=? from r1) && (to r1 <=? to r2).

(** Modelled from the spec: [laik_range_size] is defined outside the layout
    files; it is the size of a range of section 3, here for 1-D ranges. *)
Definition laik_range_size (r : Laik_Range) : Z := to r - from r.

(** [next_idx]: the index after [idx++] and whether it is still inside the
    range.  The increment is exact; it overflows only at [INT64_MAX], where
    C leaves the behaviour undefined. *)
Definition next_idx (range : Laik_Range) (idx : Z) : Z * bool :=
  (idx + 1, idx + 1 <? to range).

Module VectorPack.
Section WithLayout.

Context {L : Type}.

(** [layout->offset]: the offset and the layout as the call leaves it. *)
Variable offset : L -> Z -> Z -> outcome (Z * L).

(** [Laik_Mapping]: the fields pack and unpack read; [elemsize] is
    [m->data->elemsize]. *)
Record Laik_Mapping : Type := mkMapping {
  layout : L;
  layoutSection : Z;
  start : Z;
  requiredRange : Laik_Range;
  elemsize : Z
}.

(** What a call leaves behind: the count returned, [*idx], the layout and
    memory. *)
Record packed : Type := mkPacked {
  p_count : Z;
  p_idx : Z;
  p_layout : L;
  p_mem : memory
}.

(** The [while (size >= elemsize)] loop of [pack_vector].  A round is
    followed by another only while [idx + 1 < to], so the loop runs at most
    [to - idx] rounds unless [idx++] overflows; [fuel] is that bound, and
    the loop is [Undefined] beyond it. *)
Fixpoint pack_loop (fuel : nat) (m : Laik_Mapping) (range : Laik_Range)
    (l : L) (idx buf size count : Z) (mem : memory) : outcome packed :=
  if size <? elemsize m then Ret (mkPacked count idx l mem)
  else
    (r <- offset l (layoutSection m) idx ;;
     let '(off, l') := r in
     let idxPtr := start m + off * elemsize m in
     let mem' := memcpy mem buf idxPtr (elemsize m) in
     let size' := size - elemsize m in
     let buf' := buf + elemsize m in
     let count' := CInt.uint32 (count + 1) in
     let '(idx', more) := next_idx range idx in
     if more
     then match fuel with
          | O => Undefined
          | S f => pack_loop f m range l' idx' buf' size' count' mem'
          end
     else Ret (mkPacked count' (to range) l' mem'))%outcome.

Definition pack_vector (m : Laik_Mapping) (range : Laik_Range)
    (idx buf size : Z) (mem : memory) : outcome packed :=
  if idx =? to range then Ret (mkPacked 0 idx (layout m) mem)
  else
    (assert (laik_range_within_range range (requiredRange m)) ;;;
     pack_loop (Z.to_nat (to range - idx)) m range (layout m)
               idx buf size 0 mem)%outcome.

(** The loop of [unpack_vector]: as above with the copy reversed. *)
Fixpoint unpack_loop (fuel : nat) (m : Laik_Mapping) (range : Laik_Range)
    (l : L) (idx buf size count : Z) (mem : memory) : outcome packed :=
  if size <? elemsize m then Ret (mkPacked count idx l mem)
  else
    (r <- offset l (layoutSection m) idx ;;
     let '(off, l') := r in
     let idxPtr := start m + off * elemsize m in
     let mem' := memcpy mem idxPtr buf (elemsize m) in
     let size' := size - elemsize m in
     let buf' := buf + elemsize m in
     let count' := CInt.uint32 (count + 1) in
     let '(idx', more) := next_idx range idx in
     if more
     then match fuel with
          | O => Undefined
          | S f => unpack_loop f m range l' idx' buf' size' count' mem'
          end
     else Ret (mkPacked count' (to range) l' mem'))%outcome.

Definition unpack_vector (m : Laik_Mapping) (range : Laik_Range)
    (idx buf size : Z) (mem : memory) : outcome packed :=
  (assert (0 <? size) ;;;
   assert (negb (idx =? to range)) ;;;
   assert (laik_range_within_range range (requiredRange m)) ;;;
   unpack_loop (Z.to_nat (to range - idx)) m range (layout m)
               idx buf size 0 mem)%outcome.

End WithLayout.
Arguments Laik_Mapping L : clear implicits.
Arguments packed L : clear implicits.
End VectorPack.

(** ** Copying between two mappings

    [copy_vector] has the same text in the layout files; it calls the file's
    own [offset_vector] for both mappings ([mfrom] and [mto] are the
    parameters [from] and [to]).  The two mappings may point to one layout
    object: [aliased] says that [from->layout == to->layout], and the layout
    is then threaded through both calls. *)

Module VectorCopy.
Import VectorPack.
Section WithLayout.

Context {L : Type}.

Variable offset_vector : L -> Z -> Z -> outcome (Z * L).

(** What a call leaves behind: the two layouts and memory. *)
Record copied : Type := mkCopied {
  c_from : L;
  c_to : L;
  c_mem : memory
}.

(** The [do ... while (next_idx(range, &idx))] loop: the body runs once
    more only while [idx + 1 < to]; [fuel] bounds the further rounds as in
    [pack_loop].  [count] is a [uint64_t]. *)
Fixpoint copy_loop (fuel : nat) (mfrom mto : Laik_Mapping L) (range : Laik_Range)
    (aliased : bool) (lf lt : L) (idx count : Z) (mem : memory)
  : outcome (Z * copied) :=
  (r1 <- offset_vector lf (layoutSection mfrom) idx ;;
   let '(fromOffset, lf1) := r1 in
   r2 <- offset_vector (if aliased then lf1 else lt) (layoutSection mto) idx ;;
   let '(toOffset, lt1) := r2 in
   let lf2 := if aliased then lt1 else lf1 in
   let fromPtr := start mfrom + fromOffset * elemsize mfrom in
   let toPtr := start mto + toOffset * elemsize mfrom in
   let mem' := memcpy mem toPtr fromPtr (elemsize mfrom) in
   let count' := CInt.uint64 (count + 1) in
   let '(idx', more) := next_idx range idx in
   if more
   then match fuel with
        | O => Undefined
        | S f => copy_loop f mfrom mto range aliased lf2 lt1 idx' count' mem'
        end
   else Ret (count', mkCopied lf2 lt1 mem'))%outcome.

Definition copy_vector (range : Laik_Range) (mfrom mto : Laik_Mapping L)
    (aliased : bool) (mem : memory) : outcome copied :=
  (assert (elemsize mfrom =? elemsize mto) ;;;
   r <- copy_loop (Z.to_nat (to range - from range)) mfrom mto range aliased
          (layout mfrom) (layout mto) (from range) 0 mem ;;
   assert (fst r =? laik_range_size range) ;;;
   Ret (snd r))%outcome.

End WithLayout.
Arguments copied L : clear implicits.
End VectorCopy.

Module Compact.

Record Laik_Layout_Vector : Type := mkVector {
  h : Laik_Layout;
  localLength : Z;
  numberOfExternalValues : Z;
  offset : Z
}.

Definition set_count (lv : Laik_Layout_Vector) (c : Z) : Laik_Layout_Vector :=
  mkVector (mkLayout (dims (h lv)) (map_count (h lv)) c)
           (localLength lv) (numberOfExternalValues lv) (offset lv).

(** [section_vector]: map number holding index [idx], [-1] when not found. *)
Definition section_vector (lv : Laik_Layout_Vector) (idx : Z) : Z :=
  if 0 <=? idx then 0 else -1.

(** [offset_vector]: [assert(off >= 0); return off]. *)
Definition offset_vector (lv : Laik_Layout_Vector) (n : Z) (idx : Z) : outcome Z :=
  (assert (0 <=? idx) ;;; Ret idx)%outcome.

(** [reuse_vector(l, n, old, nold)]: the result and the new layout [l]
    as the call leaves it. *)
Definition reuse_vector (l : Laik_Layout_Vector) (n : Z)
    (old : Laik_Layout_Vector) (nold : Z) : outcome (bool * Laik_Layout_Vector) :=
  (assert ((0 <=? n) && (n <? map_count (h l))) ;;;
   if negb (localLength l <=? localLength old)
   then Ret (false, l)
   else Ret (true, set_count l (count (h old))))%outcome.

(** [laik_new_layout_vector(n, range, layout_data)] for a range of a 1-D
    space: the header is set up for the range; the fields [localLength],
    [numberOfExternalValues] and [offset] are not assigned and hold what the
    allocation holds, the three last parameters here. *)
Definition laik_new_layout_vector (n : Z) (range : Laik_Range)
    (localLength0 numberOfExternalValues0 offset0 : Z)
  : outcome Laik_Layout_Vector :=
  (assert (n =? 1) ;;;
   Ret (mkVector (mkLayout 1 n (laik_range_size range))
                 localLength0 numberOfExternalValues0 offset0))%outcome.

(** The layout's [offset] entry as pack and unpack call it. *)
Definition offset_entry (lv : Laik_Layout_Vector) (n idx : Z)
  : outcome (Z * Laik_Layout_Vector) :=
  (off <- offset_vector lv n idx ;; Ret (off, lv))%outcome.

Definition pack_vector := VectorPack.pack_vector offset_entry.
Definition unpack_vector := VectorPack.unpack_vector offset_entry.

(** [mapno_vector]: the allocation number of section [n]. *)
Definition mapno_vector (lv : Laik_Layout_Vector) (n : Z) : outcome Z :=
  (assert (n <? map_count (h lv)) ;;;
   assert (n =? 0) ;;;
   Ret n)%outcome.

Definition copy_vector := VectorCopy.copy_vector offset_entry.

(** [laik_get_length_vector]. *)
Definition laik_get_length_vector (lv : Laik_Layout_Vector) : Z :=
  localLength lv.

End Compact.

(** ** Sparse 1-D layout ([layout_sparse_vector.c]) *)

Module Sparse.

(** [Laik_Interval_Vector]: [ifrom] and [ito] are its fields [from] and
    [to]. *)
Record Laik_Interval_Vector : Type := mkInterval {
  ifrom : Z;
  ito : Z  (* including [ifrom], but excluding [ito] *)
}.

(** [Laik_Map_Vector]: the array [intervals[0..size)] is the list
    [intervals]; [size] is its length. *)
Record Laik_Map_Vector : Type := mkMap {
  intervals : list Laik_Interval_Vector;
  lower_bound : Z;  (* including *)
  upper_bound : Z   (* excluding *)
}.

Definition size (m : Laik_Map_Vector) : Z := Z.of_nat (length (intervals m)).

(** [globalToLocalMap] is a pointer: [None] while no map has been set. *)
Record Laik_Layout_Vector : Type := mkVector {
  h : Laik_Layout;
  id : Z;
  localLength : Z;
  numberOfExternalValues : Z;
  currentExternalVallue : Z;
  globalToLocalMap : option Laik_Map_Vector;
  allocatedRangeCount : Z
}.

Definition set_currentExternalVallue (lv : Laik_Layout_Vector) (c : Z) :=
  mkVector (h lv) (id lv) (localLength lv) (numberOfExternalValues lv) c
           (globalToLocalMap lv) (allocatedRangeCount lv).

Definition set_globalToLocalMap (lv : Laik_Layout_Vector)
    (m : option Laik_Map_Vector) :=
  mkVector (h lv) (id lv) (localLength lv) (numberOfExternalValues lv)
           (currentExternalVallue lv) m (allocatedRangeCount lv).

Definition set_allocatedRangeCount (lv : Laik_Layout_Vector) (c : Z) :=
  mkVector (h lv) (id lv) (localLength lv) (numberOfExternalValues lv)
           (currentExternalVallue lv) (globalToLocalMap lv) c.

(** [section_vector]: reads the bounds through [globalToLocalMap]. *)
Definition section_vector (lv : Laik_Layout_Vector) (idx : Z) : outcome Z :=
  match globalToLocalMap lv with
  | None => Undefined
  | Some m =>
      if (idx <=? upper_bound m) && (lower_bound m <=? idx)
      then Ret 0
      else Ret (-1)
  end.

(** The [for] loop of [offset_vector] over the intervals, from the running
    [localOffset]: the offset reached and [wasInLocalRange]. *)
Fixpoint scan_intervals (ivs : list Laik_Interval_Vector) (idx_val localOffset : Z)
  : Z * bool :=
  match ivs with
  | [] => (localOffset, false)
  | iv :: rest =>
      if (ifrom iv <=? idx_val) && (idx_val <? ito iv)
      then (CInt.sint64 (localOffset + CInt.sint64 (idx_val - ifrom iv)), true)
      else if idx_val <? ifrom iv
      then (localOffset, false)
      else scan_intervals rest idx_val
             (CInt.sint64 (localOffset + CInt.sint64 (ito iv - ifrom iv)))
  end.

(** [offset_vector(l, n, idx)]: the offset returned and the layout as the
    call leaves it (the cursor [currentExternalVallue] moves). *)
Definition offset_vector (lv : Laik_Layout_Vector) (n : Z) (idx : Z)
  : outcome (Z * Laik_Layout_Vector) :=
  (assert (n =? 0) ;;;
   match globalToLocalMap lv with
   | None => AssertFail
   | Some m =>
       let '(localOffset, wasInLocalRange) := scan_intervals (intervals m) idx 0 in
       if wasInLocalRange
       then assert ((0 <=? localOffset) && (localOffset <? localLength lv)) ;;;
            Ret (localOffset, lv)
       else if (numberOfExternalValues lv =? 0) && negb wasInLocalRange
       then Panic
       else
         let localOffset := localLength lv in
         let cur := if currentExternalVallue lv =? numberOfExternalValues lv
                    then 0 else currentExternalVallue lv in
         Ret (CInt.sint64 (CInt.uint64 (CInt.uint64 localOffset + cur)),
              set_currentExternalVallue lv (CInt.uint64 (cur + 1)))
   end)%outcome.

(** [reuse_vector(l, n, old, nold)]: the result and the new layout [l] as
    the call leaves it. *)
Definition reuse_vector (l : Laik_Layout_Vector) (n : Z)
    (old : Laik_Layout_Vector) (nold : Z) : outcome (bool * Laik_Layout_Vector) :=
  (assert ((0 <=? n) && (n <? map_count (h l))) ;;;
   let new_totalSize_fits := allocatedRangeCount l <=? allocatedRangeCount old in
   let vector_size_changed := negb (localLength l =? localLength old) in
   if negb new_totalSize_fits || vector_size_changed
   then
     Ret (false,
          if negb vector_size_changed
          then set_globalToLocalMap l (globalToLocalMap old)
          else l)
   else
     let l1 := if negb (CInt.sint64 (count (h l)) =? localLength l)
               then set_globalToLocalMap l (globalToLocalMap old)
               else l in
     Ret (true, set_allocatedRangeCount l1 (allocatedRangeCount old)))%outcome.

(** [Laik_vector_data]: the layout data handed to the constructor (the
    fields it reads). *)
Record Laik_vector_data : Type := mkVectorData {
  vd_localLength : Z;
  vd_numberOfExternalValues : Z;
  vd_id : Z
}.

(** [laik_new_layout_vector(n, range, layout_data)] for a range of a 1-D
    space: [count] and [allocatedRangeCount] are the size of the range, the
    cursor is 0, the map is not set. *)
Definition laik_new_layout_vector (n : Z) (range : Laik_Range)
    (layout_data : option Laik_vector_data) : outcome Laik_Layout_Vector :=
  (assert (n =? 1) ;;;
   match layout_data with
   | None => AssertFail
   | Some vd =>
       Ret (mkVector (mkLayout 1 n (laik_range_size range))
                     (vd_id vd) (vd_localLength vd) (vd_numberOfExternalValues vd)
                     0 None (laik_range_size range))
   end)%outcome.

Definition pack_vector := VectorPack.pack_vector offset_vector.
Definition unpack_vector := VectorPack.unpack_vector offset_vector.

(** [mapno_vector]: the allocation number of section [n]. *)
Definition mapno_vector (lv : Laik_Layout_Vector) (n : Z) : outcome Z :=
  (assert (n <? map_count (h lv)) ;;;
   assert (n =? 0) ;;;
   Ret n)%outcome.

Definition copy_vector := VectorCopy.copy_vector offset_vector.

(** The getters, for a layout that is a sparse vector layout; the values
    are returned as [uint64_t]. *)
Definition laik_get_length_vector (lv : Laik_Layout_Vector) : Z :=
  CInt.uint64 (localLength lv).

Definition laik_get_numberOfExternalValues_vector (lv : Laik_Layout_Vector) : Z :=
  numberOfExternalValues lv.

Definition laik_get_id_vector (lv : Laik_Layout_Vector) : Z :=
  CInt.uint64 (id lv).

(** *** [calculate_mapping] *)

(** [Laik_TaskRange] and [Laik_RangeList]: the ranges of task [t] are
    [trange[off[t] .. off[t+1])]. *)
Record Laik_TaskRange : Type := mkTaskRange {
  range : Laik_Range;
  mapNo : Z
}.

Record Laik_RangeList : Type := mkRangeList {
  off : list Z;
  trange : list Laik_TaskRange
}.

Definition slice_of (rlist : Laik_RangeList) (myid : Z) : list Laik_TaskRange :=
  let lo := nth (Z.to_nat myid) (off rlist) 0 in
  let hi := nth (Z.to_nat (myid + 1)) (off rlist) 0 in
  firstn (Z.to_nat (hi - lo)) (skipn (Z.to_nat lo) (trange rlist)).

(** What the loops of [calculate_mapping] leave: the entries
    [intervals[0 .. chunksInitialised)] written so far, [m->lower_bound]
    and [current_range] (both unset before the first assignment). *)
Record cm_locals : Type := mkLocals {
  written : list Laik_Interval_Vector;
  m_lower_bound : option Z;
  current_range : option Laik_Range
}.

Definition chunksInitialised (st : cm_locals) : Z :=
  Z.of_nat (length (written st)).

Definition set_lower (st : cm_locals) (b : Z) : cm_locals :=
  mkLocals (written st) (Some b) (current_range st).

Definition set_current (st : cm_locals) (r : Laik_Range) : cm_locals :=
  mkLocals (written st) (m_lower_bound st) (Some r).

(** [m->intervals[chunksInitialised] = iv; chunksInitialised++]: the array
    has [map_size] entries. *)
Definition write_chunk (map_size : Z) (st : cm_locals)
    (iv : Laik_Interval_Vector) : outcome cm_locals :=
  if chunksInitialised st <? map_size
  then Ret (mkLocals (written st ++ [iv]) (m_lower_bound st) (current_range st))
  else Undefined.

Definition is_nil {A : Type} (l : list A) : bool :=
  match l with [] => true | _ => false end.

(** The two nested loops over [trange[o]], [o] running over the slice.
    [l] holds the entries from [o + 1] on ([!(o + 1 < off)] is [l = []]);
    [inner] is [None] where the [for] loop starts, and [Some (prev, start)]
    inside the [while] loop, with [prev = trange[o]] and
    [start = startRangeOfInterval].  When [while] stops at an entry of
    another map, [o++] of the [for] loop makes that entry the next start.
    [initialiseInterval] is false at the head of every [while] round. *)
Fixpoint walk (map_size : Z) (l : list Laik_TaskRange)
    (inner : option (Laik_TaskRange * Laik_Range)) (st : cm_locals)
  : outcome cm_locals :=
  match l with
  | [] => Ret st
  | x :: l' =>
      match inner with
      | None =>
          walk map_size l' (Some (x, range x)) (set_lower st (from (range x)))
      | Some (prev, startRangeOfInterval) =>
          if mapNo x =? 0
          then
            let st := set_current st (range x) in
            let initialiseInterval := negb (to (range prev) =? from (range x)) in
            let last := is_nil l' in
            if last && negb initialiseInterval
            then write_chunk map_size st
                   (mkInterval (from startRangeOfInterval) (to (range x)))
            else if initialiseInterval
            then
              (st1 <- write_chunk map_size st
                        (mkInterval (from startRangeOfInterval) (to (range prev))) ;;
               st2 <- (if last
                       then write_chunk map_size st1
                              (mkInterval (from (range x)) (to (range x)))
                       else Ret st1) ;;
               walk map_size l' (Some (x, range x)) st2)%outcome
            else walk map_size l' (Some (x, startRangeOfInterval)) st
          else
            walk map_size l' (Some (x, range x)) (set_lower st (from (range x)))
      end
  end.

(** [calculate_mapping(l, list, map_size, myid)]: the layout with its new
    map ([rlist] is the parameter [list]). *)
Definition calculate_mapping (l : Laik_Layout_Vector) (rlist : Laik_RangeList)
    (map_size : Z) (myid : Z) : outcome Laik_Layout_Vector :=
  (assert (negb (map_size =? 0)) ;;;
   st <- walk map_size (slice_of rlist myid) None (mkLocals [] None None) ;;
   assert (chunksInitialised st =? map_size) ;;;
   match current_range st, m_lower_bound st with
   | Some cr, Some lb =>
       Ret (set_globalToLocalMap l (Some (mkMap (written st) lb (to cr))))
   | _, _ => Undefined
   end)%outcome.

End Sparse.

(** ** The first sparse layout (the file stored after [partitioner.c])

    Its interval, map, task-range and range-list declarations and the scan of
    [offset_vector] are those of [Sparse]; the layout has no
    [allocatedRangeCount]. *)

Module SparseFirst.

Import Sparse.

Record Laik_Layout_Vector : Type := mkVector {
  h : Laik_Layout;
  id : Z;
  localLength : Z;
  numberOfExternalValues : Z;
  currentExternalVallue : Z;
  globalToLocalMap : option Laik_Map_Vector
}.

Definition set_currentExternalVallue (lv : Laik_Layout_Vector) (c : Z) :=
  mkVector (h lv) (id lv) (localLength lv) (numberOfExternalValues lv) c
           (globalToLocalMap lv).

Definition set_globalToLocalMap (lv : Laik_Layout_Vector)
    (m : option Laik_Map_Vector) :=
  mkVector (h lv) (id lv) (localLength lv) (numberOfExternalValues lv)
           (currentExternalVallue lv) m.

(** [offset_vector]: no check of [numberOfExternalValues]. *)
Definition offset_vector (lv : Laik_Layout_Vector) (n : Z) (idx : Z)
  : outcome (Z * Laik_Layout_Vector) :=
  (assert (n =? 0) ;;;
   match globalToLocalMap lv with
   | None => AssertFail
   | Some m =>
       let '(localOffset, wasInLocalRange) := scan_intervals (intervals m) idx 0 in
       if wasInLocalRange
       then assert ((0 <=? localOffset) && (localOffset <? localLength lv)) ;;;
            Ret (localOffset, lv)
       else
         let localOffset := localLength lv in
         let cur := if currentExternalVallue lv =? numberOfExternalValues lv
                    then 0 else currentExternalVallue lv in
         Ret (CInt.sint64 (CInt.uint64 (CInt.uint64 localOffset + cur)),
              set_currentExternalVallue lv (CInt.uint64 (cur + 1)))
   end)%outcome.

Definition reuse_vector (l : Laik_Layout_Vector) (n : Z)
    (old : Laik_Layout_Vector) (nold : Z) : outcome (bool * Laik_Layout_Vector) :=
  (assert ((0 <=? n) && (n <? map_count (h l))) ;;;
   if negb (localLength l <=? localLength old)
   then Ret (false, l)
   else
     Ret (true,
          if negb (CInt.sint64 (count (h l)) =? localLength l)
          then set_globalToLocalMap l (globalToLocalMap old)
          else l))%outcome.

(** The loops of this file's [calculate_mapping]: the last round closes the
    open interval at [current_range->to] whatever [initialiseIntervall]
    says. *)
Fixpoint walk (map_size : Z) (l : list Laik_TaskRange)
    (inner : option (Laik_TaskRange * Laik_Range)) (st : cm_locals)
  : outcome cm_locals :=
  match l with
  | [] => Ret st
  | x :: l' =>
      match inner with
      | None =>
          walk map_size l' (Some (x, range x)) (set_lower st (from (range x)))
      | Some (prev, startRangeOfInterval) =>
          if mapNo x =? 0
          then
            let st := set_current st (range x) in
            let initialiseIntervall := negb (to (range prev) =? from (range x)) in
            let last := is_nil l' in
            if last
            then write_chunk map_size st
                   (mkInterval (from startRangeOfInterval) (to (range x)))
            else if initialiseIntervall
            then
              (st1 <- write_chunk map_size st
                        (mkInterval (from startRangeOfInterval) (to (range prev))) ;;
               walk map_size l' (Some (x, range x)) st1)%outcome
            else walk map_size l' (Some (x, startRangeOfInterval)) st
          else
            walk map_size l' (Some (x, range x)) (set_lower st (from (range x)))
      end
  end.

Definition calculate_mapping (l : Laik_Layout_Vector) (rlist : Laik_RangeList)
    (map_size : Z) (myid : Z) : outcome Laik_Layout_Vector :=
  (assert (negb (map_size =? 0)) ;;;
   st <- walk map_size (slice_of rlist myid) None (mkLocals [] None None) ;;
   assert (chunksInitialised st =? map_size) ;;;
   match current_range st, m_lower_bound st with
   | Some cr, Some lb =>
       Ret (set_globalToLocalMap l (Some (mkMap (written st) lb (to cr))))
   | _, _ => Undefined
   end)%outcome.

End SparseFirst.

(** ** The block partitioner ([partitioner.c]) *)

Module Partitioner.

(** [Laik_Index]: [int64_t i[3]]. *)
Record Laik_Index : Type := mkIndex {
  i0 : Z;
  i1 : Z;
  i2 : Z
}.

(** Modelled from the spec: [laik_set_index] is defined outside
    [partitioner.c]; it sets the three components of an index (section 3,
    Index). *)
Definition laik_set_index (a b c : Z) : Laik_Index := mkIndex a b c.

(** [idx.i[d]] for [d] in 0..2. *)
Definition get_i (idx : Laik_Index) (d : Z) : Z :=
  if d =? 0 then i0 idx else if d =? 1 then i1 idx else i2 idx.

(** [idx.i[d] = v]. *)
Definition set_i (idx : Laik_Index) (d : Z) (v : Z) : Laik_Index :=
  if d =? 0 then mkIndex v (i1 idx) (i2 idx)
  else if d =? 1 then mkIndex (i0 idx) v (i2 idx)
  else mkIndex (i0 idx) (i1 idx) v.

(** [Laik_Slice]: [sfrom] and [sto] are its fields [from] and [to]. *)
Record Laik_Slice : Type := mkSlice {
  sfrom : Laik_Index;
  sto : Laik_Index
}.

Record Laik_TaskSlice : Type := mkTaskSlice {
  task : Z;
  s : Laik_Slice
}.

(** [Laik_Space]: [size[3]]. *)
Record Laik_Space : Type := mkSpace {
  sdims : Z;
  ssize : Laik_Index
}.

(** [Laik_BorderArray]: [group_size] is [ba->group->size]; the entries
    [tslice[0 .. count)] are the list. *)
Record Laik_BorderArray : Type := mkBorderArray {
  group_size : Z;
  space : Laik_Space;
  tslice : list Laik_TaskSlice
}.

(** Modelled from the spec: [laik_append_slice] is defined outside
    [partitioner.c]; a partitioner appends [(task, range)] entries to the
    border array in the order of its calls (sections 3 and 4.D). *)
Definition laik_append_slice (ba : Laik_BorderArray) (t : Z) (slc : Laik_Slice)
  : Laik_BorderArray :=
  mkBorderArray (group_size ba) (space ba) (tslice ba ++ [mkTaskSlice t slc]).

(** The arithmetic of C's [double] as the partitioner uses it. *)
Record DoubleOps (D : Type) : Type := mkDoubleOps {
  dadd : D -> D -> D;
  dsub : D -> D -> D;
  dmul : D -> D -> D;
  ddiv : D -> D -> D;
  dge : D -> D -> bool;     (* [x >= y] *)
  of_int : Z -> D;          (* conversion of an integer value *)
  d_zero : D;               (* [0.0] *)
  d_one : D;                (* [1.0] *)
  d_neg_half : D            (* [-0.5] *)
}.
Arguments dadd {D}.
Arguments dsub {D}.
Arguments dmul {D}.
Arguments ddiv {D}.
Arguments dge {D}.
Arguments of_int {D}.
Arguments d_zero {D}.
Arguments d_one {D}.
Arguments d_neg_half {D}.

(** IEEE 754 binary64 with round-to-nearest-even: C's [double]. *)
Definition binary64 : DoubleOps float :=
  mkDoubleOps float PrimFloat.add PrimFloat.sub PrimFloat.mul PrimFloat.div
    (fun x y => PrimFloat.leb y x)
    (fun z => SF2Prim (binary_normalize prec emax z 0 false))
    0%float 1%float (-0.5)%float.

(** Exact rational arithmetic: [double] without rounding. *)
Definition exact : DoubleOps Q :=
  mkDoubleOps Q Qplus Qminus Qmult Qdiv
    (fun x y => Qle_bool y x)
    inject_Z
    0%Q 1%Q (-1 # 2)%Q.

Section Block.

Context {D : Type}.
Variable ops : DoubleOps D.

(** [Laik_BlockPartitionerData]; [userData] is part of the two weight
    functions, [None] is the null function pointer. *)
Record Laik_BlockPartitionerData : Type := mkBlockData {
  pdim : Z;
  cycles : Z;
  getIdxW : option (Laik_Index -> D);
  getTaskW : option (Z -> D)
}.

Definition indices (size : Z) : list Z :=
  map Z.of_nat (seq 0 (Z.to_nat size)).

(** The locals of [runBlockPartitioner] that the loops change. *)
Record bp_state : Type := mkState {
  st_w : D;
  st_task : Z;
  st_cycle : Z;
  st_taskW : D;
  st_slc : Laik_Slice;
  st_ba : Laik_BorderArray
}.

Section Run.

Variable data : Laik_BlockPartitionerData.
Variable count : Z.     (* [ba->group->size] *)
Variable totalTW : D.
Variable perPart : D.

(** The correction factor [taskW] for task [t]. *)
Definition task_factor (t : Z) : D :=
  match getTaskW data with
  | Some g => ddiv ops (dmul ops (g t) (of_int ops count)) totalTW
  | None => d_one ops
  end.

Definition is_last (st : bp_state) : bool :=
  (st_task st + 1 =? count) && (st_cycle st + 1 =? cycles data).

(** [while (w >= perPart * taskW)] at index [i].  Every round that does not
    break moves [(cycle, task)] one step towards the last pair, which is
    [count * cycles - 1] steps from the first; [fuel] is that bound, and a
    loop that passes it (it has missed the last pair and would run on
    until [task] overflows) is [Undefined]. *)
Fixpoint while_loop (fuel : nat) (i : Z) (st : bp_state) : outcome bp_state :=
  if dge ops (st_w st) (dmul ops perPart (st_taskW st))
  then
    let w := dsub ops (st_w st) (dmul ops perPart (st_taskW st)) in
    let st := mkState w (st_task st) (st_cycle st) (st_taskW st)
                      (st_slc st) (st_ba st) in
    if is_last st then Ret st
    else
      let slc := mkSlice (sfrom (st_slc st))
                         (set_i (sto (st_slc st)) (pdim data) (CInt.sint64 i)) in
      let ba := if get_i (sfrom slc) (pdim data) <? get_i (sto slc) (pdim data)
                then laik_append_slice (st_ba st) (st_task st) slc
                else st_ba st in
      let task := st_task st + 1 in
      let '(task, cycle) := if task =? count
                            then (0, st_cycle st + 1)
                            else (task, st_cycle st) in
      let taskW := task_factor task in
      let slc := mkSlice (set_i (sfrom slc) (pdim data) (CInt.sint64 i)) (sto slc) in
      match fuel with
      | O => Undefined
      | S f => while_loop f i (mkState w task cycle taskW slc ba)
      end
  else Ret st.

(** [for (i = 0; i < size; i++)], [n] rounds from index [i]. *)
Fixpoint for_loop (n : nat) (i : Z) (st : bp_state) : outcome bp_state :=
  match n with
  | O => Ret st
  | S n' =>
      let dw := match getIdxW data with
                | Some f => f (set_i (laik_set_index 0 0 0) (pdim data) i)
                | None => d_one ops
                end in
      let st := mkState (dadd ops (st_w st) dw) (st_task st) (st_cycle st)
                        (st_taskW st) (st_slc st) (st_ba st) in
      (st' <- while_loop (Z.to_nat (count * cycles data)) i st ;;
       if is_last st' then Ret st' else for_loop n' (i + 1) st')%outcome
  end.

End Run.

Definition runBlockPartitioner (data : Laik_BlockPartitionerData)
    (ba : Laik_BorderArray) : outcome Laik_BorderArray :=
  let sp := space ba in
  let slc := mkSlice (laik_set_index 0 0 0)
                     (laik_set_index (i0 (ssize sp)) (i1 (ssize sp)) (i2 (ssize sp))) in
  let count := group_size ba in
  let size := get_i (ssize sp) (pdim data) in
  let totalW :=
    match getIdxW data with
    | Some f =>
        fold_left
          (fun acc i => dadd ops acc (f (set_i (laik_set_index 0 0 0) (pdim data) i)))
          (indices size) (d_zero ops)
    | None => of_int ops size
    end in
  let totalTW :=
    match getTaskW data with
    | Some g => fold_left (fun acc t => dadd ops acc (g t)) (indices count) (d_zero ops)
    | None => of_int ops count
    end in
  let perPart := ddiv ops (ddiv ops totalW (of_int ops count))
                      (of_int ops (cycles data)) in
  let taskW := task_factor data count totalTW 0 in
  let slc := mkSlice (set_i (sfrom slc) (pdim data) 0) (sto slc) in
  (st <- for_loop data count totalTW perPart (Z.to_nat size) 0
           (mkState (d_neg_half ops) 0 0 taskW slc ba) ;;
   assert (is_last data count st) ;;;
   let slc := mkSlice (sfrom (st_slc st))
                      (set_i (sto (st_slc st)) (pdim data) (CInt.sint64 size)) in
   Ret (laik_append_slice (st_ba st) (st_task st) slc))%outcome.

End Block.

(** *** The block partitioner's data

    The data object as it is stored: the two callbacks and the one
    [userData] pointer that [runBlockPartitioner] hands to both of them
    ([None] is a null pointer).  [laik_new_block_partitioner] and its
    variants allocate the object the partitioner points to (its name and
    [run] entry are fixed); the setters reach it through [pr->data]. *)

Record Laik_BlockPartitionerFields (V D : Type) : Type := mkBlockFields {
  f_pdim : Z;
  f_cycles : Z;
  f_getIdxW : option (Laik_Index -> option V -> D);
  f_userData : option V;
  f_getTaskW : option (Z -> option V -> D)
}.
Arguments mkBlockFields {V D}.
Arguments f_pdim {V D}.
Arguments f_cycles {V D}.
Arguments f_getIdxW {V D}.
Arguments f_userData {V D}.
Arguments f_getTaskW {V D}.

(** The object as a run reads it: every call of a callback is
    [(data->getIdxW)(&idx, data->userData)] or
    [(data->getTaskW)(task, data->userData)]. *)
Definition as_data {V D : Type} (o : Laik_BlockPartitionerFields V D)
  : Laik_BlockPartitionerData (D := D) :=
  mkBlockData (f_pdim o) (f_cycles o)
    (match f_getIdxW o with
     | Some f => Some (fun idx => f idx (f_userData o))
     | None => None
     end)
    (match f_getTaskW o with
     | Some g => Some (fun t => g t (f_userData o))
     | None => None
     end).

Definition laik_new_block_partitioner {V D : Type} (pdim cycles : Z)
    (ifunc : option (Laik_Index -> option V -> D))
    (tfunc : option (Z -> option V -> D)) (userData : option V)
  : Laik_BlockPartitionerFields V D :=
  mkBlockFields pdim cycles ifunc userData tfunc.

Definition laik_new_block_partitioner1 {V D : Type}
  : Laik_BlockPartitionerFields V D :=
  laik_new_block_partitioner 0 1 None None None.

Definition laik_new_block_partitioner_iw1 {V D : Type}
    (f : option (Laik_Index -> option V -> D)) (userData : option V)
  : Laik_BlockPartitionerFields V D :=
  laik_new_block_partitioner 0 1 f None userData.

Definition laik_new_block_partitioner_tw1 {V D : Type}
    (f : option (Z -> option V -> D)) (userData : option V)
  : Laik_BlockPartitionerFields V D :=
  laik_new_block_partitioner 0 1 None f userData.

Definition laik_set_index_weight {V D : Type} (o : Laik_BlockPartitionerFields V D)
    (f : option (Laik_Index -> option V -> D)) (userData : option V)
  : Laik_BlockPartitionerFields V D :=
  mkBlockFields (f_pdim o) (f_cycles o) f userData (f_getTaskW o).

Definition laik_set_task_weight {V D : Type} (o : Laik_BlockPartitionerFields V D)
    (f : option (Z -> option V -> D)) (userData : option V)
  : Laik_BlockPartitionerFields V D :=
  mkBlockFields (f_pdim o) (f_cycles o) (f_getIdxW o) userData f.

(** [laik_set_cycle_count] changes neither the callbacks nor [userData];
    it is given on the data as a run reads it. *)
Definition laik_set_cycle_count {D : Type}
    (data : Laik_BlockPartitionerData (D := D)) (cycles : Z)
  : Laik_BlockPartitionerData :=
  let cycles := if (cycles <? 0) || (10 <? cycles) then 1 else cycles in
  mkBlockData (pdim data) cycles (getIdxW data) (getTaskW data).

(** *** The simple partitioners *)

(** [runAllPartitioner]: [n] rounds of
    [for (task = 0; task < g->size; task++)] from task [t]. *)
Fixpoint all_loop (n : nat) (t : Z) (ba : Laik_BorderArray) : Laik_BorderArray :=
  match n with
  | O => ba
  | S n' =>
      let sp := space ba in
      let slc := mkSlice (laik_set_index 0 0 0)
                         (laik_set_index (i0 (ssize sp)) (i1 (ssize sp)) (i2 (ssize sp))) in
      all_loop n' (t + 1) (laik_append_slice ba t slc)
  end.

Definition runAllPartitioner (ba : Laik_BorderArray) : Laik_BorderArray :=
  all_loop (Z.to_nat (group_size ba)) 0 ba.

(** [runMasterPartitioner]: only the full slice for task 0. *)
Definition runMasterPartitioner (ba : Laik_BorderArray) : Laik_BorderArray :=
  let sp := space ba in
  let slc := mkSlice (laik_set_index 0 0 0)
                     (laik_set_index (i0 (ssize sp)) (i1 (ssize sp)) (i2 (ssize sp))) in
  laik_append_slice ba 0 slc.

(** [Laik_Partitioning]: the fields the copy partitioner reads.  [pgroup]
    is the pointer [base->group]; [borders] is a pointer, [None] when
    null. *)
Record Laik_Partitioning : Type := mkPartitioning {
  bordersValid : bool;
  pgroup : Z;
  pspace : Laik_Space;
  borders : option Laik_BorderArray
}.

(** [Laik_CopyPartitionerData]; [base] is a pointer. *)
Record Laik_CopyPartitionerData : Type := mkCopyData {
  base : option Laik_Partitioning;
  fromDim : Z;
  toDim : Z
}.

(** [runCopyPartitioner]: [data] is [pr->data], and [ba_group] the pointer
    [ba->group].  The base borders are another object than [ba], which
    the loop over [baseBorders->tslice[0 .. count)] extends. *)
Definition runCopyPartitioner (data : option Laik_CopyPartitionerData)
    (ba : Laik_BorderArray) (ba_group : Z) : outcome Laik_BorderArray :=
  match data with
  | None => AssertFail
  | Some data =>
      match base data with
      | None => AssertFail
      | Some b =>
          (assert (bordersValid b) ;;;
           assert (pgroup b =? ba_group) ;;;
           assert ((0 <=? fromDim data) && (fromDim data <? sdims (pspace b))) ;;;
           assert ((0 <=? toDim data) && (toDim data <? sdims (space ba))) ;;;
           match borders b with
           | None => AssertFail
           | Some baseBorders =>
               Ret (fold_left
                      (fun ba ts =>
                         let sp := space ba in
                         let slc :=
                           mkSlice (laik_set_index 0 0 0)
                                   (laik_set_index (i0 (ssize sp)) (i1 (ssize sp))
                                                   (i2 (ssize sp))) in
                         let slc :=
                           mkSlice (set_i (sfrom slc) (toDim data)
                                          (get_i (sfrom (s ts)) (fromDim data)))
                                   (sto slc) in
                         let slc :=
                           mkSlice (sfrom slc)
                                   (set_i (sto slc) (toDim data)
                                          (get_i (sto (s ts)) (fromDim data))) in
                         laik_append_slice ba (task ts) slc)
                      (tslice baseBorders) ba)
           end)%outcome
      end
  end.

End Partitioner.

(** ** The Markov chain example ([examples/markov.c]) *)

Module Markov.

Import Partitioner.

(** C's [int] (32 bits): the value of an [int] expression, undefined where
    it overflows. *)
Definition int (z : Z) : outcome Z :=
  if (- 2 ^ 31 <=? z) && (z <? 2 ^ 31) then Ret z else Undefined.

(** [a % b] on [int]: the remainder of the truncating division, undefined
    for [b == 0] and for [INT_MIN % -1]. *)
Definition int_rem (a b : Z) : outcome Z :=
  if (b =? 0) || ((a =? - 2 ^ 31) && (b =? -1)) then Undefined
  else Ret (Z.rem a b).

(** An allocated array: [cells] elements, [elem k] the content of element
    [k].  An access outside [0, cells) is undefined. *)
Record array (A : Type) : Type := mkArray {
  cells : Z;
  elem : Z -> A
}.
Arguments mkArray {A} cells elem.
Arguments cells {A} a.
Arguments elem {A} a k.

Definition read {A : Type} (a : array A) (k : Z) : outcome A :=
  if (0 <=? k) && (k <? cells a) then Ret (elem a k) else Undefined.

Definition write {A : Type} (a : array A) (k : Z) (v : A) : outcome (array A) :=
  if (0 <=? k) && (k <? cells a)
  then Ret (mkArray (cells a) (fun x => if x =? k then v else elem a x))
  else Undefined.

Section Init.

Context {D : Type}.
Variable ops : DoubleOps D.

(** [MGraph]; [in_] is its field [in], and [cm] and [pm] are the arrays the
    two pointers point to. *)
Record MGraph : Type := mkMGraph {
  n : Z;
  in_ : Z;
  cm : array Z;
  pm : array D
}.

(** The arrays [init] works on: [cm], [pm] and its local [sum]. *)
Record init_arrays : Type := mkArrays {
  a_cm : array Z;
  a_pm : array D;
  a_sum : array D
}.

(** The index expression [i * (in + 1) + j]. *)
Definition cell (in_ i j : Z) : outcome Z :=
  (w <- int (in_ + 1) ;;
   r <- int (i * w) ;;
   int (r + j))%outcome.

(** [for(int i=0; i < n; i++) sum[i] = 0.0;] from [i], [fuel] rounds. *)
Fixpoint zero_loop (fuel : nat) (i : Z) (sum : array D) : outcome (array D) :=
  match fuel with
  | O => Ret sum
  | S fuel' =>
      (sum' <- write sum i (d_zero ops) ;;
       zero_loop fuel' (i + 1) sum')%outcome
  end.

(** [while(step > n) step -= n;].  The loop ends within [step] rounds when
    [n] is positive; it has no end for [n == 0] and runs into an overflow
    for a negative [n]. *)
Fixpoint reduce_loop (fuel : nat) (step n : Z) : outcome Z :=
  if n <? step then
    match fuel with
    | O => Undefined
    | S fuel' =>
        (step' <- int (step - n) ;;
         reduce_loop fuel' step' n)%outcome
    end
  else Ret step.

(** [for(int j = 1; j <= in; j++) { ... }] of state [i], from [j] with
    [step], [fuel] rounds. *)
Fixpoint edge_loop (fuel : nat) (n in_ i j step : Z) (a : init_arrays)
  : outcome init_arrays :=
  match fuel with
  | O => Ret a
  | S fuel' =>
      (t <- int (i + step) ;;
       fromNode <- int_rem t n ;;
       t <- int (j + i) ;;
       f <- int (5 * in_) ;;
       r <- int_rem t f ;;
       let prob := dadd ops (of_int ops r) (of_int ops 1) in
       sf <- read (a_sum a) fromNode ;;
       sum <- write (a_sum a) fromNode (dadd ops sf prob) ;;
       k <- cell in_ i j ;;
       cm <- write (a_cm a) k fromNode ;;
       k <- cell in_ i j ;;
       pm <- write (a_pm a) k prob ;;
       t <- int (2 * step) ;;
       step <- int (t + j) ;;
       step <- reduce_loop (Z.to_nat step) step n ;;
       j' <- int (j + 1) ;;
       edge_loop fuel' n in_ i j' step (mkArrays cm pm sum))%outcome
  end.

(** The loop over the states that sets up the ring, from state [i]. *)
Fixpoint ring_loop (fuel : nat) (n in_ i : Z) (a : init_arrays)
  : outcome init_arrays :=
  match fuel with
  | O => Ret a
  | S fuel' =>
      (k <- cell in_ i 0 ;;
       cm <- write (a_cm a) k i ;;
       k <- cell in_ i 0 ;;
       pm <- write (a_pm a) k (of_int ops 5) ;;
       si <- read (a_sum a) i ;;
       sum <- write (a_sum a) i (dadd ops si (of_int ops 5)) ;;
       a' <- edge_loop (Z.to_nat in_) n in_ i 1 1 (mkArrays cm pm sum) ;;
       ring_loop fuel' n in_ (i + 1) a')%outcome
  end.

(** [for(int j = 0; j <= in; j++) pm[...] /= sum[ cm[...] ];] of state
    [i], from [j]. *)
Fixpoint divide_loop (fuel : nat) (in_ i j : Z) (a : init_arrays)
  : outcome init_arrays :=
  match fuel with
  | O => Ret a
  | S fuel' =>
      (k <- cell in_ i j ;;
       p <- read (a_pm a) k ;;
       k' <- cell in_ i j ;;
       c <- read (a_cm a) k' ;;
       sv <- read (a_sum a) c ;;
       pm <- write (a_pm a) k (ddiv ops p sv) ;;
       j' <- int (j + 1) ;;
       divide_loop fuel' in_ i j' (mkArrays (a_cm a) pm (a_sum a)))%outcome
  end.

(** The normalization loop over the states, from state [i]. *)
Fixpoint normalize_loop (fuel : nat) (in_ i : Z) (a : init_arrays)
  : outcome init_arrays :=
  match fuel with
  | O => Ret a
  | S fuel' =>
      (a' <- divide_loop (Z.to_nat (in_ + 1)) in_ i 0 a ;;
       normalize_loop fuel' in_ (i + 1) a')%outcome
  end.

(** The three loops of [init].  [sum0] is what the block that [malloc]
    returns for [sum] holds; the block has [n] elements. *)
Definition init_run (mg : MGraph) (sum0 : Z -> D) : outcome init_arrays :=
  (sum <- zero_loop (Z.to_nat (n mg)) 0 (mkArray (n mg) sum0) ;;
   a <- ring_loop (Z.to_nat (n mg)) (n mg) (in_ mg) 0
          (mkArrays (cm mg) (pm mg) sum) ;;
   normalize_loop (Z.to_nat (n mg)) (in_ mg) 0 a)%outcome.

(** [init]: the graph as the call leaves it. *)
Definition init (mg : MGraph) (sum0 : Z -> D) : outcome MGraph :=
  (a <- init_run mg sum0 ;;
   Ret (mkMGraph (n mg) (in_ mg) (a_cm a) (a_pm a)))%outcome.

End Init.

Arguments MGraph D : clear implicits.
Arguments init_arrays D : clear implicits.

End Markov.

(** * Properties *)

(** ** Dense layout: reuse *)

Module CompactFacts.

Import Compact.

(** A dense layout for [c] elements: [h.count = c], and [localLength]
    holds that count, as the comment at the field says it does (the
    constructor itself leaves the field unassigned). *)
Definition layout_for (c : Z) : Laik_Layout_Vector :=
  mkVector (mkLayout 1 1 c) c 0 0.

Lemma layout_for_new c :
  laik_new_layout_vector 1 (mkRange 0 c) c 0 0 = Ret (layout_for c).
Proof.
  unfold laik_new_layout_vector, layout_for, laik_range_size. cbn [assert bind Z.eqb Pos.eqb to from].
  rewrite Z.sub_0_r. reflexivity.
Qed.

Lemma reuse_vector_cases (l old : Laik_Layout_Vector) (n nold : Z) :
  0 <= n < map_count (h l) ->
  reuse_vector l n old nold =
    if localLength l <=? localLength old
    then Ret (true, set_count l (count (h old)))
    else Ret (false, l).
Proof.
  intros Hn. unfold reuse_vector.
  replace ((0 <=? n) && (n <? map_count (h l))) with true
    by (symmetry; apply andb_true_iff; split; [apply Z.leb_le | apply Z.ltb_lt]; lia).
  cbn [assert bind]. destruct (localLength l <=? localLength old); reflexivity.
Qed.

(** C7, the claim as stated fails: a new layout whose count does not exceed
    the old layout's count is refused, because the old layout's own length
    is smaller (its count was inherited by an earlier reuse); and a new
    layout with the larger count is accepted when its own length fits. *)
Lemma C7_reuse_by_count_fails :
  (let new := mkVector (mkLayout 1 1 1000) 1000 0 0 in
   let old := mkVector (mkLayout 1 1 1000) 400 0 0 in
   count (h new) <= count (h old) /\
   reuse_vector new 0 old 0 = Ret (false, new)) /\
  (let new := mkVector (mkLayout 1 1 5) 3 0 0 in
   let old := mkVector (mkLayout 1 1 4) 3 0 0 in
   ~ count (h new) <= count (h old) /\
   exists l', reuse_vector new 0 old 0 = Ret (true, l')).
Proof.
  cbv zeta. repeat split.
  - simpl. lia.
  - simpl. lia.
  - eexists. reflexivity.
Qed.

(** C7, amended: reuse succeeds exactly when the new layout's own length
    [localLength] is at most the old layout's; on success the new layout
    takes over [old.count] and keeps its own length, on failure it is left
    as it was.  Hence, for layouts whose [localLength] holds the count they
    were made for, a layout for 400 reuses one for 1000, and a layout for
    1000 does not reuse the result. *)
Theorem C7_dense_reuse (l old : Laik_Layout_Vector) (n nold : Z) :
  0 <= n < map_count (h l) ->
  (exists b l',
      reuse_vector l n old nold = Ret (b, l') /\
      (b = true <-> localLength l <= localLength old) /\
      (b = true -> count (h l') = count (h old) /\ localLength l' = localLength l) /\
      (b = false -> l' = l)) /\
  (let shrunk := set_count (layout_for 400) 1000 in
   reuse_vector (layout_for 400) 0 (layout_for 1000) 0 = Ret (true, shrunk) /\
   reuse_vector (layout_for 1000) 0 shrunk 0 = Ret (false, layout_for 1000)).
Proof.
  intros Hn. split.
  - rewrite (reuse_vector_cases l old n nold Hn).
    destruct (localLength l <=? localLength old) eqn:E.
    + apply Z.leb_le in E. exists true, (set_count l (count (h old))).
      repeat split; auto; discriminate.
    + apply Z.leb_gt in E. exists false, l.
      repeat split; auto; try discriminate; intros; lia.
  - cbv zeta. split; reflexivity.
Qed.

Lemma C7_dense_reuse_witness :
  exists b l',
    reuse_vector (layout_for 400) 0 (layout_for 1000) 0 = Ret (b, l') /\
    (b = true <-> localLength (layout_for 400) <= localLength (layout_for 1000)) /\
    (b = true -> count (h l') = count (h (layout_for 1000)) /\
                 localLength l' = localLength (layout_for 400)) /\
    (b = false -> l' = layout_for 400).
Proof.
  apply (C7_dense_reuse (layout_for 400) (layout_for 1000) 0 0).
  simpl. lia.
Defined.

End CompactFacts.

(** ** Sparse layout: offset, section, reuse *)

Module SparseFacts.

Import Sparse.

(** *** The interval map as the specification describes it *)

Definition isize (iv : Laik_Interval_Vector) : Z := ito iv - ifrom iv.

(** [local_length = sum of (to_k - from_k)]. *)
Definition total_size (ivs : list Laik_Interval_Vector) : Z :=
  fold_right (fun iv acc => isize iv + acc) 0 ivs.

(** [prefix = sum over k < j of (to_k - from_k)]. *)
Definition prefix (ivs : list Laik_Interval_Vector) (j : nat) : Z :=
  total_size (firstn j ivs).

Definition inside (iv : Laik_Interval_Vector) (g : Z) : Prop :=
  ifrom iv <= g < ito iv.

Definition owned (m : Laik_Map_Vector) (g : Z) : Prop :=
  exists iv, In iv (intervals m) /\ inside iv g.

(** Intervals in ascending order from [lo] on: each one well-formed, each
    starting no earlier than the one before it ends. *)
Fixpoint ascending (lo : Z) (ivs : list Laik_Interval_Vector) : Prop :=
  match ivs with
  | [] => True
  | iv :: rest => lo <= ifrom iv /\ ifrom iv <= ito iv /\ ascending (ito iv) rest
  end.

(** Every bound is a value of [int64_t]. *)
Definition bounds_in_type (ivs : list Laik_Interval_Vector) : Prop :=
  Forall (fun iv => CInt.is_sint64 (ifrom iv) /\ CInt.is_sint64 (ito iv)) ivs.

(** The state of section 4.C for the local block: the map is set, its
    intervals ascend, [lower_bound] and [upper_bound] are the first start
    and the last end, and [localLength] is the sum of the sizes. *)
Record local_state (lv : Laik_Layout_Vector) (m : Laik_Map_Vector) : Prop :=
  mkLocalState {
    ls_map : globalToLocalMap lv = Some m;
    ls_nonempty : intervals m <> [];
    ls_ascending : ascending (lower_bound m) (intervals m);
    ls_lower : lower_bound m = ifrom (hd (mkInterval 0 0) (intervals m));
    ls_upper : upper_bound m = ito (last (intervals m) (mkInterval 0 0));
    ls_length : localLength lv = total_size (intervals m);
    ls_type : bounds_in_type (intervals m);
    ls_length_type : CInt.is_sint64 (localLength lv)
  }.

(** The state of section 4.C for the external block: [E] slots after the
    local block, the cursor in [0, E], all slots addressable in [int64_t]. *)
Record external_state (lv : Laik_Layout_Vector) : Prop :=
  mkExternalState {
    es_length : 0 <= localLength lv;
    es_cursor : 0 <= currentExternalVallue lv <= numberOfExternalValues lv;
    es_type : localLength lv + numberOfExternalValues lv < 2 ^ 63
  }.

(** The slot the next external query uses: the stored cursor, and 0 once
    the stored cursor has reached [E]. *)
Definition external_cursor (lv : Laik_Layout_Vector) : Z :=
  if currentExternalVallue lv =? numberOfExternalValues lv
  then 0 else currentExternalVallue lv.

(** A gap index lies between two neighbouring intervals. *)
Definition in_gap (m : Laik_Map_Vector) (g : Z) : Prop :=
  exists j a b,
    nth_error (intervals m) j = Some a /\
    nth_error (intervals m) (S j) = Some b /\
    ito a <= g < ifrom b.

(** Offset queries one after the other, the layout threaded through. *)
Fixpoint offset_queries (lv : Laik_Layout_Vector) (gs : list Z)
  : outcome (list Z * Laik_Layout_Vector) :=
  match gs with
  | [] => Ret ([], lv)
  | g :: gs' =>
      (r <- offset_vector lv 0 g ;;
       rs <- offset_queries (snd r) gs' ;;
       Ret (fst r :: fst rs, snd rs))%outcome
  end.

(** The scenario of section 8: intervals [[0,4), [5,7)], [E] external
    slots, the cursor at [c]. *)
Definition scenario_map : Laik_Map_Vector :=
  mkMap [mkInterval 0 4; mkInterval 5 7] 0 7.

Definition scenario_layout (E c : Z) : Laik_Layout_Vector :=
  mkVector (mkLayout 1 1 (6 + E)) 0 6 E c (Some scenario_map) (6 + E).

(** *** The scan *)

Lemma total_size_nonneg lo ivs : ascending lo ivs -> 0 <= total_size ivs.
Proof.
  revert lo. induction ivs as [|iv rest IH]; simpl; intros lo H.
  - lia.
  - destruct H as (_ & Hiv & Hrest). specialize (IH _ Hrest).
    unfold isize. lia.
Qed.

Lemma ascending_after lo ivs iv g :
  ascending lo ivs -> In iv ivs -> g < lo -> ~ inside iv g.
Proof.
  revert lo. induction ivs as [|a rest IH]; simpl; intros lo Hasc Hin Hg.
  - contradiction.
  - destruct Hasc as (H1 & H2 & H3). destruct Hin as [->|Hin].
    + unfold inside. lia.
    + apply (IH (ito a)); auto. lia.
Qed.

(** An index inside interval [j] of an ascending list: the scan adds the
    sizes of the intervals before [j] and the distance into [j]. *)
Lemma scan_inside ivs : forall lo acc g j iv,
  ascending lo ivs ->
  bounds_in_type ivs ->
  0 <= acc -> acc + total_size ivs < 2 ^ 63 ->
  nth_error ivs j = Some iv ->
  inside iv g ->
  scan_intervals ivs g acc = (acc + prefix ivs j + (g - ifrom iv), true).
Proof.
  induction ivs as [|a rest IH]; intros lo acc g j iv Hasc Hty Hacc Hsum Hnth Hin.
  - destruct j; discriminate.
  - simpl in Hasc. destruct Hasc as (Hlo & Ha & Hrest).
    inversion Hty as [|? ? [Hfa Hta] Hty']; subst.
    pose proof (total_size_nonneg _ _ Hrest) as Hnn.
    simpl in Hsum. unfold isize in Hsum.
    destruct j as [|j]; simpl in Hnth.
    + injection Hnth as <-. unfold inside in Hin. simpl.
      replace ((ifrom a <=? g) && (g <? ito a)) with true
        by (symmetry; apply andb_true_iff; split; [apply Z.leb_le|apply Z.ltb_lt]; lia).
      unfold prefix. simpl.
      rewrite (CInt.sint64_id (g - ifrom a)) by (unfold CInt.is_sint64; lia).
      rewrite CInt.sint64_id by (unfold CInt.is_sint64; lia).
      f_equal. lia.
    + assert (Hnth' := Hnth). apply nth_error_In in Hnth'.
      assert (Hge : ito a <= g).
      { destruct (Z_lt_le_dec g (ito a)) as [Hlt|]; [|assumption].
        exfalso. exact (ascending_after _ _ _ _ Hrest Hnth' Hlt Hin). }
      simpl.
      replace ((ifrom a <=? g) && (g <? ito a)) with false
        by (symmetry; apply andb_false_iff; right; apply Z.ltb_ge; lia).
      replace (g <? ifrom a) with false by (symmetry; apply Z.ltb_ge; lia).
      rewrite (CInt.sint64_id (ito a - ifrom a)) by (unfold CInt.is_sint64; lia).
      rewrite CInt.sint64_id by (unfold CInt.is_sint64; lia).
      rewrite (IH (ito a) (acc + (ito a - ifrom a)) g j iv); auto; try lia.
      unfold prefix. simpl. unfold isize. f_equal. lia.
Qed.

Lemma prefix_inside_bound ivs : forall lo j iv g,
  ascending lo ivs -> nth_error ivs j = Some iv -> inside iv g ->
  0 <= prefix ivs j + (g - ifrom iv) < total_size ivs.
Proof.
  induction ivs as [|a rest IH]; intros lo j iv g Hasc Hnth Hin.
  - destruct j; discriminate.
  - simpl in Hasc. destruct Hasc as (Hlo & Ha & Hrest).
    pose proof (total_size_nonneg _ _ Hrest) as Hnn.
    destruct j as [|j]; simpl in Hnth.
    + injection Hnth as <-. unfold inside in Hin.
      unfold prefix. simpl. unfold isize. lia.
    + specialize (IH _ _ _ _ Hrest Hnth Hin).
      unfold prefix in *. simpl. unfold isize. lia.
Qed.

(** An index inside no interval: the scan reports that it was not local. *)
Lemma scan_outside ivs : forall acc g,
  (forall iv, In iv ivs -> ~ inside iv g) ->
  snd (scan_intervals ivs g acc) = false.
Proof.
  induction ivs as [|a rest IH]; intros acc g Hout; simpl.
  - reflexivity.
  - assert (Ha : ~ inside a g) by (apply Hout; left; reflexivity).
    destruct ((ifrom a <=? g) && (g <? ito a)) eqn:E.
    + exfalso. apply Ha. apply andb_true_iff in E. destruct E as [E1 E2].
      apply Z.leb_le in E1. apply Z.ltb_lt in E2. unfold inside. lia.
    + destruct (g <? ifrom a); [reflexivity|].
      apply IH. intros iv Hiv. apply Hout. right. exact Hiv.
Qed.

Lemma offset_vector_owned lv m g j iv :
  local_state lv m ->
  nth_error (intervals m) j = Some iv ->
  inside iv g ->
  offset_vector lv 0 g = Ret (prefix (intervals m) j + (g - ifrom iv), lv) /\
  0 <= prefix (intervals m) j + (g - ifrom iv) < localLength lv.
Proof.
  intros [Hmap Hne Hasc Hlo Hup Hlen Hty Hlty] Hnth Hin.
  pose proof (prefix_inside_bound _ _ _ _ _ Hasc Hnth Hin) as Hb.
  rewrite <- Hlen in Hb. split; [|exact Hb].
  unfold offset_vector. cbn [Z.eqb assert bind]. rewrite Hmap.
  rewrite (scan_inside _ (lower_bound m) 0 g j iv); auto; try lia.
  - cbn [Z.add].
    replace ((0 <=? prefix (intervals m) j + (g - ifrom iv)) &&
             (prefix (intervals m) j + (g - ifrom iv) <? localLength lv)) with true
      by (symmetry; apply andb_true_iff; split; [apply Z.leb_le|apply Z.ltb_lt]; lia).
    reflexivity.
  - rewrite <- Hlen. unfold CInt.is_sint64 in Hlty. lia.
Qed.

Lemma offset_vector_external lv m g :
  globalToLocalMap lv = Some m ->
  external_state lv ->
  0 < numberOfExternalValues lv ->
  ~ owned m g ->
  offset_vector lv 0 g =
    Ret (localLength lv + external_cursor lv,
         set_currentExternalVallue lv (external_cursor lv + 1)).
Proof.
  intros Hmap [Hl Hc Hty] HE Hout.
  unfold offset_vector. cbn [Z.eqb assert bind]. rewrite Hmap.
  pose proof (scan_outside (intervals m) 0 g) as Hs.
  destruct (scan_intervals (intervals m) g 0) as [lo b]. simpl in Hs.
  rewrite Hs by (intros iv Hiv Hin; apply Hout; exists iv; split; assumption).
  replace (numberOfExternalValues lv =? 0) with false
    by (symmetry; apply Z.eqb_neq; lia).
  cbn [andb negb]. fold (external_cursor lv).
  assert (Hcur : 0 <= external_cursor lv < numberOfExternalValues lv).
  { unfold external_cursor.
    destruct (currentExternalVallue lv =? numberOfExternalValues lv) eqn:E.
    - lia.
    - apply Z.eqb_neq in E. lia. }
  rewrite (CInt.uint64_id (localLength lv)) by (unfold CInt.is_uint64; lia).
  rewrite (CInt.uint64_id (localLength lv + external_cursor lv))
    by (unfold CInt.is_uint64; lia).
  rewrite CInt.sint64_id by (unfold CInt.is_sint64; lia).
  rewrite CInt.uint64_id by (unfold CInt.is_uint64; lia).
  reflexivity.
Qed.

Lemma external_state_step lv :
  external_state lv -> 0 < numberOfExternalValues lv ->
  let lv' := set_currentExternalVallue lv (external_cursor lv + 1) in
  external_state lv' /\
  external_cursor lv' =
    (if external_cursor lv + 1 =? numberOfExternalValues lv
     then 0 else external_cursor lv + 1).
Proof.
  intros [Hl Hc Hty] HE. cbv zeta.
  assert (Hcur : 0 <= external_cursor lv < numberOfExternalValues lv).
  { unfold external_cursor.
    destruct (currentExternalVallue lv =? numberOfExternalValues lv) eqn:E.
    - lia.
    - apply Z.eqb_neq in E. lia. }
  split.
  - constructor; simpl; lia.
  - reflexivity.
Qed.

Lemma scenario_not_owned g : ~ owned scenario_map g <-> (g < 0 \/ g = 4 \/ 7 <= g).
Proof.
  unfold owned, inside. simpl. split.
  - intros H.
    destruct (Z_lt_le_dec g 0); [lia|].
    destruct (Z.eq_dec g 4); [lia|].
    destruct (Z_lt_le_dec g 7); [|lia].
    exfalso. apply H.
    destruct (Z_lt_le_dec g 4).
    + exists (mkInterval 0 4). simpl. split; [auto|lia].
    + exists (mkInterval 5 7). simpl. split; [auto|lia].
  - intros Hg (iv & [<-|[<-|[]]] & Hin); simpl in Hin; lia.
Qed.

Lemma scenario_local_state E c : local_state (scenario_layout E c) scenario_map.
Proof.
  constructor; simpl; try reflexivity.
  - discriminate.
  - lia.
  - repeat constructor; cbn [ifrom ito]; unfold CInt.is_sint64; lia.
  - unfold CInt.is_sint64. lia.
Qed.

Lemma scenario_external_state E c :
  0 <= c <= E -> E < 2 ^ 62 -> external_state (scenario_layout E c).
Proof.
  intros Hc HE. constructor; cbn [scenario_layout localLength
    numberOfExternalValues currentExternalVallue]; lia.
Qed.

(** *** Ascending intervals: gaps and bounds *)

Lemma ascending_bounds ivs : forall lo iv d,
  ascending lo ivs -> In iv ivs ->
  lo <= ifrom iv /\ ifrom iv <= ito iv /\ ito iv <= ito (last ivs d).
Proof.
  induction ivs as [|a rest IH]; intros lo iv d Hasc Hin.
  - contradiction.
  - simpl in Hasc. destruct Hasc as (H1 & H2 & H3).
    destruct rest as [|b rest'].
    + destruct Hin as [->|[]]. simpl. lia.
    + destruct Hin as [->|Hin].
      * assert (Hb : In b (b :: rest')) by (left; reflexivity).
        destruct (IH (ito iv) b d H3 Hb) as (Hb1 & Hb2 & Hb3).
        change (last (iv :: b :: rest') d) with (last (b :: rest') d). lia.
      * destruct (IH (ito a) iv d H3 Hin) as (Hi1 & Hi2 & Hi3).
        change (last (a :: b :: rest') d) with (last (b :: rest') d). lia.
Qed.

Lemma gap_not_inside ivs : forall lo j a b g iv,
  ascending lo ivs ->
  nth_error ivs j = Some a -> nth_error ivs (S j) = Some b ->
  ito a <= g < ifrom b ->
  In iv ivs -> ~ inside iv g.
Proof.
  induction ivs as [|x rest IH]; intros lo j a b g iv Hasc Ha Hb Hg Hin.
  - contradiction.
  - simpl in Hasc. destruct Hasc as (H1 & H2 & H3).
    destruct j as [|j]; simpl in Ha, Hb.
    + injection Ha as <-. destruct Hin as [->|Hin].
      * unfold inside. lia.
      * destruct rest as [|y rest']; [discriminate|]. injection Hb as <-.
        apply (ascending_after (ifrom y) (y :: rest')); auto; [|lia].
        simpl in H3 |- *. destruct H3 as (_ & Hy & Hrest').
        repeat split; auto; lia.
    + destruct Hin as [->|Hin].
      * assert (Hain : In a rest) by (eapply nth_error_In; eassumption).
        destruct (ascending_bounds rest (ito iv) a a H3 Hain) as (Ha1 & Ha2 & _).
        unfold inside. lia.
      * apply (IH (ito x) j a b g iv); auto.
Qed.

Lemma hd_In_nonempty (ivs : list Laik_Interval_Vector) d :
  ivs <> [] -> In (hd d ivs) ivs.
Proof. destruct ivs; [congruence|]. intros _. left. reflexivity. Qed.

Lemma not_owned_in_section lv m g :
  local_state lv m ->
  in_gap m g \/ g = upper_bound m ->
  section_vector lv g = Ret 0 /\ ~ owned m g.
Proof.
  intros [Hmap Hne Hasc Hlo Hup Hlen Hty Hlty] Hg.
  set (d := mkInterval 0 0) in *.
  assert (Hrange : lower_bound m <= g <= upper_bound m /\ ~ owned m g).
  { destruct Hg as [(j & a & b & Ha & Hb & Hab) | ->].
    - assert (Hain : In a (intervals m)) by (eapply nth_error_In; eassumption).
      assert (Hbin : In b (intervals m)) by (eapply nth_error_In; eassumption).
      destruct (ascending_bounds _ _ a d Hasc Hain) as (Ha1 & Ha2 & Ha3).
      destruct (ascending_bounds _ _ b d Hasc Hbin) as (Hb1 & Hb2 & Hb3).
      rewrite Hup. split; [lia|].
      intros (iv & Hiv & Hin).
      exact (gap_not_inside _ _ _ _ _ _ _ Hasc Ha Hb Hab Hiv Hin).
    - pose proof (hd_In_nonempty _ d Hne) as Hhd.
      destruct (ascending_bounds _ _ _ d Hasc Hhd) as (Hh1 & Hh2 & Hh3).
      split; [rewrite Hup in *; lia|].
      intros (iv & Hiv & Hin).
      destruct (ascending_bounds _ _ iv d Hasc Hiv) as (_ & _ & Hi3).
      unfold inside in Hin. rewrite Hup in Hin. lia. }
  destruct Hrange as [Hr Hno]. split; [|exact Hno].
  unfold section_vector. rewrite Hmap.
  replace ((g <=? upper_bound m) && (lower_bound m <=? g)) with true
    by (symmetry; apply andb_true_iff; split; apply Z.leb_le; lia).
  reflexivity.
Qed.

Lemma owned_in_section lv m g :
  local_state lv m -> owned m g -> section_vector lv g = Ret 0.
Proof.
  intros [Hmap Hne Hasc Hlo Hup Hlen Hty Hlty] (iv & Hiv & Hin).
  destruct (ascending_bounds _ _ iv (mkInterval 0 0) Hasc Hiv) as (H1 & H2 & H3).
  unfold inside in Hin. unfold section_vector. rewrite Hmap.
  replace ((g <=? upper_bound m) && (lower_bound m <=? g)) with true
    by (symmetry; apply andb_true_iff; split; apply Z.leb_le; lia).
  reflexivity.
Qed.

Lemma offset_vector_panics lv m g :
  globalToLocalMap lv = Some m ->
  numberOfExternalValues lv = 0 ->
  ~ owned m g ->
  offset_vector lv 0 g = Panic.
Proof.
  intros Hmap HE Hout.
  unfold offset_vector. cbn [Z.eqb assert bind]. rewrite Hmap.
  pose proof (scan_outside (intervals m) 0 g) as Hs.
  destruct (scan_intervals (intervals m) g 0) as [lo b]. simpl in Hs.
  rewrite Hs by (intros iv Hiv Hin; apply Hout; exists iv; split; assumption).
  rewrite HE. reflexivity.
Qed.

(** *** The offset rule *)

(** C1: for an index [g] inside interval [j] of the map, [offset_vector]
    returns the sum of the sizes of the intervals before [j] plus
    [g - from_j], a value in [0, local_length), and leaves the layout as it
    was.  For an index inside no interval and [E > 0], it returns
    [local_length] plus the external cursor, and the cursor then moves on by
    one, back to 0 where it would reach [E]; the external state is kept.
    For the intervals [[0,4), [5,7)]: offset(3) = 3, offset(6) = 5, and with
    [E = 2] three queries of indices that are not local return 6, 7, 6. *)
Theorem C1_offset_rule :
  (forall lv m g j iv,
      local_state lv m ->
      nth_error (intervals m) j = Some iv ->
      inside iv g ->
      offset_vector lv 0 g = Ret (prefix (intervals m) j + (g - ifrom iv), lv) /\
      0 <= prefix (intervals m) j + (g - ifrom iv) < localLength lv) /\
  (forall lv m g,
      globalToLocalMap lv = Some m ->
      external_state lv ->
      0 < numberOfExternalValues lv ->
      ~ owned m g ->
      let lv' := set_currentExternalVallue lv (external_cursor lv + 1) in
      offset_vector lv 0 g = Ret (localLength lv + external_cursor lv, lv') /\
      external_cursor lv' =
        (if external_cursor lv + 1 =? numberOfExternalValues lv
         then 0 else external_cursor lv + 1) /\
      external_state lv') /\
  (offset_vector (scenario_layout 2 0) 0 3 = Ret (3, scenario_layout 2 0) /\
   offset_vector (scenario_layout 2 0) 0 6 = Ret (5, scenario_layout 2 0) /\
   forall g1 g2 g3,
     ~ owned scenario_map g1 -> ~ owned scenario_map g2 -> ~ owned scenario_map g3 ->
     offset_queries (scenario_layout 2 0) [g1; g2; g3] =
       Ret ([6; 7; 6], scenario_layout 2 1)).
Proof.
  split; [|split].
  - intros lv m g j iv Hls Hnth Hin. exact (offset_vector_owned lv m g j iv Hls Hnth Hin).
  - intros lv m g Hmap Hes HE Hout. cbv zeta.
    split; [exact (offset_vector_external lv m g Hmap Hes HE Hout)|].
    destruct (external_state_step lv Hes HE) as [H1 H2]. split; assumption.
  - split; [reflexivity|]. split; [reflexivity|].
    intros g1 g2 g3 H1 H2 H3.
    assert (Hstep : forall c g, 0 <= c <= 2 -> ~ owned scenario_map g ->
              offset_vector (scenario_layout 2 c) 0 g =
                Ret (6 + external_cursor (scenario_layout 2 c),
                     scenario_layout 2 (external_cursor (scenario_layout 2 c) + 1))).
    { intros c g Hc Hg.
      apply (offset_vector_external (scenario_layout 2 c) scenario_map g);
        [reflexivity | apply scenario_external_state; lia | simpl; lia | exact Hg]. }
    cbn [offset_queries].
    rewrite (Hstep 0 g1) by (auto; lia). cbn [bind fst snd external_cursor
      scenario_layout currentExternalVallue numberOfExternalValues Z.eqb Z.add
      Pos.eqb Pos.add].
    rewrite (Hstep 1 g2) by (auto; lia). cbn [bind fst snd external_cursor
      scenario_layout currentExternalVallue numberOfExternalValues Z.eqb Z.add
      Pos.eqb Pos.add Pos.succ].
    rewrite (Hstep 2 g3) by (auto; lia). reflexivity.
Qed.

Lemma C1_offset_rule_witness :
  (offset_vector (scenario_layout 2 0) 0 6 =
     Ret (prefix (intervals scenario_map) 1 + (6 - 5), scenario_layout 2 0) /\
   0 <= prefix (intervals scenario_map) 1 + (6 - 5)
     < localLength (scenario_layout 2 0)) /\
  (let lv' := set_currentExternalVallue (scenario_layout 2 1)
                (external_cursor (scenario_layout 2 1) + 1) in
   offset_vector (scenario_layout 2 1) 0 4 =
     Ret (localLength (scenario_layout 2 1) + external_cursor (scenario_layout 2 1), lv') /\
   external_cursor lv' =
     (if external_cursor (scenario_layout 2 1) + 1
         =? numberOfExternalValues (scenario_layout 2 1)
      then 0 else external_cursor (scenario_layout 2 1) + 1) /\
   external_state lv').
Proof.
  destruct C1_offset_rule as (Hlocal & Hext & _). split.
  - apply (Hlocal (scenario_layout 2 0) scenario_map 6 1%nat (mkInterval 5 7)).
    + apply scenario_local_state.
    + reflexivity.
    + unfold inside. simpl. lia.
  - apply (Hext (scenario_layout 2 1) scenario_map 4).
    + reflexivity.
    + apply scenario_external_state; lia.
    + simpl. lia.
    + apply scenario_not_owned. lia.
Defined.

(** The values returned by successive external queries from cursor 0 walk
    through the [E] external slots and start again: query number [k]
    returns [local_length + k mod E]. *)
Lemma external_queries_cycle lv m :
  globalToLocalMap lv = Some m ->
  external_state lv ->
  0 < numberOfExternalValues lv ->
  forall gs, Forall (fun g => ~ owned m g) gs ->
  exists lv',
    offset_queries lv gs =
      Ret (map (fun k => localLength lv
                         + (external_cursor lv + Z.of_nat k) mod numberOfExternalValues lv)
               (seq 0 (length gs)), lv') /\
    globalToLocalMap lv' = Some m /\
    localLength lv' = localLength lv /\
    numberOfExternalValues lv' = numberOfExternalValues lv.
Proof.
  intros Hmap Hes HE gs. revert lv Hmap Hes HE.
  induction gs as [|g gs IH]; intros lv Hmap Hes HE Hall.
  - exists lv. simpl. auto.
  - inversion Hall as [|? ? Hg Hgs]; subst.
    cbn [offset_queries].
    rewrite (offset_vector_external lv m g Hmap Hes HE Hg). cbn [bind fst snd].
    destruct (external_state_step lv Hes HE) as [Hes' Hcur'].
    set (lv1 := set_currentExternalVallue lv (external_cursor lv + 1)) in *.
    destruct (IH lv1 Hmap Hes' HE Hgs) as (lv' & Hq & Hm' & Hl' & HE').
    rewrite Hq. cbn [bind fst snd]. exists lv'.
    split; [|auto].
    f_equal. f_equal. cbn [length seq map]. f_equal.
    + change (localLength lv1) with (localLength lv).
      f_equal.
      assert (Hc : 0 <= external_cursor lv < numberOfExternalValues lv).
      { unfold external_cursor. destruct Hes as [_ Hc _].
        destruct (currentExternalVallue lv =? numberOfExternalValues lv) eqn:E;
          [lia | apply Z.eqb_neq in E; lia]. }
      rewrite Z.add_0_r. symmetry. apply Z.mod_small. exact Hc.
    + rewrite <- seq_shift, map_map. apply map_ext. intros k.
      change (localLength lv1) with (localLength lv).
      change (numberOfExternalValues lv1) with (numberOfExternalValues lv).
      f_equal. rewrite Hcur'.
      assert (Hc : 0 <= external_cursor lv < numberOfExternalValues lv).
      { unfold external_cursor. destruct Hes as [_ Hc _].
        destruct (currentExternalVallue lv =? numberOfExternalValues lv) eqn:E;
          [lia | apply Z.eqb_neq in E; lia]. }
      destruct (external_cursor lv + 1 =? numberOfExternalValues lv) eqn:E.
      * apply Z.eqb_eq in E.
        replace (external_cursor lv + Z.of_nat (S k))
          with (Z.of_nat k + 1 * numberOfExternalValues lv) by lia.
        rewrite Z.mod_add by lia. reflexivity.
      * f_equal. lia.
Qed.

(** C8: with no external slots ([E = 0]) an offset query for an index
    inside no owned interval ends in [laik_panic]; no slot is returned. *)
Theorem C8_no_external_slots_panics lv m g :
  globalToLocalMap lv = Some m ->
  numberOfExternalValues lv = 0 ->
  ~ owned m g ->
  offset_vector lv 0 g = Panic.
Proof. exact (offset_vector_panics lv m g). Qed.

Lemma C8_no_external_slots_panics_witness :
  offset_vector (scenario_layout 0 0) 0 4 = Panic.
Proof.
  apply (C8_no_external_slots_panics (scenario_layout 0 0) scenario_map 4).
  - reflexivity.
  - reflexivity.
  - apply scenario_not_owned. lia.
Defined.

(** *** Section *)

Lemma section_vector_spec lv m g :
  globalToLocalMap lv = Some m ->
  (section_vector lv g = Ret 0 <-> lower_bound m <= g <= upper_bound m) /\
  (section_vector lv g = Ret (-1) <-> ~ lower_bound m <= g <= upper_bound m).
Proof.
  intros Hmap. unfold section_vector. rewrite Hmap.
  destruct ((g <=? upper_bound m) && (lower_bound m <=? g)) eqn:E.
  - apply andb_true_iff in E. destruct E as [E1 E2].
    apply Z.leb_le in E1. apply Z.leb_le in E2.
    split; split; intros H; try reflexivity; try lia; try discriminate.
  - apply andb_false_iff in E.
    assert (~ lower_bound m <= g <= upper_bound m).
    { destruct E as [E|E]; apply Z.leb_gt in E; lia. }
    split; split; intros H'; try reflexivity; try discriminate; try contradiction; auto.
Qed.

(** C10, the claim as stated fails: with no external slots the gap index 4
    and the upper bound 7 of [[0,4), [5,7)] are reported by [section_vector]
    as contained, are not owned, and the offset query that follows ends in
    [laik_panic] instead of an external slot. *)
Lemma C10_no_slot_without_externals :
  section_vector (scenario_layout 0 0) 4 = Ret 0 /\
  in_gap scenario_map 4 /\
  offset_vector (scenario_layout 0 0) 0 4 = Panic /\
  section_vector (scenario_layout 0 0) 7 = Ret 0 /\
  7 = upper_bound scenario_map /\
  offset_vector (scenario_layout 0 0) 0 7 = Panic.
Proof.
  repeat split; try reflexivity.
  exists 0%nat, (mkInterval 0 4), (mkInterval 5 7). simpl.
  repeat split; lia.
Qed.

(** C10, amended: [section_vector] returns 0 exactly for
    [lower_bound <= g <= upper_bound] (and -1 otherwise); hence every index
    in a gap between two neighbouring intervals and the index [upper_bound]
    are reported as contained although no interval owns them; the offset
    query that follows takes the external slot [local_length + cursor] when
    [E > 0] and ends in [laik_panic] when [E = 0]. *)
Theorem C10_section_bounds :
  (forall lv m g,
      globalToLocalMap lv = Some m ->
      (section_vector lv g = Ret 0 <-> lower_bound m <= g <= upper_bound m) /\
      (section_vector lv g = Ret (-1) <-> ~ lower_bound m <= g <= upper_bound m)) /\
  (forall lv m g,
      local_state lv m ->
      in_gap m g \/ g = upper_bound m ->
      section_vector lv g = Ret 0 /\
      ~ owned m g /\
      (0 < numberOfExternalValues lv -> external_state lv ->
       offset_vector lv 0 g =
         Ret (localLength lv + external_cursor lv,
              set_currentExternalVallue lv (external_cursor lv + 1))) /\
      (numberOfExternalValues lv = 0 -> offset_vector lv 0 g = Panic)).
Proof.
  split.
  - exact section_vector_spec.
  - intros lv m g Hls Hg.
    destruct (not_owned_in_section lv m g Hls Hg) as [Hsec Hno].
    pose proof (ls_map _ _ Hls) as Hmap.
    repeat split; auto.
    + intros HE Hes. exact (offset_vector_external lv m g Hmap Hes HE Hno).
    + intros HE. exact (offset_vector_panics lv m g Hmap HE Hno).
Qed.

Lemma C10_section_bounds_witness :
  section_vector (scenario_layout 2 0) 4 = Ret 0 /\
  ~ owned scenario_map 4 /\
  (0 < numberOfExternalValues (scenario_layout 2 0) ->
   external_state (scenario_layout 2 0) ->
   offset_vector (scenario_layout 2 0) 0 4 =
     Ret (localLength (scenario_layout 2 0) + external_cursor (scenario_layout 2 0),
          set_currentExternalVallue (scenario_layout 2 0)
            (external_cursor (scenario_layout 2 0) + 1))) /\
  (numberOfExternalValues (scenario_layout 2 0) = 0 ->
   offset_vector (scenario_layout 2 0) 0 4 = Panic).
Proof.
  destruct C10_section_bounds as [_ H].
  apply (H (scenario_layout 2 0) scenario_map 4).
  - apply scenario_local_state.
  - left. exists 0%nat, (mkInterval 0 4), (mkInterval 5 7). simpl.
    repeat split; lia.
Defined.

(** *** Reuse *)

Lemma cast_count_eq c len :
  CInt.is_uint64 c -> 0 <= len < 2 ^ 63 ->
  (CInt.sint64 c =? len) = (c =? len).
Proof.
  unfold CInt.is_uint64, CInt.sint64. intros Hc Hl.
  destruct (Z_lt_le_dec c (2 ^ 63)) as [Hlt|Hge].
  - rewrite Z.mod_small by lia. f_equal. lia.
  - replace ((c + 2 ^ 63) mod 2 ^ 64) with (c - 2 ^ 63).
    + transitivity false; [apply Z.eqb_neq | symmetry; apply Z.eqb_neq]; lia.
    + apply (Z.mod_unique_pos _ _ 1); lia.
Qed.

(** C3: [reuse_vector] returns true exactly when
    [new.allocatedRangeCount <= old.allocatedRangeCount] and
    [new.localLength = old.localLength]; when it returns true and
    [count <> localLength] the new layout has the old layout's map (and keeps
    its own otherwise); when it returns false with equal [localLength] the
    new layout has the old layout's map as well. *)
Theorem C3_sparse_reuse (l old : Laik_Layout_Vector) (n nold : Z) :
  0 <= n < map_count (h l) ->
  CInt.is_uint64 (count (h l)) ->
  0 <= localLength l < 2 ^ 63 ->
  exists b l',
    reuse_vector l n old nold = Ret (b, l') /\
    (b = true <->
       allocatedRangeCount l <= allocatedRangeCount old /\
       localLength l = localLength old) /\
    (b = true -> count (h l) <> localLength l ->
       globalToLocalMap l' = globalToLocalMap old) /\
    (b = true -> count (h l) = localLength l ->
       globalToLocalMap l' = globalToLocalMap l) /\
    (b = true -> allocatedRangeCount l' = allocatedRangeCount old) /\
    (b = false -> localLength l = localLength old ->
       globalToLocalMap l' = globalToLocalMap old) /\
    (b = false -> localLength l <> localLength old -> l' = l).
Proof.
  intros Hn Hc Hl. unfold reuse_vector.
  replace ((0 <=? n) && (n <? map_count (h l))) with true
    by (symmetry; apply andb_true_iff; split; [apply Z.leb_le | apply Z.ltb_lt]; lia).
  cbn [assert bind]. cbv zeta.
  rewrite (cast_count_eq _ _ Hc Hl).
  destruct (allocatedRangeCount l <=? allocatedRangeCount old) eqn:Efit;
    destruct (localLength l =? localLength old) eqn:Elen;
    cbn [negb orb];
    [apply Z.leb_le in Efit | apply Z.leb_le in Efit
     | apply Z.leb_gt in Efit | apply Z.leb_gt in Efit];
    [apply Z.eqb_eq in Elen | apply Z.eqb_neq in Elen
     | apply Z.eqb_eq in Elen | apply Z.eqb_neq in Elen].
  - destruct (count (h l) =? localLength l) eqn:Ecnt;
      [apply Z.eqb_eq in Ecnt | apply Z.eqb_neq in Ecnt]; cbn [negb];
      eexists true, _; (split; [reflexivity|]);
      repeat split; intros; auto; try discriminate; try contradiction; try lia.
  - eexists false, _; (split; [reflexivity|]);
      repeat split; intros; auto; try discriminate; try contradiction; try lia.
  - eexists false, _; (split; [reflexivity|]);
      repeat split; intros; auto; try discriminate; try contradiction; try lia.
  - eexists false, _; (split; [reflexivity|]);
      repeat split; intros; auto; try discriminate; try contradiction; try lia.
Qed.

Lemma C3_sparse_reuse_witness :
  exists b l',
    reuse_vector (scenario_layout 2 0) 0 (scenario_layout 0 0) 0 = Ret (b, l') /\
    (b = true <->
       allocatedRangeCount (scenario_layout 2 0) <= allocatedRangeCount (scenario_layout 0 0) /\
       localLength (scenario_layout 2 0) = localLength (scenario_layout 0 0)) /\
    (b = true -> count (h (scenario_layout 2 0)) <> localLength (scenario_layout 2 0) ->
       globalToLocalMap l' = globalToLocalMap (scenario_layout 0 0)) /\
    (b = true -> count (h (scenario_layout 2 0)) = localLength (scenario_layout 2 0) ->
       globalToLocalMap l' = globalToLocalMap (scenario_layout 2 0)) /\
    (b = true -> allocatedRangeCount l' = allocatedRangeCount (scenario_layout 0 0)) /\
    (b = false -> localLength (scenario_layout 2 0) = localLength (scenario_layout 0 0) ->
       globalToLocalMap l' = globalToLocalMap (scenario_layout 0 0)) /\
    (b = false -> localLength (scenario_layout 2 0) <> localLength (scenario_layout 0 0) ->
       l' = scenario_layout 2 0).
Proof.
  apply (C3_sparse_reuse (scenario_layout 2 0) (scenario_layout 0 0) 0 0).
  - simpl. lia.
  - unfold CInt.is_uint64. simpl. lia.
  - simpl. lia.
Defined.

(** *** The first sparse layout *)

(** Its [reuse_vector] tests the local length only. *)
Lemma first_reuse_vector_rule (l old : SparseFirst.Laik_Layout_Vector) (n nold : Z) :
  0 <= n < map_count (SparseFirst.h l) ->
  exists b l',
    SparseFirst.reuse_vector l n old nold = Ret (b, l') /\
    (b = true <-> SparseFirst.localLength l <= SparseFirst.localLength old).
Proof.
  intros Hn. unfold SparseFirst.reuse_vector.
  replace ((0 <=? n) && (n <? map_count (SparseFirst.h l))) with true
    by (symmetry; apply andb_true_iff; split; [apply Z.leb_le | apply Z.ltb_lt]; lia).
  cbn [assert bind].
  destruct (SparseFirst.localLength l <=? SparseFirst.localLength old) eqn:E;
    cbn [negb]; eexists _, _; (split; [reflexivity|]).
  - apply Z.leb_le in E. split; auto.
  - apply Z.leb_gt in E. split; [discriminate | lia].
Qed.

(** Its [offset_vector] has no panic: with no external slots the gap index
    4 of [[0,4), [5,7)] is given the slot after the local block. *)
Lemma first_offset_vector_no_panic :
  let lv := SparseFirst.mkVector (mkLayout 1 1 6) 0 6 0 0 (Some scenario_map) in
  SparseFirst.offset_vector lv 0 4 =
    Ret (6, SparseFirst.set_currentExternalVallue lv 1).
Proof. reflexivity. Qed.

End SparseFacts.

(** ** Sparse layout: construction of the map *)

Module MappingFacts.

Import Sparse.

(** The rule of section 4.C in the specification's words: open an interval
    at the first entry's [from]; for each further entry, extend the open
    interval to [cur.to] if [prev.to = cur.from], otherwise close it at
    [prev.to] and open a new one at [cur.from]; close the last interval at
    the final entry's [to]. *)
Fixpoint coalesce_open (open_from prev_to : Z) (rs : list Laik_Range)
  : list Laik_Interval_Vector :=
  match rs with
  | [] => [mkInterval open_from prev_to]
  | cur :: rs' =>
      if prev_to =? from cur
      then coalesce_open open_from (to cur) rs'
      else mkInterval open_from prev_to :: coalesce_open (from cur) (to cur) rs'
  end.

Definition coalesce (rs : list Laik_Range) : list Laik_Interval_Vector :=
  match rs with
  | [] => []
  | r :: rs' => coalesce_open (from r) (to r) rs'
  end.

(** A sorted slice: every range is non-empty and starts no earlier than the
    one before it ends. *)
Fixpoint sorted_from (lo : Z) (rs : list Laik_Range) : Prop :=
  match rs with
  | [] => True
  | r :: rs' => lo <= from r /\ from r < to r /\ sorted_from (to r) rs'
  end.

Definition sorted_slice (rs : list Laik_Range) : Prop :=
  match rs with
  | [] => True
  | r :: rs' => from r < to r /\ sorted_from (to r) rs'
  end.

(** Strictly ordered, pairwise disjoint intervals: each one non-empty and
    starting after the one before it ends. *)
Fixpoint separated (ivs : list Laik_Interval_Vector) : Prop :=
  match ivs with
  | [] => True
  | a :: rest =>
      ifrom a < ito a /\
      match rest with
      | [] => True
      | b :: _ => ito a < ifrom b
      end /\
      separated rest
  end.

(** The range list holding one slice, for task 0. *)
Definition one_slice (rs : list Laik_Range) : Laik_RangeList :=
  mkRangeList [0; Z.of_nat (length rs)] (map (fun r => mkTaskRange r 0) rs).

Definition no_map : Laik_Layout_Vector :=
  mkVector (mkLayout 1 1 6) 0 6 0 0 None 6.

Lemma slice_of_one_slice rs :
  slice_of (one_slice rs) 0 = map (fun r => mkTaskRange r 0) rs.
Proof.
  unfold slice_of, one_slice. cbn [off trange].
  change (Z.to_nat (0 + 1)) with 1%nat. change (Z.to_nat 0) with 0%nat.
  cbn [nth skipn].
  rewrite Z.sub_0_r, Nat2Z.id.
  rewrite <- (length_map (fun r => mkTaskRange r 0) rs). apply firstn_all.
Qed.

Lemma last_cons_default {A : Type} (x y : A) (l : list A) (d d' : A) :
  last (x :: y :: l) d = last (y :: l) d'.
Proof.
  change (last (x :: y :: l) d) with (last (y :: l) d).
  revert y. induction l as [|z l IH]; intros y; [reflexivity|].
  change (last (y :: z :: l) d) with (last (z :: l) d).
  change (last (y :: z :: l) d') with (last (z :: l) d').
  apply IH.
Qed.

(** Inside the [while] loop with at least one entry left, the loops write
    the intervals of the rule, as long as the array has room for them. *)
Lemma walk_writes map_size l : forall prev start st,
  l <> [] ->
  Forall (fun x => mapNo x = 0) l ->
  chunksInitialised st
    + Z.of_nat (length (coalesce_open (from start) (to (range prev)) (map range l)))
    <= map_size ->
  walk map_size l (Some (prev, start)) st =
    Ret (mkLocals
           (written st ++ coalesce_open (from start) (to (range prev)) (map range l))
           (m_lower_bound st)
           (Some (range (last l prev)))).
Proof.
  induction l as [|x l' IH]; intros prev start st Hne Hmap Hroom; [congruence|].
  inversion Hmap as [|? ? Hx Hl']; subst.
  cbn [walk]. rewrite Hx. cbn [Z.eqb]. cbv zeta.
  cbn [map coalesce_open] in Hroom |- *.
  unfold chunksInitialised in *.
  destruct l' as [|y l''].
  - (* the last entry *)
    cbn [is_nil map coalesce_open andb last] in *.
    destruct (to (range prev) =? from (range x)) eqn:E; cbn [negb].
    + unfold write_chunk, chunksInitialised. cbn [written set_current] in *.
      cbn [length] in Hroom.
      replace (Z.of_nat (length (written st)) <? map_size) with true
        by (symmetry; apply Z.ltb_lt; lia).
      reflexivity.
    + unfold write_chunk, chunksInitialised. cbn [written set_current] in *.
      cbn [length] in Hroom.
      replace (Z.of_nat (length (written st)) <? map_size) with true
        by (symmetry; apply Z.ltb_lt; lia).
      cbn [bind written]. rewrite length_app. cbn [length].
      replace (Z.of_nat (length (written st) + 1) <? map_size) with true
        by (symmetry; apply Z.ltb_lt; lia).
      cbn [bind walk m_lower_bound current_range written].
      rewrite <- app_assoc. reflexivity.
  - (* more entries follow *)
    cbn [is_nil andb].
    assert (Hne' : y :: l'' <> []) by discriminate.
    rewrite (last_cons_default x y l'' prev x).
    destruct (to (range prev) =? from (range x)) eqn:E; cbn [negb].
    + rewrite (IH x start (set_current st (range x)) Hne' Hl').
      * reflexivity.
      * exact Hroom.
    + cbn [length] in Hroom.
      unfold write_chunk at 1. unfold chunksInitialised. cbn [written set_current].
      replace (Z.of_nat (length (written st)) <? map_size) with true
        by (symmetry; apply Z.ltb_lt; lia).
      cbn [bind m_lower_bound current_range].
      rewrite (IH x (range x) _ Hne' Hl').
      * cbn [written m_lower_bound]. rewrite <- app_assoc. reflexivity.
      * unfold chunksInitialised. cbn [written]. rewrite length_app. cbn [length]. lia.
Qed.

Lemma coalesce_open_nonempty rs : forall a b, coalesce_open a b rs <> [].
Proof.
  induction rs as [|r rs IH]; intros a b; cbn [coalesce_open].
  - discriminate.
  - destruct (b =? from r); [apply IH | discriminate].
Qed.

(** For a slice of at least two entries, all of map 0, and a [map_size] that
    is the number of intervals of the rule, [calculate_mapping] returns and
    stores exactly those intervals, with [lower_bound] the first [from] and
    [upper_bound] the last [to]. *)
Lemma calculate_mapping_coalesces l r1 r2 rs map_size :
  Z.of_nat (length (coalesce (r1 :: r2 :: rs))) = map_size ->
  calculate_mapping l (one_slice (r1 :: r2 :: rs)) map_size 0 =
    Ret (set_globalToLocalMap l
           (Some (mkMap (coalesce (r1 :: r2 :: rs)) (from r1)
                        (to (last (r2 :: rs) r1))))).
Proof.
  intros Hsize. unfold calculate_mapping.
  assert (Hpos : map_size <> 0).
  { rewrite <- Hsize. cbn [coalesce].
    pose proof (coalesce_open_nonempty (r2 :: rs) (from r1) (to r1)) as Hne.
    destruct (coalesce_open (from r1) (to r1) (r2 :: rs)); [congruence|].
    cbn [length]. lia. }
  replace (negb (map_size =? 0)) with true
    by (symmetry; apply negb_true_iff; apply Z.eqb_neq; exact Hpos).
  cbn [assert bind]. rewrite slice_of_one_slice.
  set (l2 := mkTaskRange r2 0 :: map (fun r => mkTaskRange r 0) rs).
  change (map (fun r => mkTaskRange r 0) (r1 :: r2 :: rs))
    with (mkTaskRange r1 0 :: l2).
  assert (Hranges : map range l2 = r2 :: rs).
  { unfold l2. cbn [map range]. f_equal. rewrite map_map. cbn [range]. apply map_id. }
  change (walk map_size (mkTaskRange r1 0 :: l2) None (mkLocals [] None None))
    with (walk map_size l2 (Some (mkTaskRange r1 0, r1))
            (set_lower (mkLocals [] None None) (from r1))).
  rewrite (walk_writes map_size l2 (mkTaskRange r1 0) r1).
  - cbn [range]. rewrite Hranges. cbn [bind chunksInitialised written app].
    change (coalesce_open (from r1) (to r1) (r2 :: rs)) with (coalesce (r1 :: r2 :: rs)).
    unfold chunksInitialised. cbn [written app set_lower m_lower_bound current_range].
    rewrite Hsize, Z.eqb_refl. cbn [assert bind].
    do 4 f_equal.
    unfold l2. clear.
    change (mkTaskRange r2 0 :: map (fun r => mkTaskRange r 0) rs)
      with (map (fun r => mkTaskRange r 0) (r2 :: rs)).
    generalize (r2 :: rs) as q. intros q. revert r1.
    induction q as [|a q IH]; intros r1; [reflexivity|].
    destruct q as [|b q]; [reflexivity|].
    change (last (map (fun r => mkTaskRange r 0) (a :: b :: q)) (mkTaskRange r1 0))
      with (last (map (fun r => mkTaskRange r 0) (b :: q)) (mkTaskRange r1 0)).
    change (last (a :: b :: q) r1) with (last (b :: q) r1).
    apply IH.
  - unfold l2. discriminate.
  - unfold l2. constructor; [reflexivity|].
    apply Forall_forall. intros x Hx. apply in_map_iff in Hx.
    destruct Hx as (r & <- & _). reflexivity.
  - cbn [range]. rewrite Hranges. unfold chunksInitialised. cbn [written set_lower length].
    change (coalesce_open (from r1) (to r1) (r2 :: rs)) with (coalesce (r1 :: r2 :: rs)).
    lia.
Qed.

(** The intervals of the rule for a sorted slice are strictly ordered and
    pairwise disjoint. *)
Lemma coalesce_open_separated rs : forall a b,
  a < b -> sorted_from b rs ->
  separated (coalesce_open a b rs) /\
  ifrom (hd (mkInterval 0 0) (coalesce_open a b rs)) = a.
Proof.
  induction rs as [|r rs IH]; intros a b Hab Hs.
  - cbn. repeat split; auto.
  - cbn [sorted_from] in Hs. destruct Hs as (H1 & H2 & H3).
    cbn [coalesce_open]. destruct (b =? from r) eqn:E.
    + apply Z.eqb_eq in E. apply IH; [lia | exact H3].
    + apply Z.eqb_neq in E.
      destruct (IH (from r) (to r) H2 H3) as [Hsep Hhd].
      split; [|reflexivity].
      cbn [separated ifrom ito]. split; [exact Hab|]. split; [|exact Hsep].
      destruct (coalesce_open (from r) (to r) rs) as [|c rest] eqn:Ec.
      * exact I.
      * cbn [hd] in Hhd. lia.
Qed.

Lemma coalesce_separated rs : sorted_slice rs -> separated (coalesce rs).
Proof.
  destruct rs as [|r rs]; [intros; exact I|].
  intros [H1 H2]. apply (coalesce_open_separated rs (from r) (to r) H1 H2).
Qed.

(** C2, at the failing input: for a slice of a single range the loops write
    no interval, so the assertion [chunksInitialised == map_size] fails for
    every [map_size], whereas the rule gives the one interval [[from, to)].
    The first sparse layout does the same and, for [0,2), [2,4), [5,7),
    closes the single interval [[0,7)] where the rule gives
    [[0,4), [5,7)]. *)
Theorem C2_single_range_slice :
  (forall l r map_size,
      calculate_mapping l (one_slice [r]) map_size 0 = AssertFail /\
      coalesce [r] = [mkInterval (from r) (to r)]) /\
  (forall l r map_size,
      SparseFirst.calculate_mapping l (one_slice [r]) map_size 0 = AssertFail) /\
  (let rs := [mkRange 0 2; mkRange 2 4; mkRange 5 7] in
   coalesce rs = [mkInterval 0 4; mkInterval 5 7] /\
   calculate_mapping no_map (one_slice rs) 2 0 =
     Ret (set_globalToLocalMap no_map
            (Some (mkMap [mkInterval 0 4; mkInterval 5 7] 0 7))) /\
   forall l,
     SparseFirst.calculate_mapping l (one_slice rs) 2 0 = AssertFail /\
     SparseFirst.calculate_mapping l (one_slice rs) 1 0 =
       Ret (SparseFirst.set_globalToLocalMap l
              (Some (mkMap [mkInterval 0 7] 0 7)))).
Proof.
  split; [|split].
  - intros l r map_size. split; [|reflexivity].
    unfold calculate_mapping.
    destruct (map_size =? 0) eqn:E; [reflexivity|].
    cbn [negb assert bind]. rewrite slice_of_one_slice.
    cbn [map walk bind chunksInitialised written set_lower length Z.of_nat].
    rewrite Z.eqb_sym, E. reflexivity.
  - intros l r map_size. unfold SparseFirst.calculate_mapping.
    destruct (map_size =? 0) eqn:E; [reflexivity|].
    cbn [negb assert bind]. rewrite slice_of_one_slice.
    cbn [map SparseFirst.walk bind chunksInitialised written set_lower length Z.of_nat].
    rewrite Z.eqb_sym, E. reflexivity.
  - cbv zeta. split; [reflexivity|]. split; [reflexivity|].
    intros l. split; reflexivity.
Qed.

End MappingFacts.

(** ** Section and offset across the two layouts *)

Module LayoutFacts.

Import SparseFacts.

(** C4, the claim as stated fails: the dense layout reports index 10 as
    contained in a layout of count 4 and returns offset 10; the sparse
    layout reports the gap index 4 as contained and its offset query ends
    in [laik_panic]. *)
Lemma C4_offset_outside_count :
  (let lv := Compact.mkVector (mkLayout 1 1 4) 4 0 0 in
   Compact.section_vector lv 10 = 0 /\
   Compact.offset_vector lv 0 10 = Ret 10 /\
   ~ 0 <= 10 < count (Compact.h lv)) /\
  (let lv := scenario_layout 0 0 in
   Sparse.section_vector lv 4 = Ret 0 /\
   Sparse.offset_vector lv 0 4 = Panic).
Proof.
  cbv zeta. repeat split; simpl; lia.
Qed.

(** C4, amended: in the dense layout an index with section 0 is any
    [g >= 0]; its offset is [g] itself, returned without an error, and it
    lies in [0, count) exactly when [g < count].  In the sparse layout
    every index inside an owned interval has section 0 and an offset in
    [0, local_length), returned without an error; it lies in [0, count) as
    [local_length <= count]. *)
Theorem C4_offset_within_count :
  (forall lv g,
      Compact.section_vector lv g = 0 ->
      Compact.offset_vector lv 0 g = Ret g /\
      0 <= g /\
      (0 <= g < count (Compact.h lv) <-> g < count (Compact.h lv))) /\
  (forall lv m g,
      local_state lv m ->
      Sparse.localLength lv <= count (Sparse.h lv) ->
      owned m g ->
      Sparse.section_vector lv g = Ret 0 /\
      exists o,
        Sparse.offset_vector lv 0 g = Ret (o, lv) /\
        0 <= o < Sparse.localLength lv /\
        0 <= o < count (Sparse.h lv)).
Proof.
  split.
  - intros lv g. unfold Compact.section_vector, Compact.offset_vector.
    destruct (0 <=? g) eqn:E; [|discriminate]. intros _.
    apply Z.leb_le in E. cbn [assert bind]. repeat split; auto; lia.
  - intros lv m g Hls Hcount Hown.
    split; [exact (owned_in_section lv m g Hls Hown)|].
    destruct Hown as (iv & Hiv & Hin).
    destruct (In_nth_error _ _ Hiv) as [j Hj].
    destruct (offset_vector_owned lv m g j iv Hls Hj Hin) as [Hoff Hb].
    eexists. split; [exact Hoff|]. lia.
Qed.

Lemma C4_offset_within_count_witness :
  (Compact.offset_vector (Compact.mkVector (mkLayout 1 1 4) 4 0 0) 0 3 = Ret 3 /\
   0 <= 3 /\
   (0 <= 3 < count (Compact.h (Compact.mkVector (mkLayout 1 1 4) 4 0 0)) <->
    3 < count (Compact.h (Compact.mkVector (mkLayout 1 1 4) 4 0 0)))) /\
  (Sparse.section_vector (scenario_layout 2 0) 6 = Ret 0 /\
   exists o,
     Sparse.offset_vector (scenario_layout 2 0) 0 6 = Ret (o, scenario_layout 2 0) /\
     0 <= o < Sparse.localLength (scenario_layout 2 0) /\
     0 <= o < count (Sparse.h (scenario_layout 2 0))).
Proof.
  destruct C4_offset_within_count as [Hdense Hsparse]. split.
  - apply (Hdense (Compact.mkVector (mkLayout 1 1 4) 4 0 0) 3). reflexivity.
  - apply (Hsparse (scenario_layout 2 0) scenario_map 6).
    + apply scenario_local_state.
    + simpl. lia.
    + exists (Sparse.mkInterval 5 7). split; [simpl; auto|].
      unfold inside. simpl. lia.
Defined.

End LayoutFacts.

(** ** Pack and unpack *)

Module PackFacts.

Import VectorPack.

Lemma memcpy_inside mem dst src n a :
  dst <= a < dst + n -> memcpy mem dst src n a = mem (src + (a - dst)).
Proof.
  intros H. unfold memcpy.
  replace ((dst <=? a) && (a <? dst + n)) with true; [reflexivity|].
  symmetry. apply andb_true_iff. split; [apply Z.leb_le | apply Z.ltb_lt]; lia.
Qed.

Lemma memcpy_outside mem dst src n a :
  ~ dst <= a < dst + n -> memcpy mem dst src n a = mem a.
Proof.
  intros H. unfold memcpy.
  destruct ((dst <=? a) && (a <? dst + n)) eqn:E; [|reflexivity].
  apply andb_true_iff in E. destruct E as [E1 E2].
  apply Z.leb_le in E1. apply Z.ltb_lt in E2. lia.
Qed.

(** Byte [b] of slot [o] lies inside a region of [cnt] slots. *)
Lemma slot_in_region base es cnt o b :
  0 < es -> 0 <= o < cnt -> 0 <= b < es ->
  base <= base + o * es + b < base + cnt * es.
Proof. intros He Ho Hb. nia. Qed.

(** Two slots of one region share a byte only if they are the same slot. *)
Lemma slots_apart es o o' b b' :
  0 < es -> 0 <= b < es -> 0 <= b' < es ->
  o * es + b = o' * es + b' -> o = o'.
Proof.
  intros He Hb Hb' H.
  destruct (Z.lt_trichotomy o o') as [Hlt|[Heq|Hgt]]; [|exact Heq|].
  - assert ((o + 1) * es <= o' * es) by (apply Z.mul_le_mono_nonneg_r; lia). lia.
  - assert ((o' + 1) * es <= o * es) by (apply Z.mul_le_mono_nonneg_r; lia). lia.
Qed.

(** Two address intervals [a, a + n) that do not meet. *)
Definition apart (a1 n1 a2 n2 : Z) : Prop := a1 + n1 <= a2 \/ a2 + n2 <= a1.

Section Generic.

Context {L : Type}.
Variable offset : L -> Z -> Z -> outcome (Z * L).

(** The offsets the layout returns for [n] successive indices from [idx],
    and the layout after them. *)
Fixpoint offsets (n : nat) (l : L) (sec idx : Z) : outcome (list Z * L) :=
  match n with
  | O => Ret ([], l)
  | S n' =>
      (r <- offset l sec idx ;;
       rs <- offsets n' (snd r) sec (idx + 1) ;;
       Ret (fst r :: fst rs, snd rs))%outcome
  end.

(** Memory after packing the slots [os] of a mapping at [src] into the
    buffer at [buf], and after unpacking the buffer into the slots [os] of
    a mapping at [dst]. *)
Fixpoint pack_mem (src es : Z) (os : list Z) (buf : Z) (mem : memory) : memory :=
  match os with
  | [] => mem
  | o :: os' => pack_mem src es os' (buf + es) (memcpy mem buf (src + o * es) es)
  end.

Fixpoint unpack_mem (dst es : Z) (os : list Z) (buf : Z) (mem : memory) : memory :=
  match os with
  | [] => mem
  | o :: os' => unpack_mem dst es os' (buf + es) (memcpy mem (dst + o * es) buf es)
  end.

Lemma offsets_succ n l sec idx os l' :
  offsets (S n) l sec idx = Ret (os, l') ->
  exists o l1 os',
    offset l sec idx = Ret (o, l1) /\
    offsets n l1 sec (idx + 1) = Ret (os', l') /\
    os = o :: os'.
Proof.
  cbn [offsets]. destruct (offset l sec idx) as [[o l1]| | |]; cbn [bind fst snd];
    try (intros H; discriminate H).
  destruct (offsets n l1 sec (idx + 1)) as [[os' l2]| | |] eqn:E2; cbn [bind fst snd];
    try (intros H; discriminate H).
  intros H. injection H as <- <-. exists o, l1, os'. auto.
Qed.


Lemma offsets_nth n : forall l sec idx os l' k o,
  offsets n l sec idx = Ret (os, l') ->
  nth_error os k = Some o ->
  exists lk lk', offset lk sec (idx + Z.of_nat k) = Ret (o, lk').
Proof.
  induction n as [|n IH]; intros l sec idx os l' k o H Hk.
  - injection H as <- _. destruct k; discriminate.
  - destruct (offsets_succ _ _ _ _ _ _ H) as (o1 & l1 & os' & H1 & H2 & ->).
    destruct k as [|k]; cbn [nth_error] in Hk.
    + injection Hk as <-. exists l, l1. rewrite Z.add_0_r. exact H1.
    + destruct (IH _ _ _ _ _ _ _ H2 Hk) as (lk & lk' & Hlk).
      exists lk, lk'. rewrite <- Hlk. f_equal. lia.
Qed.

(** The loop of [pack_vector] over [S n] indices that end the range, with
    room in the buffer for all of them: it returns after [S n] elements
    with [*idx = range->to]. *)
Lemma pack_loop_run (m : Laik_Mapping L) (range : Laik_Range) (n : nat) :
  forall fuel l idx buf size cnt mem os l',
    to range - idx = Z.of_nat (S n) ->
    (n <= fuel)%nat ->
    offsets (S n) l (layoutSection m) idx = Ret (os, l') ->
    0 < elemsize m ->
    Z.of_nat (S n) * elemsize m <= size ->
    0 <= cnt -> cnt + Z.of_nat (S n) < 2 ^ 32 ->
    pack_loop offset fuel m range l idx buf size cnt mem =
      Ret (@mkPacked L (cnt + Z.of_nat (S n)) (to range) l'
             (pack_mem (start m) (elemsize m) os buf mem)).
Proof.
  induction n as [|n IH];
    intros fuel l idx buf size cnt mem os l' Hto Hfuel Hoff Hes Hsize Hcnt Hmax;
    destruct (offsets_succ _ _ _ _ _ _ Hoff) as (o & l1 & os' & H1 & H2 & ->).
  - injection H2 as <- <-.
    assert (Hs : (size <? elemsize m) = false) by (apply Z.ltb_ge; lia).
    assert (Hn : (idx + 1 <? to range) = false) by (apply Z.ltb_ge; lia).
    destruct fuel; cbn [pack_loop]; rewrite Hs, H1; cbn [bind]; unfold next_idx;
      rewrite Hn; rewrite CInt.uint32_id by (unfold CInt.is_uint32; lia);
      reflexivity.
  - destruct fuel as [|fuel]; [lia|].
    assert (Hs : (size <? elemsize m) = false) by (apply Z.ltb_ge; nia).
    assert (Hn : (idx + 1 <? to range) = true) by (apply Z.ltb_lt; lia).
    cbn [pack_loop]. rewrite Hs, H1. cbn [bind]. unfold next_idx. rewrite Hn.
    rewrite CInt.uint32_id by (unfold CInt.is_uint32; lia).
    rewrite (IH fuel l1 (idx + 1) (buf + elemsize m) (size - elemsize m)
               (cnt + 1) _ os' l'); try lia; auto.
    cbn [pack_mem]. do 2 f_equal. lia.
Qed.

Lemma unpack_loop_run (m : Laik_Mapping L) (range : Laik_Range) (n : nat) :
  forall fuel l idx buf size cnt mem os l',
    to range - idx = Z.of_nat (S n) ->
    (n <= fuel)%nat ->
    offsets (S n) l (layoutSection m) idx = Ret (os, l') ->
    0 < elemsize m ->
    Z.of_nat (S n) * elemsize m <= size ->
    0 <= cnt -> cnt + Z.of_nat (S n) < 2 ^ 32 ->
    unpack_loop offset fuel m range l idx buf size cnt mem =
      Ret (@mkPacked L (cnt + Z.of_nat (S n)) (to range) l'
             (unpack_mem (start m) (elemsize m) os buf mem)).
Proof.
  induction n as [|n IH];
    intros fuel l idx buf size cnt mem os l' Hto Hfuel Hoff Hes Hsize Hcnt Hmax;
    destruct (offsets_succ _ _ _ _ _ _ Hoff) as (o & l1 & os' & H1 & H2 & ->).
  - injection H2 as <- <-.
    assert (Hs : (size <? elemsize m) = false) by (apply Z.ltb_ge; lia).
    assert (Hn : (idx + 1 <? to range) = false) by (apply Z.ltb_ge; lia).
    destruct fuel; cbn [unpack_loop]; rewrite Hs, H1; cbn [bind]; unfold next_idx;
      rewrite Hn; rewrite CInt.uint32_id by (unfold CInt.is_uint32; lia);
      reflexivity.
  - destruct fuel as [|fuel]; [lia|].
    assert (Hs : (size <? elemsize m) = false) by (apply Z.ltb_ge; nia).
    assert (Hn : (idx + 1 <? to range) = true) by (apply Z.ltb_lt; lia).
    cbn [unpack_loop]. rewrite Hs, H1. cbn [bind]. unfold next_idx. rewrite Hn.
    rewrite CInt.uint32_id by (unfold CInt.is_uint32; lia).
    rewrite (IH fuel l1 (idx + 1) (buf + elemsize m) (size - elemsize m)
               (cnt + 1) _ os' l'); try lia; auto.
    cbn [unpack_mem]. do 2 f_equal. lia.
Qed.

End Generic.

(** *** The memory after the two walks *)

(** Packing writes the buffer only. *)
Lemma pack_mem_frame src es os : forall buf mem a,
  0 < es ->
  ~ buf <= a < buf + Z.of_nat (length os) * es ->
  pack_mem src es os buf mem a = mem a.
Proof.
  induction os as [|o os IH]; intros buf mem a Hes Ha; cbn [pack_mem].
  - reflexivity.
  - cbn [length] in Ha. rewrite Nat2Z.inj_succ in Ha.
    rewrite IH by (auto; nia).
    apply memcpy_outside. nia.
Qed.

(** Chunk [k] of the buffer holds the slot [os[k]] of the source, when the
    buffer and the source region do not meet. *)
Lemma pack_mem_buffer src es cnt os : forall buf mem k o b,
  0 < es ->
  (forall o, In o os -> 0 <= o < cnt) ->
  apart buf (Z.of_nat (length os) * es) src (cnt * es) ->
  nth_error os k = Some o ->
  0 <= b < es ->
  pack_mem src es os buf mem (buf + Z.of_nat k * es + b) = mem (src + o * es + b).
Proof.
  induction os as [|o1 os IH]; intros buf mem k o b Hes Hos Hap Hk Hb.
  - destruct k; discriminate.
  - cbn [pack_mem]. cbn [length] in Hap. rewrite Nat2Z.inj_succ in Hap.
    unfold apart in *.
    assert (Ho1 : 0 <= o1 < cnt) by (apply Hos; left; reflexivity).
    destruct k as [|k]; cbn [nth_error] in Hk.
    + injection Hk as <-. cbn [Z.of_nat]. rewrite Z.mul_0_l, Z.add_0_r.
      rewrite pack_mem_frame by (auto; nia).
      rewrite memcpy_inside by lia. f_equal. lia.
    + assert (Ho : 0 <= o < cnt) by (apply Hos; right; eapply nth_error_In; eassumption).
      assert (Hklt : (k < length os)%nat) by (apply nth_error_Some; congruence).
      replace (buf + Z.of_nat (S k) * es + b) with (buf + es + Z.of_nat k * es + b)
        by (rewrite Nat2Z.inj_succ; ring).
      rewrite (IH (buf + es) _ k o b); auto.
      * apply memcpy_outside.
        pose proof (slot_in_region src es cnt o b Hes Ho Hb). nia.
      * intros o' Ho'. apply Hos. right. exact Ho'.
      * nia.
Qed.

(** Unpacking writes the destination slots only. *)
Lemma unpack_mem_frame dst es os : forall buf mem a,
  0 < es ->
  (forall o, In o os -> ~ dst + o * es <= a < dst + o * es + es) ->
  unpack_mem dst es os buf mem a = mem a.
Proof.
  induction os as [|o os IH]; intros buf mem a Hes Ha; cbn [unpack_mem].
  - reflexivity.
  - rewrite IH; auto.
    + apply memcpy_outside. apply Ha. left. reflexivity.
    + intros o' Ho'. apply Ha. right. exact Ho'.
Qed.

(** If chunk [k] of the buffer holds the value [V (os[k])], then after
    unpacking every destination slot [o] of [os] holds [V o], when the
    buffer and the destination region do not meet. *)
Lemma unpack_mem_slots dst es cnt (V : Z -> Z -> Byte.byte) os : forall buf mem,
  0 < es ->
  (forall o, In o os -> 0 <= o < cnt) ->
  apart buf (Z.of_nat (length os) * es) dst (cnt * es) ->
  (forall k o b, nth_error os k = Some o -> 0 <= b < es ->
                 mem (buf + Z.of_nat k * es + b) = V o b) ->
  forall o b, In o os -> 0 <= b < es ->
    unpack_mem dst es os buf mem (dst + o * es + b) = V o b.
Proof.
  induction os as [|o1 os IH]; intros buf mem Hes Hos Hap Hbuf o b Ho Hb.
  - contradiction.
  - cbn [unpack_mem]. cbn [length] in Hap. rewrite Nat2Z.inj_succ in Hap.
    unfold apart in *.
    assert (Ho1 : 0 <= o1 < cnt) by (apply Hos; left; reflexivity).
    assert (Horange : 0 <= o < cnt) by (apply Hos; exact Ho).
    destruct (in_dec Z.eq_dec o os) as [Hin|Hnin].
    + apply (IH (buf + es)); auto.
      * intros o' Ho'. apply Hos. right. exact Ho'.
      * nia.
      * intros k o' b' Hk Hb'.
        assert (Hklt : (k < length os)%nat) by (apply nth_error_Some; congruence).
        rewrite memcpy_outside.
        -- replace (buf + es + Z.of_nat k * es + b')
             with (buf + Z.of_nat (S k) * es + b')
             by (rewrite Nat2Z.inj_succ; ring).
           apply Hbuf; auto.
        -- assert (Hfirst : 0 <= 0 < es) by lia.
           assert (Hlast : 0 <= es - 1 < es) by lia.
           pose proof (slot_in_region dst es cnt o1 0 Hes Ho1 Hfirst).
           pose proof (slot_in_region dst es cnt o1 (es - 1) Hes Ho1 Hlast).
           nia.
    + destruct Ho as [<-|Ho]; [|contradiction].
      rewrite unpack_mem_frame; auto.
      * rewrite memcpy_inside by lia.
        replace (buf + (dst + o1 * es + b - (dst + o1 * es))) with
          (buf + Z.of_nat 0 * es + b) by (cbn [Z.of_nat]; ring).
        apply Hbuf; auto.
      * intros o' Ho' Hslot.
        apply Hnin.
        assert (o1 = o'); [|subst; exact Ho'].
        apply (slots_apart es o1 o' b (dst + o1 * es + b - (dst + o' * es)));
          auto; lia.
Qed.

Section RoundTrip.

Context {L : Type}.
Variable offset : L -> Z -> Z -> outcome (Z * L).


End RoundTrip.

(** *** The two layouts *)

(** The indices [idx, idx + 1, ...], [n] of them. *)
Fixpoint zrange (idx : Z) (n : nat) : list Z :=
  match n with
  | O => []
  | S n' => idx :: zrange (idx + 1) n'
  end.

Lemma In_zrange n : forall idx g,
  In g (zrange idx n) <-> idx <= g < idx + Z.of_nat n.
Proof.
  induction n as [|n IH]; intros idx g; cbn [zrange In].
  - cbn [Z.of_nat]. lia.
  - rewrite IH, Nat2Z.inj_succ. lia.
Qed.

(** A layout whose offset for the indices of the walk is a function of the
    index and leaves the layout as it is. *)
Lemma offsets_pure {L : Type} (offset : L -> Z -> Z -> outcome (Z * L))
    (f : Z -> Z) (l : L) (sec : Z) (n : nat) : forall idx,
  (forall g, idx <= g < idx + Z.of_nat n -> offset l sec g = Ret (f g, l)) ->
  offsets offset n l sec idx = Ret (map f (zrange idx n), l).
Proof.
  induction n as [|n IH]; intros idx H; cbn [offsets zrange map].
  - reflexivity.
  - rewrite H by lia. cbn [bind fst snd].
    rewrite IH by (intros g Hg; apply H; lia).
    reflexivity.
Qed.

Import SparseFacts.

(** The slot of an owned index: what the scan of [offset_vector] reaches. *)
Definition slot_of (m : Sparse.Laik_Map_Vector) (g : Z) : Z :=
  fst (Sparse.scan_intervals (Sparse.intervals m) g 0).

Lemma sparse_offset_owned lv m g :
  local_state lv m -> owned m g ->
  Sparse.offset_vector lv 0 g = Ret (slot_of m g, lv) /\
  0 <= slot_of m g < Sparse.localLength lv.
Proof.
  intros Hls (iv & Hiv & Hin).
  destruct (In_nth_error _ _ Hiv) as [j Hj].
  destruct (offset_vector_owned lv m g j iv Hls Hj Hin) as [Hoff Hb].
  destruct Hls as [Hmap Hne Hasc Hlo Hup Hlen Hty Hlty].
  assert (Hscan : slot_of m g
                  = prefix (Sparse.intervals m) j + (g - Sparse.ifrom iv)).
  { unfold slot_of.
    rewrite (scan_inside _ (Sparse.lower_bound m) 0 g j iv); auto; try lia.
    rewrite <- Hlen. unfold CInt.is_sint64 in Hlty. lia. }
  rewrite Hscan. split; assumption.
Qed.


(** A concrete round trip in each layout: 8-byte elements, the source
    region at address 0, the destination region at 1000, the buffer at
    2000. *)
Definition sample_mem : memory :=
  fun a => if Z.even a then Byte.x01 else Byte.x02.

Definition dense_at (st : Z) : Laik_Mapping Compact.Laik_Layout_Vector :=
  mkMapping (Compact.mkVector (mkLayout 1 1 4) 4 0 0) 0 st (mkRange 0 4) 8.

Definition sparse_at (st : Z) : Laik_Mapping Sparse.Laik_Layout_Vector :=
  mkMapping (scenario_layout 0 0) 0 st (mkRange 0 7) 8.


End PackFacts.

(** ** The block partitioner *)

Module BlockFacts.

Import Partitioner.

(** *** What the specification asks of the emitted slices *)

(** An emitted slice along dimension 0: task, from, to. *)
Definition slice1d : Type := (Z * Z * Z)%type.

Definition s_task (x : slice1d) : Z := fst (fst x).
Definition s_from (x : slice1d) : Z := snd (fst x).
Definition s_to (x : slice1d) : Z := snd x.

Definition view (ba : Laik_BorderArray) : list slice1d :=
  map (fun ts => (task ts, i0 (sfrom (s ts)), i0 (sto (s ts)))) (tslice ba).







(** Non-empty slices that follow one another from [lo] to [hi]. *)
Fixpoint tiles (lo hi : Z) (sl : list slice1d) : Prop :=
  match sl with
  | [] => lo = hi
  | x :: rest => s_from x = lo /\ s_from x < s_to x /\ tiles (s_to x) hi rest
  end.













(** *** The run on a 1-D space with unit weights *)

(** The default weights: no index-weight and no task-weight function,
    one cycle, partitioned dimension 0. *)
Definition unit_data {D : Type} : Laik_BlockPartitionerData (D := D) :=
  mkBlockData 0 1 None None.

(** An empty border array for a group of [k] tasks over a space of size [N]
    in dimension 0 ([s1], [s2] are the other two sizes). *)
Definition line (k N s1 s2 : Z) : Laik_BorderArray :=
  mkBorderArray k (mkSpace 1 (mkIndex N s1 s2)) [].

(** The slices a run emits, [None] if it does not return. *)
Definition emitted {D : Type} (ops : DoubleOps D)
    (data : Laik_BlockPartitionerData) (ba : Laik_BorderArray)
  : option (list slice1d) :=
  match runBlockPartitioner ops data ba with
  | Ret b => Some (view b)
  | _ => None
  end.











(** *** Exact arithmetic *)








Section ExactRun.

Variables N k s1 s2 : Z.
Hypothesis Hk : 0 < k <= N.
Hypothesis HN : N < 2 ^ 63.

Local Notation "'perPart'" := (inject_Z N / inject_Z k / inject_Z 1)%Q.
Local Notation "'totalTW'" := (inject_Z k).
Local Notation "'sp'" := (mkSpace 1 (mkIndex N s1 s2)).












End ExactRun.


(** *** IEEE 754 binary64 *)










(** *** Index weights *)

(** The index weights 1, 1, 1, 5 as a weight function. *)
Definition weights_1115 (idx : Laik_Index) : float :=
  nth (Z.to_nat (i0 idx)) [1; 1; 1; 5]%float 0%float.

(** [totalW] and [perPart] as [runBlockPartitioner] computes them for an
    index-weight function [f] on a space of [size] indices. *)
Definition total_weight (f : Laik_Index -> float) (size : Z) : float :=
  fold_left (fun acc i => PrimFloat.add acc (f (set_i (laik_set_index 0 0 0) 0 i)))
            (indices size) 0%float.

Definition share (f : Laik_Index -> float) (size count cycles : Z) : float :=
  PrimFloat.div (PrimFloat.div (total_weight f size) (of_int binary64 count))
                (of_int binary64 cycles).

(** The weight [w] after the weight of index [i] is added and before any
    share is taken off: accumulated from [-0.5] over the indices [0 .. i]. *)
Definition running_weight (f : Laik_Index -> float) (i : Z) : float :=
  fold_left (fun acc j => PrimFloat.add acc (f (set_i (laik_set_index 0 0 0) 0 j)))
            (indices (i + 1)) (-0.5)%float.

(** C6: with index weights 1, 1, 1, 5 on a space of size 4, two tasks, one
    cycle and unit task weights (by default or by a task-weight function
    that returns 1), exactly two slices are emitted: [0,3) for task 0 and
    [3,4) for task 1.  The share of a task is 8 / 2 / 1 = 4.0, and the
    accumulated weight reaches it first at index 3, where the first slice
    ends. *)
Theorem C6_block_index_weights (s1 s2 : Z) :
  emitted binary64 (mkBlockData 0 1 (Some weights_1115) None) (line 2 4 s1 s2)
    = Some [(0, 0, 3); (1, 3, 4)] /\
  emitted binary64 (mkBlockData 0 1 (Some weights_1115) (Some (fun _ => 1%float)))
          (line 2 4 s1 s2)
    = Some [(0, 0, 3); (1, 3, 4)] /\
  share weights_1115 4 2 1 = 4%float /\
  map (fun i => PrimFloat.leb (share weights_1115 4 2 1)
                              (running_weight weights_1115 i)) [0; 1; 2; 3]
    = [false; false; false; true].
Proof.
  repeat split; vm_compute; reflexivity.
Qed.

End BlockFacts.

(** ** Sparse layout: the local block and the external slots *)

Module SlotFacts.

Import Sparse SparseFacts.

(** Along an ascending list the offset formula grows with the index. *)
Lemma prefix_increasing ivs : forall lo j j' iv iv' g g',
  ascending lo ivs ->
  nth_error ivs j = Some iv -> nth_error ivs j' = Some iv' ->
  inside iv g -> inside iv' g' -> g < g' ->
  prefix ivs j + (g - ifrom iv) < prefix ivs j' + (g' - ifrom iv').
Proof.
  induction ivs as [|a rest IH]; intros lo j j' iv iv' g g' Hasc Hj Hj' Hg Hg' Hlt.
  - destruct j; discriminate.
  - assert (Hasc0 := Hasc).
    simpl in Hasc. destruct Hasc as (Hlo & Ha & Hrest).
    destruct j as [|j], j' as [|j']; cbn [nth_error] in Hj, Hj'.
    + injection Hj as <-. injection Hj' as <-. unfold inside in *.
      unfold prefix. simpl. lia.
    + injection Hj as <-.
      pose proof (prefix_inside_bound _ _ _ _ _ Hrest Hj' Hg') as Hb.
      unfold inside in Hg. unfold prefix in *. simpl. unfold isize. lia.
    + injection Hj' as <-. exfalso.
      assert (Hin : In iv rest) by (eapply nth_error_In; eassumption).
      destruct (ascending_bounds rest (ito a) iv iv Hrest Hin) as (H1 & _ & _).
      unfold inside in *. lia.
    + pose proof (IH _ _ _ _ _ _ _ Hrest Hj Hj' Hg Hg' Hlt) as H.
      unfold prefix in *. simpl. lia.
Qed.

(** Every position of the local block is the offset of an owned index. *)
Lemma prefix_onto ivs : forall lo o,
  ascending lo ivs -> 0 <= o < total_size ivs ->
  exists j iv g,
    nth_error ivs j = Some iv /\ inside iv g /\ prefix ivs j + (g - ifrom iv) = o.
Proof.
  induction ivs as [|a rest IH]; intros lo o Hasc Ho.
  - simpl in Ho. lia.
  - simpl in Hasc. destruct Hasc as (Hlo & Ha & Hrest).
    simpl in Ho. unfold isize in Ho.
    destruct (Z_lt_le_dec o (ito a - ifrom a)) as [Hlt|Hge].
    + exists 0%nat, a, (ifrom a + o). split; [reflexivity|].
      split; [unfold inside; lia|]. unfold prefix. simpl. lia.
    + destruct (IH (ito a) (o - (ito a - ifrom a)) Hrest) as (j & iv & g & Hj & Hg & Ho');
        [lia|].
      exists (S j), iv, g. split; [exact Hj|]. split; [exact Hg|].
      unfold prefix in *. simpl. unfold isize. lia.
Qed.

(** X1: for a layout in the local state, [offset_vector] is a strictly
    increasing map from the owned indices onto the local block
    [0, localLength): two owned indices never share a slot, a larger index
    has a larger slot, every slot of the block is the slot of an owned
    index, and the layout is left as it was. *)
Theorem offset_vector_owned_bijection lv m :
  local_state lv m ->
  (forall g g', owned m g -> owned m g' -> g < g' ->
     exists o o',
       offset_vector lv 0 g = Ret (o, lv) /\
       offset_vector lv 0 g' = Ret (o', lv) /\
       0 <= o /\ o < o' /\ o' < localLength lv) /\
  (forall o, 0 <= o < localLength lv ->
     exists g, owned m g /\ offset_vector lv 0 g = Ret (o, lv)).
Proof.
  intros Hls. split.
  - intros g g' (iv & Hiv & Hg) (iv' & Hiv' & Hg') Hlt.
    destruct (In_nth_error _ _ Hiv) as [j Hj].
    destruct (In_nth_error _ _ Hiv') as [j' Hj'].
    destruct (offset_vector_owned lv m g j iv Hls Hj Hg) as [Ho Hb].
    destruct (offset_vector_owned lv m g' j' iv' Hls Hj' Hg') as [Ho' Hb'].
    eexists _, _. split; [exact Ho|]. split; [exact Ho'|].
    pose proof (prefix_increasing _ _ _ _ _ _ _ _ (ls_ascending _ _ Hls)
                  Hj Hj' Hg Hg' Hlt).
    lia.
  - intros o Ho.
    rewrite (ls_length _ _ Hls) in Ho.
    destruct (prefix_onto _ _ _ (ls_ascending _ _ Hls) Ho)
      as (j & iv & g & Hj & Hg & Heq).
    exists g. split.
    + exists iv. split; [eapply nth_error_In; eassumption | exact Hg].
    + destruct (offset_vector_owned lv m g j iv Hls Hj Hg) as [Hoff _].
      rewrite Hoff, Heq. reflexivity.
Qed.

Lemma offset_vector_owned_bijection_witness :
  (forall g g', owned scenario_map g -> owned scenario_map g' -> g < g' ->
     exists o o',
       offset_vector (scenario_layout 2 0) 0 g = Ret (o, scenario_layout 2 0) /\
       offset_vector (scenario_layout 2 0) 0 g' = Ret (o', scenario_layout 2 0) /\
       0 <= o /\ o < o' /\ o' < localLength (scenario_layout 2 0)) /\
  (forall o, 0 <= o < localLength (scenario_layout 2 0) ->
     exists g, owned scenario_map g /\
               offset_vector (scenario_layout 2 0) 0 g = Ret (o, scenario_layout 2 0)).
Proof.
  apply (offset_vector_owned_bijection (scenario_layout 2 0) scenario_map).
  apply scenario_local_state.
Defined.

(** X2: with [E > 0] external slots, successive queries for indices that
    are not owned walk through the external block and start again: query
    number [k] returns [localLength + (cursor + k) mod E], a slot of
    [localLength, localLength + E), and the map, the local length and [E]
    are kept. *)
Theorem external_queries_round_robin lv m gs :
  globalToLocalMap lv = Some m ->
  external_state lv ->
  0 < numberOfExternalValues lv ->
  Forall (fun g => ~ owned m g) gs ->
  exists os lv',
    offset_queries lv gs = Ret (os, lv') /\
    os = map (fun k => localLength lv
                       + (external_cursor lv + Z.of_nat k) mod numberOfExternalValues lv)
             (seq 0 (length gs)) /\
    Forall (fun o => localLength lv <= o < localLength lv + numberOfExternalValues lv) os /\
    globalToLocalMap lv' = Some m /\
    localLength lv' = localLength lv /\
    numberOfExternalValues lv' = numberOfExternalValues lv.
Proof.
  intros Hmap Hes HE Hgs.
  destruct (external_queries_cycle lv m Hmap Hes HE gs Hgs) as (lv' & Hq & Hm & Hl & HE').
  eexists _, lv'. split; [exact Hq|]. split; [reflexivity|].
  split; [|auto].
  apply Forall_forall. intros o Ho. apply in_map_iff in Ho.
  destruct Ho as (k & <- & _).
  pose proof (Z.mod_pos_bound (external_cursor lv + Z.of_nat k)
                (numberOfExternalValues lv) HE).
  lia.
Qed.

Lemma external_queries_round_robin_witness :
  exists os lv',
    offset_queries (scenario_layout 2 1) [4; 7; 9; -1; 4] = Ret (os, lv') /\
    os = map (fun k => localLength (scenario_layout 2 1)
                       + (external_cursor (scenario_layout 2 1) + Z.of_nat k)
                         mod numberOfExternalValues (scenario_layout 2 1))
             (seq 0 (length [4; 7; 9; -1; 4])) /\
    Forall (fun o => localLength (scenario_layout 2 1) <= o
                     < localLength (scenario_layout 2 1)
                       + numberOfExternalValues (scenario_layout 2 1)) os /\
    globalToLocalMap lv' = Some scenario_map /\
    localLength lv' = localLength (scenario_layout 2 1) /\
    numberOfExternalValues lv' = numberOfExternalValues (scenario_layout 2 1).
Proof.
  apply (external_queries_round_robin (scenario_layout 2 1) scenario_map [4; 7; 9; -1; 4]).
  - reflexivity.
  - apply scenario_external_state; lia.
  - simpl. lia.
  - repeat constructor; apply scenario_not_owned; lia.
Defined.

End SlotFacts.

(** ** Sparse layout: the map that [calculate_mapping] builds *)

Module MapBuildFacts.

Import Sparse SparseFacts MappingFacts.

(** The number of indices in the ranges of a slice. *)
Definition ranges_size (rs : list Laik_Range) : Z :=
  fold_right (fun r acc => laik_range_size r + acc) 0 rs.

(** The number of indices below [g] in the ranges of a slice, and in a list
    of intervals. *)
Definition below (rs : list Laik_Range) (g : Z) : Z :=
  fold_right (fun r acc => Z.max 0 (Z.min (to r) g - from r) + acc) 0 rs.

Definition below_intervals (ivs : list Laik_Interval_Vector) (g : Z) : Z :=
  fold_right (fun iv acc => Z.max 0 (Z.min (ito iv) g - ifrom iv) + acc) 0 ivs.

Definition in_ranges (rs : list Laik_Range) (g : Z) : Prop :=
  exists r, In r rs /\ from r <= g < to r.

Definition ranges_in_type (rs : list Laik_Range) : Prop :=
  Forall (fun r => CInt.is_sint64 (from r) /\ CInt.is_sint64 (to r)) rs.

(** A slice of task [myid] whose entries all belong to map 0. *)
Definition slice_ranges (rlist : Laik_RangeList) (myid : Z) (rs : list Laik_Range)
  : Prop :=
  map range (slice_of rlist myid) = rs /\
  Forall (fun x => mapNo x = 0) (slice_of rlist myid).

Lemma last_cons_shift {A : Type} (x : A) (l : list A) (d : A) :
  last (x :: l) d = last l x.
Proof.
  revert x d. induction l as [|y l IH]; intros x d; [reflexivity|].
  change (last (x :: y :: l) d) with (last (y :: l) d).
  rewrite (IH y d), (IH y x). reflexivity.
Qed.

Lemma last_map_to (rs : list Laik_Range) (r : Laik_Range) :
  to (last rs r) = last (map to rs) (to r).
Proof.
  revert r. induction rs as [|x rs IH]; intros r; [reflexivity|].
  cbn [map]. rewrite !last_cons_shift. apply IH.
Qed.

Lemma last_map_range (ts : list Laik_TaskRange) (t : Laik_TaskRange) :
  range (last ts t) = last (map range ts) (range t).
Proof.
  revert t. induction ts as [|x ts IH]; intros t; [reflexivity|].
  cbn [map]. rewrite !last_cons_shift. apply IH.
Qed.

(** *** The rule's intervals *)

Lemma coalesce_open_ascending rs : forall lo a b,
  lo <= a -> a < b -> sorted_from b rs ->
  ascending lo (coalesce_open a b rs).
Proof.
  induction rs as [|r rs IH]; intros lo a b Hlo Hab Hs; cbn [coalesce_open].
  - cbn [ascending ifrom ito]. lia.
  - cbn [sorted_from] in Hs. destruct Hs as (H1 & H2 & H3).
    destruct (b =? from r) eqn:E.
    + apply IH; [lia | lia | exact H3].
    + cbn [ascending ifrom ito]. split; [lia|]. split; [lia|].
      apply IH; [lia | lia | exact H3].
Qed.

Lemma coalesce_open_last rs : forall a b d,
  ito (last (coalesce_open a b rs) d) = last (map to rs) b.
Proof.
  induction rs as [|r rs IH]; intros a b d; cbn [coalesce_open map].
  - reflexivity.
  - rewrite last_cons_shift. destruct (b =? from r).
    + apply IH.
    + rewrite last_cons_shift. apply IH.
Qed.

Lemma coalesce_open_total rs : forall a b,
  a < b -> sorted_from b rs ->
  total_size (coalesce_open a b rs) = (b - a) + ranges_size rs.
Proof.
  induction rs as [|r rs IH]; intros a b Hab Hs; cbn [coalesce_open ranges_size fold_right].
  - cbn. unfold isize. cbn [ifrom ito]. lia.
  - cbn [sorted_from] in Hs. destruct Hs as (H1 & H2 & H3).
    fold (ranges_size rs). unfold laik_range_size.
    destruct (b =? from r) eqn:E.
    + apply Z.eqb_eq in E. rewrite IH by (auto; lia). lia.
    + cbn [total_size fold_right]. fold (total_size (coalesce_open (from r) (to r) rs)).
      rewrite IH by (auto; lia). unfold isize. cbn [ifrom ito]. lia.
Qed.

Lemma coalesce_open_owned rs : forall a b g,
  a < b -> sorted_from b rs ->
  ((exists iv, In iv (coalesce_open a b rs) /\ inside iv g) <->
   (a <= g < b \/ in_ranges rs g)).
Proof.
  induction rs as [|r rs IH]; intros a b g Hab Hs; cbn [coalesce_open].
  - split.
    + intros (iv & [<-|[]] & Hin). left. exact Hin.
    + intros [H|(r & [] & _)]. exists (mkInterval a b). split; [left; reflexivity | exact H].
  - cbn [sorted_from] in Hs. destruct Hs as (H1 & H2 & H3).
    destruct (b =? from r) eqn:E.
    + apply Z.eqb_eq in E. rewrite (IH a (to r) g) by (auto; lia).
      unfold in_ranges. split.
      * intros [H|(x & Hx & Hg)].
        -- destruct (Z_lt_le_dec g b); [left; lia|].
           right. exists r. split; [left; reflexivity | lia].
        -- right. exists x. split; [right; exact Hx | exact Hg].
      * intros [H|(x & [<-|Hx] & Hg)].
        -- left. lia.
        -- left. lia.
        -- right. exists x. split; assumption.
    + split.
      * intros (iv & [<-|Hiv] & Hin).
        -- left. exact Hin.
        -- assert (Hx : exists iv, In iv (coalesce_open (from r) (to r) rs) /\ inside iv g)
             by (exists iv; split; assumption).
           apply (IH (from r) (to r) g H2 H3) in Hx.
           right. destruct Hx as [Hx|(x & Hx & Hg)].
           ++ exists r. split; [left; reflexivity | exact Hx].
           ++ exists x. split; [right; exact Hx | exact Hg].
      * intros [H|(x & [<-|Hx] & Hg)].
        -- exists (mkInterval a b). split; [left; reflexivity | exact H].
        -- assert (Hx : from r <= g < to r \/ in_ranges rs g) by (left; exact Hg).
           apply (IH (from r) (to r) g H2 H3) in Hx.
           destruct Hx as (iv & Hiv & Hin). exists iv. split; [right; exact Hiv | exact Hin].
        -- assert (Hy : from r <= g < to r \/ in_ranges rs g)
             by (right; exists x; split; assumption).
           apply (IH (from r) (to r) g H2 H3) in Hy.
           destruct Hy as (iv & Hiv & Hin). exists iv. split; [right; exact Hiv | exact Hin].
Qed.

Lemma coalesce_open_in_type rs : forall a b,
  CInt.is_sint64 a -> CInt.is_sint64 b -> ranges_in_type rs ->
  bounds_in_type (coalesce_open a b rs).
Proof.
  induction rs as [|r rs IH]; intros a b Ha Hb Hty; cbn [coalesce_open].
  - constructor; [split; assumption | constructor].
  - inversion Hty as [|? ? [Hf Ht] Hty']; subst.
    destruct (b =? from r).
    + apply IH; assumption.
    + constructor; [split; assumption|]. apply IH; assumption.
Qed.

Lemma coalesce_open_below rs : forall a b g,
  a < b -> sorted_from b rs ->
  below_intervals (coalesce_open a b rs) g = Z.max 0 (Z.min b g - a) + below rs g.
Proof.
  induction rs as [|r rs IH]; intros a b g Hab Hs; cbn [coalesce_open].
  - unfold below_intervals, below. cbn [fold_right ifrom ito]. reflexivity.
  - cbn [sorted_from] in Hs. destruct Hs as (H1 & H2 & H3).
    change (below (r :: rs) g)
      with (Z.max 0 (Z.min (to r) g - from r) + below rs g).
    destruct (b =? from r) eqn:E.
    + apply Z.eqb_eq in E. rewrite IH by (auto; lia). lia.
    + change (below_intervals (mkInterval a b :: coalesce_open (from r) (to r) rs) g)
        with (Z.max 0 (Z.min b g - a)
              + below_intervals (coalesce_open (from r) (to r) rs) g).
      rewrite IH by (auto; lia). lia.
Qed.

Lemma below_intervals_before ivs : forall lo g,
  ascending lo ivs -> g <= lo -> below_intervals ivs g = 0.
Proof.
  induction ivs as [|a rest IH]; intros lo g Hasc Hg.
  - reflexivity.
  - simpl in Hasc. destruct Hasc as (Hlo & Ha & Hrest).
    cbn [below_intervals fold_right]. fold (below_intervals rest g).
    rewrite (IH (ito a) g Hrest) by lia. lia.
Qed.

(** In an ascending list the offset formula counts the indices below. *)
Lemma prefix_below ivs : forall lo j iv g,
  ascending lo ivs -> nth_error ivs j = Some iv -> inside iv g ->
  prefix ivs j + (g - ifrom iv) = below_intervals ivs g.
Proof.
  induction ivs as [|a rest IH]; intros lo j iv g Hasc Hj Hg.
  - destruct j; discriminate.
  - simpl in Hasc. destruct Hasc as (Hlo & Ha & Hrest).
    cbn [below_intervals fold_right]. fold (below_intervals rest g).
    destruct j as [|j]; cbn [nth_error] in Hj.
    + injection Hj as <-. unfold inside in Hg.
      rewrite (below_intervals_before rest (ito a) g Hrest) by lia.
      unfold prefix. simpl. lia.
    + assert (Hin : In iv rest) by (eapply nth_error_In; eassumption).
      destruct (ascending_bounds rest (ito a) iv iv Hrest Hin) as (H1 & _ & _).
      unfold inside in Hg.
      rewrite <- (IH (ito a) j iv g Hrest Hj Hg).
      unfold prefix. simpl. unfold isize. lia.
Qed.

(** *** The loops *)

(** Inside the [while] loop with at least one entry left and an array too
    short for the intervals of the rule, the loops write past its end. *)
Lemma walk_overflows map_size l : forall prev start st,
  l <> [] ->
  Forall (fun x => mapNo x = 0) l ->
  chunksInitialised st <= map_size
    < chunksInitialised st
      + Z.of_nat (length (coalesce_open (from start) (to (range prev)) (map range l))) ->
  walk map_size l (Some (prev, start)) st = Undefined.
Proof.
  induction l as [|x l' IH]; intros prev start st Hne Hmap Hroom; [congruence|].
  inversion Hmap as [|? ? Hx Hl']; subst.
  cbn [walk]. rewrite Hx. cbn [Z.eqb]. cbv zeta.
  cbn [map coalesce_open] in Hroom.
  unfold chunksInitialised in *.
  destruct l' as [|y l''].
  - cbn [is_nil map coalesce_open andb] in *.
    destruct (to (range prev) =? from (range x)) eqn:E; cbn [negb].
    + unfold write_chunk, chunksInitialised. cbn [written set_current] in *.
      cbn [length] in Hroom.
      replace (Z.of_nat (length (written st)) <? map_size) with false
        by (symmetry; apply Z.ltb_ge; lia).
      reflexivity.
    + unfold write_chunk, chunksInitialised. cbn [written set_current] in *.
      cbn [length] in Hroom.
      destruct (Z.of_nat (length (written st)) <? map_size) eqn:E1; [|reflexivity].
      apply Z.ltb_lt in E1.
      cbn [bind written]. rewrite length_app. cbn [length].
      replace (Z.of_nat (length (written st) + 1) <? map_size) with false
        by (symmetry; apply Z.ltb_ge; lia).
      reflexivity.
  - cbn [is_nil andb].
    assert (Hne' : y :: l'' <> []) by discriminate.
    destruct (to (range prev) =? from (range x)) eqn:E; cbn [negb].
    + apply (IH x start (set_current st (range x)) Hne' Hl'). exact Hroom.
    + cbn [length] in Hroom.
      unfold write_chunk at 1. unfold chunksInitialised. cbn [written set_current].
      destruct (Z.of_nat (length (written st)) <? map_size) eqn:E1; [|reflexivity].
      apply Z.ltb_lt in E1.
      cbn [bind m_lower_bound current_range].
      apply (IH x (range x) _ Hne' Hl').
      unfold chunksInitialised. cbn [written]. rewrite length_app. cbn [length]. lia.
Qed.

(** The map the rule gives for a slice that starts with [r1]. *)
Definition rule_map (r1 : Laik_Range) (rs : list Laik_Range) : Laik_Map_Vector :=
  mkMap (coalesce (r1 :: rs)) (from r1) (last (map to rs) (to r1)).

(** [calculate_mapping] on a slice of at least two entries of map 0, by the
    declared [map_size]. *)
Lemma calculate_mapping_cases l rlist myid r1 r2 rs map_size :
  slice_ranges rlist myid (r1 :: r2 :: rs) ->
  0 <= map_size ->
  calculate_mapping l rlist map_size myid =
    if map_size =? 0 then AssertFail
    else if map_size <? Z.of_nat (length (coalesce (r1 :: r2 :: rs))) then Undefined
    else if map_size =? Z.of_nat (length (coalesce (r1 :: r2 :: rs)))
    then Ret (set_globalToLocalMap l (Some (rule_map r1 (r2 :: rs))))
    else AssertFail.
Proof.
  intros [Hr Hm] Hsize. unfold calculate_mapping.
  destruct (map_size =? 0) eqn:E0; [reflexivity|]. apply Z.eqb_neq in E0.
  cbn [negb assert bind].
  destruct (slice_of rlist myid) as [|t1 [|t2 ts]] eqn:Hs; try discriminate Hr.
  cbn [map] in Hr. injection Hr as Hr1 Hr2 Hrs.
  inversion Hm as [|? ? Ht1 Hm']; subst.
  set (l2 := t2 :: ts) in *.
  assert (Hranges : map range l2 = range t2 :: map range ts) by reflexivity.
  change (walk map_size (t1 :: l2) None (mkLocals [] None None))
    with (walk map_size l2 (Some (t1, range t1))
            (set_lower (mkLocals [] None None) (from (range t1)))).
  change (coalesce (range t1 :: range t2 :: map range ts))
    with (coalesce_open (from (range t1)) (to (range t1)) (map range l2)).
  set (n := Z.of_nat (length (coalesce_open (from (range t1)) (to (range t1))
                                            (map range l2)))).
  assert (Hl2 : l2 <> []) by discriminate.
  destruct (map_size <? n) eqn:E1.
  - apply Z.ltb_lt in E1.
    rewrite (walk_overflows map_size l2 t1 (range t1) _ Hl2 Hm'); [reflexivity|].
    unfold chunksInitialised. cbn [written set_lower length Z.of_nat]. fold n. lia.
  - apply Z.ltb_ge in E1.
    rewrite (walk_writes map_size l2 t1 (range t1) _ Hl2 Hm').
    + cbn [bind]. unfold chunksInitialised.
      cbn [written app set_lower m_lower_bound current_range]. fold n.
      rewrite (Z.eqb_sym n map_size).
      destruct (map_size =? n) eqn:E2; [|reflexivity].
      cbn [assert bind]. unfold rule_map.
      rewrite last_map_range, last_map_to. reflexivity.
    + unfold chunksInitialised. cbn [written set_lower length Z.of_nat]. fold n. lia.
Qed.

Lemma coalesce_length_pos r1 rs : 0 < Z.of_nat (length (coalesce (r1 :: rs))).
Proof.
  cbn [coalesce].
  pose proof (coalesce_open_nonempty rs (from r1) (to r1)) as Hne.
  destruct (coalesce_open (from r1) (to r1) rs); [congruence|].
  cbn [length]. lia.
Qed.

Lemma ranges_size_nonneg rs : forall lo, sorted_from lo rs -> 0 <= ranges_size rs.
Proof.
  induction rs as [|r rs IH]; intros lo Hs.
  - cbn. lia.
  - cbn [sorted_from] in Hs. destruct Hs as (H1 & H2 & H3).
    cbn [ranges_size fold_right]. fold (ranges_size rs).
    specialize (IH _ H3). unfold laik_range_size. lia.
Qed.

(** The rule's map of a sorted slice puts a layout of the slice's size in
    the local state. *)
Lemma rule_map_local_state l r1 rs :
  sorted_slice (r1 :: rs) ->
  ranges_in_type (r1 :: rs) ->
  localLength l = ranges_size (r1 :: rs) ->
  localLength l < 2 ^ 63 ->
  local_state (set_globalToLocalMap l (Some (rule_map r1 rs))) (rule_map r1 rs).
Proof.
  intros [H1 Hs] Hty Hlen Hmax.
  inversion Hty as [|? ? [Hf Ht] Hty']; subst.
  constructor; cbn [set_globalToLocalMap globalToLocalMap localLength rule_map
                    intervals lower_bound upper_bound coalesce].
  - reflexivity.
  - apply coalesce_open_nonempty.
  - apply coalesce_open_ascending; [lia | exact H1 | exact Hs].
  - symmetry. apply (coalesce_open_separated rs (from r1) (to r1) H1 Hs).
  - symmetry. apply coalesce_open_last.
  - rewrite Hlen. rewrite coalesce_open_total by assumption.
    cbn [ranges_size fold_right]. unfold laik_range_size. reflexivity.
  - apply coalesce_open_in_type; assumption.
  - pose proof (ranges_size_nonneg rs (to r1) Hs) as Hnn.
    cbn [ranges_size fold_right] in Hlen. fold (ranges_size rs) in Hlen.
    unfold laik_range_size in Hlen. unfold CInt.is_sint64. lia.
Qed.

Lemma rule_map_owned r1 rs g :
  sorted_slice (r1 :: rs) ->
  (owned (rule_map r1 rs) g <-> in_ranges (r1 :: rs) g).
Proof.
  intros [H1 Hs]. unfold owned, rule_map. cbn [intervals coalesce].
  rewrite (coalesce_open_owned rs (from r1) (to r1) g H1 Hs).
  unfold in_ranges. split.
  - intros [H|(r & Hr & Hg)].
    + exists r1. split; [left; reflexivity | exact H].
    + exists r. split; [right; exact Hr | exact Hg].
  - intros (r & [<-|Hr] & Hg).
    + left. exact Hg.
    + right. exists r. split; assumption.
Qed.

(** X3: for a sorted slice of at least two ranges of map 0 and a
    [map_size] that is the number of runs of adjacent ranges,
    [calculate_mapping] returns with the layout in the local state: the
    intervals ascend, the bounds are the first [from] and the last [to],
    and [localLength] is their total size.  The owned indices are the
    indices of the slice, and [offset_vector] then gives each of them its
    rank, the number of indices of the slice below it. *)
Theorem calculate_mapping_local_state l rlist myid r1 r2 rs :
  slice_ranges rlist myid (r1 :: r2 :: rs) ->
  sorted_slice (r1 :: r2 :: rs) ->
  ranges_in_type (r1 :: r2 :: rs) ->
  localLength l = ranges_size (r1 :: r2 :: rs) ->
  localLength l < 2 ^ 63 ->
  exists m,
    let l' := set_globalToLocalMap l (Some m) in
    calculate_mapping l rlist (Z.of_nat (length (coalesce (r1 :: r2 :: rs)))) myid
      = Ret l' /\
    local_state l' m /\
    (forall g, owned m g <-> in_ranges (r1 :: r2 :: rs) g) /\
    (forall g, in_ranges (r1 :: r2 :: rs) g ->
       offset_vector l' 0 g = Ret (below (r1 :: r2 :: rs) g, l') /\
       0 <= below (r1 :: r2 :: rs) g < localLength l).
Proof.
  intros Hslice Hsorted Hty Hlen Hmax.
  exists (rule_map r1 (r2 :: rs)). cbv zeta.
  pose proof (rule_map_local_state l r1 (r2 :: rs) Hsorted Hty Hlen Hmax) as Hls.
  split; [|split; [exact Hls|split]].
  - rewrite (calculate_mapping_cases l rlist myid r1 r2 rs _ Hslice) by lia.
    pose proof (coalesce_length_pos r1 (r2 :: rs)) as Hpos.
    replace (Z.of_nat (length (coalesce (r1 :: r2 :: rs))) =? 0) with false
      by (symmetry; apply Z.eqb_neq; lia).
    rewrite Z.ltb_irrefl, Z.eqb_refl. reflexivity.
  - intros g. apply rule_map_owned. exact Hsorted.
  - intros g Hg.
    apply (rule_map_owned r1 (r2 :: rs) g Hsorted) in Hg.
    destruct Hg as (iv & Hiv & Hin).
    destruct (In_nth_error _ _ Hiv) as [j Hj].
    destruct (offset_vector_owned _ _ g j iv Hls Hj Hin) as [Hoff Hb].
    assert (Heq : prefix (intervals (rule_map r1 (r2 :: rs))) j + (g - ifrom iv)
                  = below (r1 :: r2 :: rs) g).
    { rewrite (prefix_below _ _ _ _ _ (ls_ascending _ _ Hls) Hj Hin).
      destruct Hsorted as [H1 Hs].
      unfold rule_map. cbn [intervals coalesce].
      rewrite coalesce_open_below by assumption. reflexivity. }
    rewrite Heq in Hoff, Hb. split; [exact Hoff | exact Hb].
Qed.

(** The slice [0,2), [2,4), [5,7) of section 8, for task 0, and a layout
    of its size without a map. *)
Definition sample_slice : list Laik_Range := [mkRange 0 2; mkRange 2 4; mkRange 5 7].

Lemma sample_slice_ranges : slice_ranges (one_slice sample_slice) 0 sample_slice.
Proof. split; [reflexivity | repeat constructor]. Qed.

Lemma calculate_mapping_local_state_witness :
  exists m,
    let l' := set_globalToLocalMap no_map (Some m) in
    calculate_mapping no_map (one_slice sample_slice)
      (Z.of_nat (length (coalesce sample_slice))) 0 = Ret l' /\
    local_state l' m /\
    (forall g, owned m g <-> in_ranges sample_slice g) /\
    (forall g, in_ranges sample_slice g ->
       offset_vector l' 0 g = Ret (below sample_slice g, l') /\
       0 <= below sample_slice g < localLength no_map).
Proof.
  apply (calculate_mapping_local_state no_map (one_slice sample_slice) 0
           (mkRange 0 2) (mkRange 2 4) [mkRange 5 7]).
  - exact sample_slice_ranges.
  - cbn. lia.
  - repeat constructor; cbn [from to]; unfold CInt.is_sint64; lia.
  - reflexivity.
  - cbn. lia.
Defined.

(** X4: on a slice of at least two ranges of map 0 the declared [map_size]
    decides the outcome of [calculate_mapping]: it returns exactly when
    [map_size] is the number of runs of adjacent ranges; a smaller positive
    [map_size] makes the loops write past the end of the interval array; a
    larger one, and 0, end in a failed assertion. *)
Theorem calculate_mapping_map_size l rlist myid r1 r2 rs map_size :
  slice_ranges rlist myid (r1 :: r2 :: rs) ->
  0 <= map_size ->
  let runs := Z.of_nat (length (coalesce (r1 :: r2 :: rs))) in
  (map_size = runs ->
   calculate_mapping l rlist map_size myid
     = Ret (set_globalToLocalMap l (Some (rule_map r1 (r2 :: rs))))) /\
  (0 < map_size < runs ->
   calculate_mapping l rlist map_size myid = Undefined) /\
  (map_size = 0 \/ runs < map_size ->
   calculate_mapping l rlist map_size myid = AssertFail).
Proof.
  intros Hslice Hsize runs.
  rewrite (calculate_mapping_cases l rlist myid r1 r2 rs map_size Hslice Hsize).
  fold runs.
  pose proof (coalesce_length_pos r1 (r2 :: rs)) as Hpos. fold runs in Hpos.
  split; [|split].
  - intros ->.
    replace (runs =? 0) with false by (symmetry; apply Z.eqb_neq; lia).
    rewrite Z.ltb_irrefl, Z.eqb_refl. reflexivity.
  - intros H.
    replace (map_size =? 0) with false by (symmetry; apply Z.eqb_neq; lia).
    replace (map_size <? runs) with true by (symmetry; apply Z.ltb_lt; lia).
    reflexivity.
  - intros [->|H].
    + reflexivity.
    + replace (map_size =? 0) with false by (symmetry; apply Z.eqb_neq; lia).
      replace (map_size <? runs) with false by (symmetry; apply Z.ltb_ge; lia).
      replace (map_size =? runs) with false by (symmetry; apply Z.eqb_neq; lia).
      reflexivity.
Qed.

Lemma calculate_mapping_map_size_witness :
  let runs := Z.of_nat (length (coalesce sample_slice)) in
  (1 = runs ->
   calculate_mapping no_map (one_slice sample_slice) 1 0
     = Ret (set_globalToLocalMap no_map
              (Some (rule_map (mkRange 0 2) [mkRange 2 4; mkRange 5 7])))) /\
  (0 < 1 < runs ->
   calculate_mapping no_map (one_slice sample_slice) 1 0 = Undefined) /\
  (1 = 0 \/ runs < 1 ->
   calculate_mapping no_map (one_slice sample_slice) 1 0 = AssertFail).
Proof.
  apply (calculate_mapping_map_size no_map (one_slice sample_slice) 0
           (mkRange 0 2) (mkRange 2 4) [mkRange 5 7] 1).
  - exact sample_slice_ranges.
  - lia.
Defined.

End MapBuildFacts.

(** ** Sparse layout: from the constructor to the first queries *)

Module LifeCycleFacts.

Import Sparse SparseFacts.




End LifeCycleFacts.

(** ** Copying between two mappings *)

Module CopyFacts.

Import VectorPack VectorCopy PackFacts.

(** Memory after copying the indices [gs], slot [sf g] of the source region
    to slot [st g] of the destination region. *)
Fixpoint copy_mem (src dst es : Z) (sf st : Z -> Z) (gs : list Z) (mem : memory)
  : memory :=
  match gs with
  | [] => mem
  | g :: gs' =>
      copy_mem src dst es sf st gs'
        (memcpy mem (dst + st g * es) (src + sf g * es) es)
  end.

Section Generic.

Context {L : Type}.
Variable offset_vector : L -> Z -> Z -> outcome (Z * L).

(** The loop over [S n] indices that end the range, for layouts whose
    offsets for these indices are functions of the index and leave the
    layouts as they are. *)
Lemma copy_loop_pure (mfrom mto : Laik_Mapping L) (range : Laik_Range)
    (aliased : bool) (lf lt : L) (sf st : Z -> Z) (n : nat) :
  let lt0 := if aliased then lf else lt in
  forall fuel idx count mem lt1,
    to range - idx = Z.of_nat (S n) ->
    (n <= fuel)%nat ->
    lt1 = lt \/ lt1 = lt0 ->
    (forall g, idx <= g < to range ->
       offset_vector lf (layoutSection mfrom) g = Ret (sf g, lf)) ->
    (forall g, idx <= g < to range ->
       offset_vector lt0 (layoutSection mto) g = Ret (st g, lt0)) ->
    0 <= count -> count + Z.of_nat (S n) < 2 ^ 64 ->
    copy_loop offset_vector fuel mfrom mto range aliased lf lt1 idx count mem =
      Ret (count + Z.of_nat (S n),
           mkCopied lf lt0
             (copy_mem (start mfrom) (start mto) (elemsize mfrom) sf st
                       (zrange idx (S n)) mem)).
Proof.
  intros lt0. induction n as [|n IH];
    intros fuel idx count mem lt1 Hto Hfuel Hlt1 Hf Ht Hc Hmax.
  - assert (Hn : (idx + 1 <? to range) = false) by (apply Z.ltb_ge; lia).
    assert (Hl : (if aliased then lf else lt1) = lt0).
    { subst lt0. destruct aliased; [reflexivity|]. destruct Hlt1; assumption. }
    destruct fuel; cbn [copy_loop]; rewrite Hf by lia; cbn [bind]; rewrite Hl;
      rewrite Ht by lia; cbn [bind]; unfold next_idx; rewrite Hn;
      rewrite CInt.uint64_id by (unfold CInt.is_uint64; lia);
      cbn [zrange copy_mem];
      replace (if aliased then lt0 else lf) with lf
        by (subst lt0; destruct aliased; reflexivity);
      reflexivity.
  - destruct fuel as [|fuel]; [lia|].
    assert (Hn : (idx + 1 <? to range) = true) by (apply Z.ltb_lt; lia).
    assert (Hl : (if aliased then lf else lt1) = lt0).
    { subst lt0. destruct aliased; [reflexivity|]. destruct Hlt1; assumption. }
    cbn [copy_loop]. rewrite Hf by lia. cbn [bind]. rewrite Hl.
    rewrite Ht by lia. cbn [bind]. unfold next_idx. rewrite Hn.
    rewrite CInt.uint64_id by (unfold CInt.is_uint64; lia).
    replace (if aliased then lt0 else lf) with lf
      by (subst lt0; destruct aliased; reflexivity).
    rewrite (IH fuel (idx + 1) (count + 1) _ lt0); try lia; auto.
    + cbn [zrange copy_mem]. do 2 f_equal. lia.
    + intros g Hg. apply Hf. lia.
    + intros g Hg. apply Ht. lia.
Qed.

(** The loop over an empty range runs once; the count it leaves is 1. *)
Lemma copy_loop_empty (mfrom mto : Laik_Mapping L) (range : Laik_Range)
    (aliased : bool) (lf lt : L) (fuel : nat) (mem : memory) cnt c :
  to range <= from range ->
  copy_loop offset_vector fuel mfrom mto range aliased lf lt (from range) 0 mem
    = Ret (cnt, c) ->
  cnt = 1.
Proof.
  intros Hr.
  assert (Hn : (from range + 1 <? to range) = false) by (apply Z.ltb_ge; lia).
  destruct fuel; cbn [copy_loop];
    (destruct (offset_vector lf (layoutSection mfrom) (from range)) as [[o1 l1]| | |];
     cbn [bind]; try discriminate;
     destruct (offset_vector (if aliased then l1 else lt) (layoutSection mto) (from range))
       as [[o2 l2]| | |]; cbn [bind]; try discriminate;
     unfold next_idx; rewrite Hn; intros H; injection H as <- _; reflexivity).
Qed.

End Generic.

(** *** The memory after the loop *)

(** Copying writes the destination slots only. *)
Lemma copy_mem_frame src dst es sf st gs : forall mem a,
  (forall g, In g gs -> ~ dst + st g * es <= a < dst + st g * es + es) ->
  copy_mem src dst es sf st gs mem a = mem a.
Proof.
  induction gs as [|g gs IH]; intros mem a Ha; cbn [copy_mem].
  - reflexivity.
  - rewrite IH.
    + apply memcpy_outside. apply Ha. left. reflexivity.
    + intros g' Hg'. apply Ha. right. exact Hg'.
Qed.

(** After the loop the destination slot of every copied index holds what
    its source slot held, when the two regions do not meet and different
    indices have different destination slots. *)
Lemma copy_mem_slots src dst es cs cd sf st gs : forall mem g b,
  0 < es ->
  (forall g, In g gs -> 0 <= sf g < cs /\ 0 <= st g < cd) ->
  (forall g g', In g gs -> In g' gs -> st g = st g' -> g = g') ->
  apart src (cs * es) dst (cd * es) ->
  In g gs -> 0 <= b < es ->
  copy_mem src dst es sf st gs mem (dst + st g * es + b) = mem (src + sf g * es + b).
Proof.
  induction gs as [|g1 gs IH]; intros mem g b Hes Hr Hinj Hap Hg Hb.
  - contradiction.
  - cbn [copy_mem]. unfold apart in Hap.
    assert (Hr1 : 0 <= sf g1 < cs /\ 0 <= st g1 < cd) by (apply Hr; left; reflexivity).
    assert (Hrg : 0 <= sf g < cs /\ 0 <= st g < cd) by (apply Hr; exact Hg).
    assert (Hfirst : 0 <= 0 < es) by lia.
    assert (Hlast : 0 <= es - 1 < es) by lia.
    pose proof (slot_in_region dst es cd (st g1) 0 Hes (proj2 Hr1) Hfirst) as Hd0.
    pose proof (slot_in_region dst es cd (st g1) (es - 1) Hes (proj2 Hr1) Hlast) as Hd1.
    pose proof (slot_in_region src es cs (sf g) b Hes (proj1 Hrg) Hb) as Hs.
    destruct (in_dec Z.eq_dec g gs) as [Hin|Hnin].
    + assert (Hr' : forall g, In g gs -> 0 <= sf g < cs /\ 0 <= st g < cd)
        by (intros g' Hg'; apply Hr; right; exact Hg').
      assert (Hinj' : forall g g', In g gs -> In g' gs -> st g = st g' -> g = g')
        by (intros x y Hx Hy; apply Hinj; right; assumption).
      rewrite (IH _ g b Hes Hr' Hinj' Hap Hin Hb).
      apply memcpy_outside. lia.
    + destruct Hg as [<-|Hg]; [|contradiction].
      rewrite copy_mem_frame.
      * rewrite memcpy_inside by lia. f_equal. lia.
      * intros g' Hg' Hslot.
        apply Hnin.
        assert (g1 = g'); [|subst; exact Hg'].
        apply Hinj; [left; reflexivity | right; exact Hg' |].
        apply (slots_apart es (st g1) (st g') b
                 (dst + st g1 * es + b - (dst + st g' * es))); auto; lia.
Qed.

(** *** The two layouts *)

Import SparseFacts.

Lemma slot_of_increasing lv m g g' :
  local_state lv m -> owned m g -> owned m g' -> g < g' ->
  slot_of m g < slot_of m g'.
Proof.
  intros Hls (iv & Hiv & Hin) (iv' & Hiv' & Hin') Hlt.
  destruct (In_nth_error _ _ Hiv) as [j Hj].
  destruct (In_nth_error _ _ Hiv') as [j' Hj'].
  pose proof (SlotFacts.prefix_increasing _ _ _ _ _ _ _ _ (ls_ascending _ _ Hls)
                Hj Hj' Hin Hin' Hlt) as Hlt'.
  assert (Hown : owned m g) by (exists iv; split; assumption).
  assert (Hown' : owned m g') by (exists iv'; split; assumption).
  destruct (offset_vector_owned lv m g j iv Hls Hj Hin) as [H1 _].
  destruct (offset_vector_owned lv m g' j' iv' Hls Hj' Hin') as [H2 _].
  destruct (sparse_offset_owned lv m g Hls Hown) as [H3 _].
  destruct (sparse_offset_owned lv m g' Hls Hown') as [H4 _].
  rewrite H1 in H3. rewrite H2 in H4.
  injection H3 as H3. injection H4 as H4. lia.
Qed.

(** X6: [copy_vector] over a non-empty range returns after copying every
    element of the range from the source mapping to the destination
    mapping, the two regions not meeting.  In the dense layout the element
    of index [g] is slot [g] of either mapping.  In the sparse layout the
    two layouts may have different interval maps, each owning the indices
    of the range; the element of index [g] moves from its slot in the
    source map to its slot in the destination map.  Nothing is written
    outside the destination slots of the range (dense layout), outside
    the local block of the destination mapping (sparse layout). *)
Theorem copy_vector_copies_range :
  (forall (range : Laik_Range) (mfrom mto : Laik_Mapping Compact.Laik_Layout_Vector)
          (aliased : bool) (slots : Z) (mem : memory),
      let es := elemsize mfrom in
      0 <= from range < to range ->
      to range <= slots ->
      to range < 2 ^ 63 ->
      elemsize mto = es ->
      0 < es ->
      apart (start mfrom) (slots * es) (start mto) (slots * es) ->
      exists mem',
        Compact.copy_vector range mfrom mto aliased mem
          = Ret (mkCopied (layout mfrom)
                          (if aliased then layout mfrom else layout mto) mem') /\
        (forall g b, from range <= g < to range -> 0 <= b < es ->
           mem' (start mto + g * es + b) = mem (start mfrom + g * es + b)) /\
        (forall a, ~ start mto + from range * es <= a < start mto + to range * es ->
           mem' a = mem a)) /\
  (forall (range : Laik_Range) (mfrom mto : Laik_Mapping Sparse.Laik_Layout_Vector)
          (aliased : bool) (mf mt : Sparse.Laik_Map_Vector) (mem : memory),
      let es := elemsize mfrom in
      let lt := if aliased then layout mfrom else layout mto in
      local_state (layout mfrom) mf ->
      local_state lt mt ->
      layoutSection mfrom = 0 ->
      layoutSection mto = 0 ->
      from range < to range ->
      to range - from range < 2 ^ 64 ->
      (forall g, from range <= g < to range -> owned mf g /\ owned mt g) ->
      elemsize mto = es ->
      0 < es ->
      apart (start mfrom) (Sparse.localLength (layout mfrom) * es)
            (start mto) (Sparse.localLength lt * es) ->
      exists mem',
        Sparse.copy_vector range mfrom mto aliased mem
          = Ret (mkCopied (layout mfrom) lt mem') /\
        (forall g b, from range <= g < to range -> 0 <= b < es ->
           exists o o',
             Sparse.offset_vector (layout mfrom) 0 g = Ret (o, layout mfrom) /\
             Sparse.offset_vector lt 0 g = Ret (o', lt) /\
             mem' (start mto + o' * es + b) = mem (start mfrom + o * es + b)) /\
        (forall a, ~ start mto <= a < start mto + Sparse.localLength lt * es ->
           mem' a = mem a)).
Proof.
  split.
  - intros range mfrom mto aliased slots mem es Hr Hslots Hmax Hes Hpos Hap.
    set (n := Z.to_nat (to range - from range - 1)).
    assert (Hn : to range - from range = Z.of_nat (S n)) by (subst n; lia).
    assert (Hoff : forall (lv : Compact.Laik_Layout_Vector) sec g,
               from range <= g < to range ->
               Compact.offset_entry lv sec g = Ret ((fun x => x) g, lv)).
    { intros lv sec g Hg. unfold Compact.offset_entry, Compact.offset_vector.
      replace (0 <=? g) with true by (symmetry; apply Z.leb_le; lia). reflexivity. }
    exists (copy_mem (start mfrom) (start mto) es (fun x => x) (fun x => x)
                     (zrange (from range) (S n)) mem).
    split; [|split].
    + unfold Compact.copy_vector, copy_vector. fold es. rewrite Hes, Z.eqb_refl.
      cbn [assert bind].
      rewrite (copy_loop_pure Compact.offset_entry mfrom mto range aliased
                 (layout mfrom) (layout mto) (fun x => x) (fun x => x) n);
        auto; try lia.
      cbn [bind fst snd]. unfold laik_range_size. rewrite Hn.
      cbn [Z.add]. rewrite Z.eqb_refl. reflexivity.
    + intros g b Hg Hb.
      apply (copy_mem_slots (start mfrom) (start mto) es slots slots
               (fun x => x) (fun x => x)); auto.
      * intros g' Hg'. apply In_zrange in Hg'. lia.
      * apply In_zrange. lia.
    + intros a Ha. apply copy_mem_frame.
      intros g Hg. apply In_zrange in Hg. nia.
  - intros range mfrom mto aliased mf mt mem es lt
           Hlf Hlt Hsf Hst Hr Hmax Hown Hes Hpos Hap.
    set (n := Z.to_nat (to range - from range - 1)).
    assert (Hn : to range - from range = Z.of_nat (S n)) by (subst n; lia).
    exists (copy_mem (start mfrom) (start mto) es (slot_of mf) (slot_of mt)
                     (zrange (from range) (S n)) mem).
    assert (Hof : forall g, from range <= g < to range ->
              Sparse.offset_vector (layout mfrom) 0 g = Ret (slot_of mf g, layout mfrom) /\
              0 <= slot_of mf g < Sparse.localLength (layout mfrom)).
    { intros g Hg. apply sparse_offset_owned; [exact Hlf | apply Hown; exact Hg]. }
    assert (Hot : forall g, from range <= g < to range ->
              Sparse.offset_vector lt 0 g = Ret (slot_of mt g, lt) /\
              0 <= slot_of mt g < Sparse.localLength lt).
    { intros g Hg. apply sparse_offset_owned; [exact Hlt | apply Hown; exact Hg]. }
    split; [|split].
    + unfold Sparse.copy_vector, copy_vector. fold es. rewrite Hes, Z.eqb_refl.
      cbn [assert bind].
      rewrite (copy_loop_pure Sparse.offset_vector mfrom mto range aliased
                 (layout mfrom) (layout mto) (slot_of mf) (slot_of mt) n);
        auto; try lia.
      * cbn [bind fst snd]. unfold laik_range_size. rewrite Hn.
        cbn [Z.add]. rewrite Z.eqb_refl. reflexivity.
      * intros g Hg. rewrite Hsf. apply Hof. exact Hg.
      * intros g Hg. rewrite Hst. apply Hot. exact Hg.
    + intros g b Hg Hb. exists (slot_of mf g), (slot_of mt g).
      split; [apply Hof; exact Hg|]. split; [apply Hot; exact Hg|].
      apply (copy_mem_slots (start mfrom) (start mto) es
               (Sparse.localLength (layout mfrom)) (Sparse.localLength lt)); auto.
      * intros g' Hg'. apply In_zrange in Hg'.
        split; [apply Hof | apply Hot]; lia.
      * intros x y Hx Hy Heq. apply In_zrange in Hx. apply In_zrange in Hy.
        destruct (Z.lt_trichotomy x y) as [Hlt'|[Heq'|Hgt]]; [|exact Heq'|].
        -- pose proof (slot_of_increasing lt mt x y Hlt
                         (proj2 (Hown x ltac:(lia))) (proj2 (Hown y ltac:(lia))) Hlt').
           lia.
        -- pose proof (slot_of_increasing lt mt y x Hlt
                         (proj2 (Hown y ltac:(lia))) (proj2 (Hown x ltac:(lia))) Hgt).
           lia.
      * apply In_zrange. lia.
    + intros a Ha. apply copy_mem_frame.
      intros g Hg. apply In_zrange in Hg.
      destruct (Hot g ltac:(lia)) as [_ Hb]. nia.
Qed.

(** Two sparse mappings over one index space with different interval maps:
    the source owns [0,4) and [5,7), the destination [1,3) and [5,9). *)
Definition other_map : Sparse.Laik_Map_Vector :=
  Sparse.mkMap [Sparse.mkInterval 1 3; Sparse.mkInterval 5 9] 1 9.

Definition other_layout : Sparse.Laik_Layout_Vector :=
  Sparse.mkVector (mkLayout 1 1 6) 1 6 0 0 (Some other_map) 6.

Lemma other_local_state : local_state other_layout other_map.
Proof.
  constructor; simpl; try reflexivity.
  - discriminate.
  - lia.
  - repeat constructor; cbn [Sparse.ifrom Sparse.ito]; unfold CInt.is_sint64; lia.
  - unfold CInt.is_sint64. lia.
Qed.

Lemma copy_vector_copies_range_witness :
  (exists mem',
      Compact.copy_vector (mkRange 1 3) (dense_at 0) (dense_at 1000) false sample_mem
        = Ret (mkCopied (layout (dense_at 0)) (layout (dense_at 1000)) mem') /\
      (forall g b, 1 <= g < 3 -> 0 <= b < 8 ->
         mem' (1000 + g * 8 + b) = sample_mem (0 + g * 8 + b)) /\
      (forall a, ~ 1000 + 1 * 8 <= a < 1000 + 3 * 8 -> mem' a = sample_mem a)) /\
  (exists mem',
      Sparse.copy_vector (mkRange 5 7) (sparse_at 0)
        (mkMapping other_layout 0 1000 (mkRange 1 9) 8) false sample_mem
        = Ret (mkCopied (layout (sparse_at 0)) other_layout mem') /\
      (forall g b, 5 <= g < 7 -> 0 <= b < 8 ->
         exists o o',
           Sparse.offset_vector (layout (sparse_at 0)) 0 g
             = Ret (o, layout (sparse_at 0)) /\
           Sparse.offset_vector other_layout 0 g = Ret (o', other_layout) /\
           mem' (1000 + o' * 8 + b) = sample_mem (0 + o * 8 + b)) /\
      (forall a, ~ 1000 <= a < 1000 + Sparse.localLength other_layout * 8 ->
         mem' a = sample_mem a)).
Proof.
  destruct copy_vector_copies_range as [Hdense Hsparse]. split.
  - apply (Hdense (mkRange 1 3) (dense_at 0) (dense_at 1000) false 4 sample_mem);
      try reflexivity; unfold apart; simpl; lia.
  - apply (Hsparse (mkRange 5 7) (sparse_at 0)
             (mkMapping other_layout 0 1000 (mkRange 1 9) 8) false
             scenario_map other_map sample_mem);
      try reflexivity; try apply scenario_local_state; try apply other_local_state;
      try (unfold apart; simpl; lia).
    intros g Hg. simpl in Hg. split.
    + exists (Sparse.mkInterval 5 7). split; [simpl; auto|]. unfold inside. simpl. lia.
    + exists (Sparse.mkInterval 5 9). split; [simpl; auto|]. unfold inside. simpl. lia.
Defined.

(** X7: [copy_vector] does not return for an empty range: the body of its
    [do ... while] loop runs once before the range is tested, so the count
    is 1 where the size of the range is 0.  The dense layout ends in a
    failed assertion; the sparse layout ends in a failed assertion or, where
    the index is not owned and there are no external slots, in
    [laik_panic]. *)
Theorem copy_vector_empty_range :
  (forall (range : Laik_Range) (mfrom mto : Laik_Mapping Compact.Laik_Layout_Vector)
          (aliased : bool) (mem : memory),
      from range = to range ->
      Compact.copy_vector range mfrom mto aliased mem = AssertFail) /\
  (forall (range : Laik_Range) (mfrom mto : Laik_Mapping Sparse.Laik_Layout_Vector)
          (aliased : bool) (mem : memory),
      from range = to range ->
      Sparse.copy_vector range mfrom mto aliased mem = AssertFail \/
      Sparse.copy_vector range mfrom mto aliased mem = Panic).
Proof.
  split.
  - intros range mfrom mto aliased mem Hr.
    unfold Compact.copy_vector, copy_vector.
    destruct (elemsize mfrom =? elemsize mto); [|reflexivity].
    cbn [assert bind]. rewrite Hr, Z.sub_diag. cbn [Z.to_nat copy_loop].
    unfold Compact.offset_entry, Compact.offset_vector.
    destruct (0 <=? to range); [|reflexivity].
    cbn [assert bind]. unfold next_idx.
    replace (to range + 1 <? to range) with false by (symmetry; apply Z.ltb_ge; lia).
    cbn [bind fst snd]. unfold laik_range_size. rewrite Hr, Z.sub_diag.
    reflexivity.
  - intros range mfrom mto aliased mem Hr.
    unfold Sparse.copy_vector, copy_vector.
    destruct (elemsize mfrom =? elemsize mto); [|left; reflexivity].
    cbn [assert bind].
    destruct (copy_loop Sparse.offset_vector (Z.to_nat (to range - from range))
                mfrom mto range aliased (layout mfrom) (layout mto) (from range) 0 mem)
      as [[cnt c]| | |] eqn:E; cbn [bind].
    + apply copy_loop_empty in E; [|lia]. subst cnt.
      cbn [fst]. unfold laik_range_size. rewrite Hr, Z.sub_diag. left. reflexivity.
    + left. reflexivity.
    + right. reflexivity.
    + exfalso. revert E. rewrite Hr, Z.sub_diag. cbn [Z.to_nat copy_loop].
      assert (Hnu : forall lv n g, Sparse.offset_vector lv n g <> Undefined).
      { intros lv n g. unfold Sparse.offset_vector.
        destruct (n =? 0); [|discriminate]. cbn [assert bind].
        destruct (Sparse.globalToLocalMap lv) as [m|]; [|discriminate].
        destruct (Sparse.scan_intervals (Sparse.intervals m) g 0) as [lo [|]].
        - destruct ((0 <=? lo) && (lo <? Sparse.localLength lv)); discriminate.
        - destruct ((Sparse.numberOfExternalValues lv =? 0) && negb false); discriminate. }
      destruct (Sparse.offset_vector (layout mfrom) (layoutSection mfrom) (to range))
        as [[o1 l1]| | |] eqn:E1; cbn [bind]; try discriminate.
      * destruct (Sparse.offset_vector (if aliased then l1 else layout mto)
                    (layoutSection mto) (to range)) as [[o2 l2]| | |] eqn:E2;
          cbn [bind]; try discriminate.
        -- unfold next_idx.
           replace (to range + 1 <? to range) with false
             by (symmetry; apply Z.ltb_ge; lia).
           discriminate.
        -- exfalso. exact (Hnu _ _ _ E2).
      * exfalso. exact (Hnu _ _ _ E1).
Qed.

Lemma copy_vector_empty_range_witness :
  Compact.copy_vector (mkRange 2 2) (dense_at 0) (dense_at 1000) false sample_mem
    = AssertFail /\
  (Sparse.copy_vector (mkRange 4 4) (sparse_at 0) (sparse_at 1000) false sample_mem
     = AssertFail \/
   Sparse.copy_vector (mkRange 4 4) (sparse_at 0) (sparse_at 1000) false sample_mem
     = Panic).
Proof.
  destruct copy_vector_empty_range as [Hdense Hsparse]. split.
  - apply (Hdense (mkRange 2 2) (dense_at 0) (dense_at 1000) false sample_mem).
    reflexivity.
  - apply (Hsparse (mkRange 4 4) (sparse_at 0) (sparse_at 1000) false sample_mem).
    reflexivity.
Defined.

End CopyFacts.

(** ** Pack and unpack in chunks *)

Module ChunkFacts.

Import VectorPack PackFacts.

Lemma zrange_app n1 : forall idx n2,
  zrange idx (n1 + n2) = zrange idx n1 ++ zrange (idx + Z.of_nat n1) n2.
Proof.
  induction n1 as [|n1 IH]; intros idx n2.
  - cbn [Nat.add zrange app Z.of_nat]. rewrite Z.add_0_r. reflexivity.
  - cbn [Nat.add zrange app]. rewrite IH. do 3 f_equal. lia.
Qed.

Lemma zrange_length n : forall idx, length (zrange idx n) = n.
Proof.
  induction n as [|n IH]; intros idx; cbn [zrange length]; [reflexivity|].
  rewrite IH. reflexivity.
Qed.

Lemma zrange_nth n : forall idx k,
  (k < n)%nat -> nth_error (zrange idx n) k = Some (idx + Z.of_nat k).
Proof.
  induction n as [|n IH]; intros idx k Hk; [lia|].
  destruct k as [|k]; cbn [zrange nth_error].
  - cbn [Z.of_nat]. rewrite Z.add_0_r. reflexivity.
  - rewrite IH by lia. f_equal. lia.
Qed.

Lemma pack_mem_app src es os1 : forall os2 buf mem,
  pack_mem src es (os1 ++ os2) buf mem =
    pack_mem src es os2 (buf + Z.of_nat (length os1) * es)
      (pack_mem src es os1 buf mem).
Proof.
  induction os1 as [|o os1 IH]; intros os2 buf mem.
  - cbn [app length pack_mem Z.of_nat]. rewrite Z.mul_0_l, Z.add_0_r. reflexivity.
  - cbn [app length pack_mem]. rewrite IH. f_equal. lia.
Qed.

Section Generic.

Context {L : Type}.
Variable offset : L -> Z -> Z -> outcome (Z * L).

(** The loop of [pack_vector] with room in the buffer for [c] elements,
    fewer than the range has left: it returns after [c] elements with the
    index moved on by [c]. *)
Lemma pack_loop_partial (m : Laik_Mapping L) (range : Laik_Range) (c : nat) :
  forall fuel l idx buf size cnt mem os l',
    Z.of_nat c < to range - idx ->
    (c <= fuel)%nat ->
    offsets offset c l (layoutSection m) idx = Ret (os, l') ->
    0 < elemsize m ->
    Z.of_nat c * elemsize m <= size < (Z.of_nat c + 1) * elemsize m ->
    0 <= cnt -> cnt + Z.of_nat c < 2 ^ 32 ->
    pack_loop offset fuel m range l idx buf size cnt mem =
      Ret (@mkPacked L (cnt + Z.of_nat c) (idx + Z.of_nat c) l'
             (pack_mem (start m) (elemsize m) os buf mem)).
Proof.
  induction c as [|c IH];
    intros fuel l idx buf size cnt mem os l' Hto Hfuel Hoff Hes Hsize Hcnt Hmax.
  - injection Hoff as <- <-.
    assert (Hs : (size <? elemsize m) = true) by (apply Z.ltb_lt; lia).
    destruct fuel; cbn [pack_loop]; rewrite Hs; cbn [pack_mem Z.of_nat];
      rewrite !Z.add_0_r; reflexivity.
  - destruct (offsets_succ _ _ _ _ _ _ _ Hoff) as (o & l1 & os' & H1 & H2 & ->).
    destruct fuel as [|fuel]; [lia|].
    assert (Hs : (size <? elemsize m) = false) by (apply Z.ltb_ge; nia).
    assert (Hn : (idx + 1 <? to range) = true) by (apply Z.ltb_lt; lia).
    cbn [pack_loop]. rewrite Hs, H1. cbn [bind]. unfold next_idx. rewrite Hn.
    rewrite CInt.uint32_id by (unfold CInt.is_uint32; lia).
    rewrite (IH fuel l1 (idx + 1) (buf + elemsize m) (size - elemsize m)
               (cnt + 1) _ os' l'); try lia; auto.
    cbn [pack_mem]. do 2 f_equal; lia.
Qed.

Lemma unpack_loop_partial (m : Laik_Mapping L) (range : Laik_Range) (c : nat) :
  forall fuel l idx buf size cnt mem os l',
    Z.of_nat c < to range - idx ->
    (c <= fuel)%nat ->
    offsets offset c l (layoutSection m) idx = Ret (os, l') ->
    0 < elemsize m ->
    Z.of_nat c * elemsize m <= size < (Z.of_nat c + 1) * elemsize m ->
    0 <= cnt -> cnt + Z.of_nat c < 2 ^ 32 ->
    unpack_loop offset fuel m range l idx buf size cnt mem =
      Ret (@mkPacked L (cnt + Z.of_nat c) (idx + Z.of_nat c) l'
             (unpack_mem (start m) (elemsize m) os buf mem)).
Proof.
  induction c as [|c IH];
    intros fuel l idx buf size cnt mem os l' Hto Hfuel Hoff Hes Hsize Hcnt Hmax.
  - injection Hoff as <- <-.
    assert (Hs : (size <? elemsize m) = true) by (apply Z.ltb_lt; lia).
    destruct fuel; cbn [unpack_loop]; rewrite Hs; cbn [unpack_mem Z.of_nat];
      rewrite !Z.add_0_r; reflexivity.
  - destruct (offsets_succ _ _ _ _ _ _ _ Hoff) as (o & l1 & os' & H1 & H2 & ->).
    destruct fuel as [|fuel]; [lia|].
    assert (Hs : (size <? elemsize m) = false) by (apply Z.ltb_ge; nia).
    assert (Hn : (idx + 1 <? to range) = true) by (apply Z.ltb_lt; lia).
    cbn [unpack_loop]. rewrite Hs, H1. cbn [bind]. unfold next_idx. rewrite Hn.
    rewrite CInt.uint32_id by (unfold CInt.is_uint32; lia).
    rewrite (IH fuel l1 (idx + 1) (buf + elemsize m) (size - elemsize m)
               (cnt + 1) _ os' l'); try lia; auto.
    cbn [unpack_mem]. do 2 f_equal; lia.
Qed.

(** The number of elements a call moves: what the range has left from
    [idx], or what the buffer holds, whichever is less. *)
Definition moved (m : Laik_Mapping L) (range : Laik_Range) (idx size : Z) : Z :=
  Z.min (to range - idx) (size / elemsize m).

(** [pack_vector] from [idx] for a layout whose offset for the indices left
    is the function [f] of the index and leaves the layout as it is. *)
Lemma pack_vector_pure (m : Laik_Mapping L) (range : Laik_Range) (f : Z -> Z)
    (idx buf size : Z) (mem : memory) :
  idx <= to range ->
  laik_range_within_range range (requiredRange m) = true ->
  0 < elemsize m ->
  0 <= size < 2 ^ 32 ->
  (forall g, idx <= g < to range ->
     offset (layout m) (layoutSection m) g = Ret (f g, layout m)) ->
  let c := moved m range idx size in
  pack_vector offset m range idx buf size mem =
    Ret (@mkPacked L c (idx + c) (layout m)
           (pack_mem (start m) (elemsize m) (map f (zrange idx (Z.to_nat c))) buf mem)).
Proof.
  intros Hidx Hw Hes Hsize Hf c. unfold pack_vector.
  pose proof (Z.div_pos size (elemsize m) ltac:(lia) Hes) as Hq0.
  pose proof (Z.mul_div_le size (elemsize m) Hes) as Hq1.
  pose proof (Z.mul_succ_div_gt size (elemsize m) Hes) as Hq2.
  assert (Hq3 : size / elemsize m <= size) by nia.
  destruct (idx =? to range) eqn:E.
  - apply Z.eqb_eq in E. subst c. unfold moved.
    rewrite E, Z.sub_diag. rewrite Z.min_l by lia.
    cbn [Z.to_nat zrange map pack_mem]. rewrite Z.add_0_r. reflexivity.
  - apply Z.eqb_neq in E. rewrite Hw. cbn [assert bind].
    destruct (Z_le_gt_dec (to range - idx) (size / elemsize m)) as [Hall|Hpart].
    + assert (Hc : c = to range - idx) by (subst c; unfold moved; lia).
      set (k := Z.to_nat (to range - idx - 1)).
      assert (Hk : to range - idx = Z.of_nat (S k)) by (subst k; lia).
      rewrite (pack_loop_run offset m range k (Z.to_nat (to range - idx))
                 (layout m) idx buf size 0 mem
                 (map f (zrange idx (S k))) (layout m)); try lia.
      * rewrite Hc, Hk. rewrite Nat2Z.id. do 2 f_equal. lia.
      * apply offsets_pure. intros g Hg. apply Hf. lia.
      * nia.
    + assert (Hc : c = size / elemsize m) by (subst c; unfold moved; lia).
      rewrite (pack_loop_partial m range (Z.to_nat c) (Z.to_nat (to range - idx))
                 (layout m) idx buf size 0 mem
                 (map f (zrange idx (Z.to_nat c))) (layout m)); try lia.
      * rewrite Z2Nat.id by lia. reflexivity.
      * apply offsets_pure. intros g Hg. apply Hf. lia.
Qed.

(** [unpack_vector] likewise. *)
Lemma unpack_vector_pure (m : Laik_Mapping L) (range : Laik_Range) (f : Z -> Z)
    (idx buf size : Z) (mem : memory) :
  idx < to range ->
  laik_range_within_range range (requiredRange m) = true ->
  0 < elemsize m ->
  0 < size < 2 ^ 32 ->
  (forall g, idx <= g < to range ->
     offset (layout m) (layoutSection m) g = Ret (f g, layout m)) ->
  let c := moved m range idx size in
  unpack_vector offset m range idx buf size mem =
    Ret (@mkPacked L c (idx + c) (layout m)
           (unpack_mem (start m) (elemsize m) (map f (zrange idx (Z.to_nat c))) buf mem)).
Proof.
  intros Hidx Hw Hes Hsize Hf c. unfold unpack_vector.
  pose proof (Z.div_pos size (elemsize m) ltac:(lia) Hes) as Hq0.
  pose proof (Z.mul_div_le size (elemsize m) Hes) as Hq1.
  pose proof (Z.mul_succ_div_gt size (elemsize m) Hes) as Hq2.
  assert (Hq3 : size / elemsize m <= size) by nia.
  replace (0 <? size) with true by (symmetry; apply Z.ltb_lt; lia).
  replace (idx =? to range) with false by (symmetry; apply Z.eqb_neq; lia).
  rewrite Hw. cbn [negb assert bind].
  destruct (Z_le_gt_dec (to range - idx) (size / elemsize m)) as [Hall|Hpart].
  - assert (Hc : c = to range - idx) by (subst c; unfold moved; lia).
    set (k := Z.to_nat (to range - idx - 1)).
    assert (Hk : to range - idx = Z.of_nat (S k)) by (subst k; lia).
    rewrite (unpack_loop_run offset m range k (Z.to_nat (to range - idx))
               (layout m) idx buf size 0 mem
               (map f (zrange idx (S k))) (layout m)); try lia.
    + rewrite Hc, Hk. rewrite Nat2Z.id. do 2 f_equal. lia.
    + apply offsets_pure. intros g Hg. apply Hf. lia.
    + nia.
  - assert (Hc : c = size / elemsize m) by (subst c; unfold moved; lia).
    rewrite (unpack_loop_partial m range (Z.to_nat c) (Z.to_nat (to range - idx))
               (layout m) idx buf size 0 mem
               (map f (zrange idx (Z.to_nat c))) (layout m)); try lia.
    + rewrite Z2Nat.id by lia. reflexivity.
    + apply offsets_pure. intros g Hg. apply Hf. lia.
Qed.

End Generic.

Import CopyFacts.

(** Both walks are copies between the mapping and the buffer, chunk
    [g - idx] of the buffer going with index [g]. *)
Lemma pack_mem_as_copy src es (f : Z -> Z) buf idx n : forall i mem,
  pack_mem src es (map f (zrange i n)) (buf + (i - idx) * es) mem =
    copy_mem src buf es f (fun g => g - idx) (zrange i n) mem.
Proof.
  induction n as [|n IH]; intros i mem; cbn [zrange map pack_mem copy_mem].
  - reflexivity.
  - rewrite <- IH. f_equal. lia.
Qed.

Lemma unpack_mem_as_copy dst es (f : Z -> Z) buf idx n : forall i mem,
  unpack_mem dst es (map f (zrange i n)) (buf + (i - idx) * es) mem =
    copy_mem buf dst es (fun g => g - idx) f (zrange i n) mem.
Proof.
  induction n as [|n IH]; intros i mem; cbn [zrange map unpack_mem copy_mem].
  - reflexivity.
  - rewrite <- IH. f_equal. lia.
Qed.

Section PureLayout.

Context {L : Type}.
Variable offset : L -> Z -> Z -> outcome (Z * L).

Variable m : Laik_Mapping L.
Variable range : Laik_Range.
Variable f : Z -> Z.
Variable slots : Z.

Hypothesis Hwithin : laik_range_within_range range (requiredRange m) = true.
Hypothesis Hes : 0 < elemsize m.

(** [pack_vector] with a buffer for fewer elements than are left, or for
    all of them. *)
Lemma pack_vector_chunk_pure (idx buf size : Z) (mem : memory) :
  idx <= to range ->
  0 <= size < 2 ^ 32 ->
  (forall g, idx <= g < to range ->
     offset (layout m) (layoutSection m) g = Ret (f g, layout m) /\
     0 <= f g < slots) ->
  apart buf size (start m) (slots * elemsize m) ->
  let c := moved m range idx size in
  exists mem',
    pack_vector offset m range idx buf size mem
      = Ret (@mkPacked L c (idx + c) (layout m) mem') /\
    0 <= c /\ c * elemsize m <= size /\
    (forall k b, 0 <= k < c -> 0 <= b < elemsize m ->
       mem' (buf + k * elemsize m + b) = mem (start m + f (idx + k) * elemsize m + b)) /\
    (forall a, ~ buf <= a < buf + c * elemsize m -> mem' a = mem a).
Proof.
  intros Hidx Hsize Hf Hap c.
  pose proof (Z.div_pos size (elemsize m) ltac:(lia) Hes) as Hq0.
  pose proof (Z.mul_div_le size (elemsize m) Hes) as Hq1.
  assert (Hc : 0 <= c <= to range - idx /\ c * elemsize m <= size).
  { subst c. unfold moved. split; [lia|]. nia. }
  eexists. split.
  - apply (pack_vector_pure offset m range f); auto.
    intros g Hg. apply Hf. exact Hg.
  - fold c. split; [lia|]. split; [lia|].
    pose proof (pack_mem_as_copy (start m) (elemsize m) f buf idx (Z.to_nat c) idx mem)
      as Heq.
    rewrite Z.sub_diag, Z.mul_0_l, Z.add_0_r in Heq. rewrite Heq.
    split.
    + intros k b Hk Hb.
      replace (buf + k * elemsize m + b)
        with (buf + (fun g => g - idx) (idx + k) * elemsize m + b)
        by (cbv beta; f_equal; f_equal; f_equal; lia).
      apply (copy_mem_slots (start m) buf (elemsize m) slots c f (fun g => g - idx));
        auto.
      * intros g Hg. apply In_zrange in Hg. split; [apply Hf|]; lia.
      * intros g g' _ _ Hgg. lia.
      * unfold apart in *. nia.
      * apply In_zrange. lia.
    + intros a Ha. apply copy_mem_frame.
      intros g Hg. apply In_zrange in Hg. nia.
Qed.

(** [unpack_vector] likewise; different indices have different slots. *)
Lemma unpack_vector_chunk_pure (idx buf size : Z) (mem : memory) :
  idx < to range ->
  0 < size < 2 ^ 32 ->
  (forall g, idx <= g < to range ->
     offset (layout m) (layoutSection m) g = Ret (f g, layout m) /\
     0 <= f g < slots) ->
  (forall g g', idx <= g < to range -> idx <= g' < to range -> f g = f g' -> g = g') ->
  apart buf size (start m) (slots * elemsize m) ->
  let c := moved m range idx size in
  exists mem',
    unpack_vector offset m range idx buf size mem
      = Ret (@mkPacked L c (idx + c) (layout m) mem') /\
    0 <= c /\ c * elemsize m <= size /\
    (forall k b, 0 <= k < c -> 0 <= b < elemsize m ->
       mem' (start m + f (idx + k) * elemsize m + b) = mem (buf + k * elemsize m + b)) /\
    (forall a, (forall k, 0 <= k < c ->
                  ~ start m + f (idx + k) * elemsize m <= a
                    < start m + f (idx + k) * elemsize m + elemsize m) ->
       mem' a = mem a).
Proof.
  intros Hidx Hsize Hf Hinj Hap c.
  pose proof (Z.div_pos size (elemsize m) ltac:(lia) Hes) as Hq0.
  pose proof (Z.mul_div_le size (elemsize m) Hes) as Hq1.
  assert (Hc : 0 <= c <= to range - idx /\ c * elemsize m <= size).
  { subst c. unfold moved. split; [lia|]. nia. }
  eexists. split.
  - apply (unpack_vector_pure offset m range f); auto.
    intros g Hg. apply Hf. exact Hg.
  - fold c. split; [lia|]. split; [lia|].
    pose proof (unpack_mem_as_copy (start m) (elemsize m) f buf idx (Z.to_nat c) idx mem)
      as Heq.
    rewrite Z.sub_diag, Z.mul_0_l, Z.add_0_r in Heq. rewrite Heq.
    split.
    + intros k b Hk Hb.
      replace (buf + k * elemsize m + b)
        with (buf + (fun g => g - idx) (idx + k) * elemsize m + b)
        by (cbv beta; f_equal; f_equal; f_equal; lia).
      apply (copy_mem_slots buf (start m) (elemsize m) c slots (fun g => g - idx) f);
        auto.
      * intros g Hg. apply In_zrange in Hg. split; [|apply Hf]; lia.
      * intros g g' Hg Hg'. apply In_zrange in Hg. apply In_zrange in Hg'.
        apply Hinj; lia.
      * unfold apart in *. nia.
      * apply In_zrange. lia.
    + intros a Ha. apply copy_mem_frame.
      intros g Hg. apply In_zrange in Hg.
      replace g with (idx + (g - idx)) by lia. apply Ha. lia.
Qed.

(** Packing in two calls, the second going on where the first stopped, is
    packing in one call into the two buffers laid end to end. *)
Lemma pack_vector_resumes_pure (idx buf c1 size2 : Z) (mem : memory) :
  idx <= to range ->
  0 <= c1 <= to range - idx ->
  0 <= size2 ->
  c1 * elemsize m + size2 < 2 ^ 32 ->
  (forall g, idx <= g < to range ->
     offset (layout m) (layoutSection m) g = Ret (f g, layout m)) ->
  let c2 := moved m range (idx + c1) size2 in
  exists mem1 mem2,
    pack_vector offset m range idx buf (c1 * elemsize m) mem
      = Ret (@mkPacked L c1 (idx + c1) (layout m) mem1) /\
    pack_vector offset m range (idx + c1) (buf + c1 * elemsize m) size2 mem1
      = Ret (@mkPacked L c2 (idx + c1 + c2) (layout m) mem2) /\
    pack_vector offset m range idx buf (c1 * elemsize m + size2) mem
      = Ret (@mkPacked L (c1 + c2) (idx + c1 + c2) (layout m) mem2).
Proof.
  intros Hidx Hc1 Hs2 Hmax Hf c2.
  pose proof (Z.div_pos size2 (elemsize m) ltac:(lia) Hes) as Hq0.
  assert (Hm1 : moved m range idx (c1 * elemsize m) = c1).
  { unfold moved. rewrite Z.div_mul by lia. lia. }
  assert (Hm3 : moved m range idx (c1 * elemsize m + size2) = c1 + c2).
  { subst c2. unfold moved. rewrite Z.add_comm, Z.div_add by lia. lia. }
  assert (Hc2 : 0 <= c2) by (subst c2; unfold moved; lia).
  eexists _, _. split; [|split].
  - rewrite (pack_vector_pure offset m range f idx buf (c1 * elemsize m) mem
               Hidx Hwithin Hes ltac:(nia) Hf).
    rewrite Hm1. reflexivity.
  - rewrite (pack_vector_pure offset m range f (idx + c1) (buf + c1 * elemsize m)
               size2 _ ltac:(lia) Hwithin Hes ltac:(nia)
               ltac:(intros g Hg; apply Hf; lia)).
    fold c2. reflexivity.
  - rewrite (pack_vector_pure offset m range f idx buf (c1 * elemsize m + size2) mem
               Hidx Hwithin Hes ltac:(nia) Hf).
    rewrite Hm3. rewrite Z.add_assoc. do 2 f_equal.
    rewrite Z2Nat.inj_add by lia. rewrite zrange_app, map_app, pack_mem_app.
    rewrite length_map, zrange_length. rewrite !Z2Nat.id by lia. reflexivity.
Qed.

End PureLayout.

Import SparseFacts.

Lemma dense_offset_pure (m : Laik_Mapping Compact.Laik_Layout_Vector) (lo hi slots : Z) :
  0 <= lo -> hi <= slots ->
  forall g, lo <= g < hi ->
    Compact.offset_entry (layout m) (layoutSection m) g = Ret ((fun x => x) g, layout m) /\
    0 <= (fun x => x) g < slots.
Proof.
  intros Hlo Hhi g Hg. split; [|cbv beta; lia].
  unfold Compact.offset_entry, Compact.offset_vector.
  replace (0 <=? g) with true by (symmetry; apply Z.leb_le; lia). reflexivity.
Qed.

Lemma sparse_offset_pure (m : Laik_Mapping Sparse.Laik_Layout_Vector)
    (mp : Sparse.Laik_Map_Vector) (lo hi : Z) :
  local_state (layout m) mp ->
  layoutSection m = 0 ->
  (forall g, lo <= g < hi -> owned mp g) ->
  forall g, lo <= g < hi ->
    Sparse.offset_vector (layout m) (layoutSection m) g = Ret (slot_of mp g, layout m) /\
    0 <= slot_of mp g < Sparse.localLength (layout m).
Proof.
  intros Hls Hsec Hown g Hg. rewrite Hsec.
  apply sparse_offset_owned; [exact Hls | apply Hown; exact Hg].
Qed.

(** X8: [pack_vector] from [idx] moves [min (to - idx, size / elemsize)]
    elements, returns that count and leaves the index that many further on
    (at [to] when the range is done; a buffer shorter than one element
    moves nothing).  Chunk [k] of the buffer then holds the element of
    index [idx + k], and nothing but these chunks is written.  Dense
    layout: any index from 0 on; sparse layout: owned indices. *)
Theorem pack_vector_chunk :
  (forall (m : Laik_Mapping Compact.Laik_Layout_Vector) (range : Laik_Range)
          (idx buf size slots : Z) (mem : memory),
      let es := elemsize m in
      let c := Z.min (to range - idx) (size / es) in
      0 <= idx <= to range ->
      to range <= slots ->
      laik_range_within_range range (requiredRange m) = true ->
      0 < es ->
      0 <= size < 2 ^ 32 ->
      apart buf size (start m) (slots * es) ->
      exists mem',
        Compact.pack_vector m range idx buf size mem
          = Ret (mkPacked c (idx + c) (layout m) mem') /\
        (forall k b, 0 <= k < c -> 0 <= b < es ->
           mem' (buf + k * es + b) = mem (start m + (idx + k) * es + b)) /\
        (forall a, ~ buf <= a < buf + c * es -> mem' a = mem a)) /\
  (forall (m : Laik_Mapping Sparse.Laik_Layout_Vector) (mp : Sparse.Laik_Map_Vector)
          (range : Laik_Range) (idx buf size : Z) (mem : memory),
      let es := elemsize m in
      let c := Z.min (to range - idx) (size / es) in
      local_state (layout m) mp ->
      layoutSection m = 0 ->
      idx <= to range ->
      (forall g, idx <= g < to range -> owned mp g) ->
      laik_range_within_range range (requiredRange m) = true ->
      0 < es ->
      0 <= size < 2 ^ 32 ->
      apart buf size (start m) (Sparse.localLength (layout m) * es) ->
      exists mem',
        Sparse.pack_vector m range idx buf size mem
          = Ret (mkPacked c (idx + c) (layout m) mem') /\
        (forall k b, 0 <= k < c -> 0 <= b < es ->
           exists o,
             Sparse.offset_vector (layout m) 0 (idx + k) = Ret (o, layout m) /\
             mem' (buf + k * es + b) = mem (start m + o * es + b)) /\
        (forall a, ~ buf <= a < buf + c * es -> mem' a = mem a)).
Proof.
  split.
  - intros m range idx buf size slots mem es c Hidx Hslots Hw Hes Hsize Hap.
    destruct (pack_vector_chunk_pure Compact.offset_entry m range (fun x => x) slots
                Hw Hes idx buf size mem ltac:(lia) Hsize
                (dense_offset_pure m idx (to range) slots ltac:(lia) Hslots) Hap)
      as (mem' & Hp & _ & _ & Hc & Hfr).
    exists mem'. split; [exact Hp|]. split; [|exact Hfr].
    intros k b Hk Hb. apply Hc; assumption.
  - intros m mp range idx buf size mem es c Hls Hsec Hidx Hown Hw Hes Hsize Hap.
    destruct (pack_vector_chunk_pure Sparse.offset_vector m range (slot_of mp)
                (Sparse.localLength (layout m))
                Hw Hes idx buf size mem Hidx Hsize
                (sparse_offset_pure m mp idx (to range) Hls Hsec Hown) Hap)
      as (mem' & Hp & Hc0 & _ & Hc & Hfr).
    exists mem'. split; [exact Hp|]. split; [|exact Hfr].
    intros k b Hk Hb. exists (slot_of mp (idx + k)). split.
    + apply sparse_offset_owned; [exact Hls|]. apply Hown.
      unfold moved in *. fold es in Hk. lia.
    + apply Hc; assumption.
Qed.

Lemma pack_vector_chunk_witness :
  (exists mem',
      Compact.pack_vector (dense_at 0) (mkRange 0 4) 1 2000 20 sample_mem
        = Ret (mkPacked (Z.min (4 - 1) (20 / 8)) (1 + Z.min (4 - 1) (20 / 8))
                        (layout (dense_at 0)) mem') /\
      (forall k b, 0 <= k < Z.min (4 - 1) (20 / 8) -> 0 <= b < 8 ->
         mem' (2000 + k * 8 + b) = sample_mem (0 + (1 + k) * 8 + b)) /\
      (forall a, ~ 2000 <= a < 2000 + Z.min (4 - 1) (20 / 8) * 8 ->
         mem' a = sample_mem a)) /\
  (exists mem',
      Sparse.pack_vector (sparse_at 0) (mkRange 5 7) 5 2000 12 sample_mem
        = Ret (mkPacked (Z.min (7 - 5) (12 / 8)) (5 + Z.min (7 - 5) (12 / 8))
                        (layout (sparse_at 0)) mem') /\
      (forall k b, 0 <= k < Z.min (7 - 5) (12 / 8) -> 0 <= b < 8 ->
         exists o,
           Sparse.offset_vector (layout (sparse_at 0)) 0 (5 + k)
             = Ret (o, layout (sparse_at 0)) /\
           mem' (2000 + k * 8 + b) = sample_mem (0 + o * 8 + b)) /\
      (forall a, ~ 2000 <= a < 2000 + Z.min (7 - 5) (12 / 8) * 8 ->
         mem' a = sample_mem a)).
Proof.
  destruct pack_vector_chunk as [Hdense Hsparse]. split.
  - apply (Hdense (dense_at 0) (mkRange 0 4) 1 2000 20 4 sample_mem);
      try reflexivity; unfold apart; simpl; lia.
  - apply (Hsparse (sparse_at 0) scenario_map (mkRange 5 7) 5 2000 12 sample_mem);
      first [ reflexivity | simpl; lia | unfold apart; simpl; lia
            | apply scenario_local_state | idtac ].
    intros g Hg. simpl in Hg. exists (Sparse.mkInterval 5 7).
    split; [simpl; auto|]. unfold inside. simpl. lia.
Defined.

(** X9: [unpack_vector] from [idx], with something in the buffer and
    something left of the range, moves [min (to - idx, size / elemsize)]
    elements, returns that count and leaves the index that many further
    on.  The element of index [idx + k] is then what chunk [k] of the
    buffer holds.  Nothing is written outside the slots of these indices
    (dense layout), outside the local block of the mapping (sparse
    layout).  Dense layout: any index from 0 on; sparse layout: owned
    indices. *)
Theorem unpack_vector_chunk :
  (forall (m : Laik_Mapping Compact.Laik_Layout_Vector) (range : Laik_Range)
          (idx buf size slots : Z) (mem : memory),
      let es := elemsize m in
      let c := Z.min (to range - idx) (size / es) in
      0 <= idx < to range ->
      to range <= slots ->
      laik_range_within_range range (requiredRange m) = true ->
      0 < es ->
      0 < size < 2 ^ 32 ->
      apart buf size (start m) (slots * es) ->
      exists mem',
        Compact.unpack_vector m range idx buf size mem
          = Ret (mkPacked c (idx + c) (layout m) mem') /\
        (forall k b, 0 <= k < c -> 0 <= b < es ->
           mem' (start m + (idx + k) * es + b) = mem (buf + k * es + b)) /\
        (forall a, ~ start m + idx * es <= a < start m + (idx + c) * es ->
           mem' a = mem a)) /\
  (forall (m : Laik_Mapping Sparse.Laik_Layout_Vector) (mp : Sparse.Laik_Map_Vector)
          (range : Laik_Range) (idx buf size : Z) (mem : memory),
      let es := elemsize m in
      let c := Z.min (to range - idx) (size / es) in
      local_state (layout m) mp ->
      layoutSection m = 0 ->
      idx < to range ->
      (forall g, idx <= g < to range -> owned mp g) ->
      laik_range_within_range range (requiredRange m) = true ->
      0 < es ->
      0 < size < 2 ^ 32 ->
      apart buf size (start m) (Sparse.localLength (layout m) * es) ->
      exists mem',
        Sparse.unpack_vector m range idx buf size mem
          = Ret (mkPacked c (idx + c) (layout m) mem') /\
        (forall k b, 0 <= k < c -> 0 <= b < es ->
           exists o,
             Sparse.offset_vector (layout m) 0 (idx + k) = Ret (o, layout m) /\
             mem' (start m + o * es + b) = mem (buf + k * es + b)) /\
        (forall a, ~ start m <= a < start m + Sparse.localLength (layout m) * es ->
           mem' a = mem a)).
Proof.
  split.
  - intros m range idx buf size slots mem es c Hidx Hslots Hw Hes Hsize Hap.
    destruct (unpack_vector_chunk_pure Compact.offset_entry m range (fun x => x) slots
                Hw Hes idx buf size mem ltac:(lia) Hsize
                (dense_offset_pure m idx (to range) slots ltac:(lia) Hslots)
                ltac:(intros; assumption) Hap)
      as (mem' & Hp & Hc0 & _ & Hc & Hfr).
    exists mem'. split; [exact Hp|]. split.
    + intros k b Hk Hb. apply Hc; assumption.
    + intros a Ha. apply Hfr. intros k Hk. cbv beta.
      unfold moved in *. fold es in Hk, Hc0 |- *. fold c in Hk, Hc0. nia.
  - intros m mp range idx buf size mem es c Hls Hsec Hidx Hown Hw Hes Hsize Hap.
    assert (Hinj : forall g g', idx <= g < to range -> idx <= g' < to range ->
               slot_of mp g = slot_of mp g' -> g = g').
    { intros x y Hx Hy Heq.
      destruct (Z.lt_trichotomy x y) as [Hlt|[Heq'|Hgt]]; [|exact Heq'|].
      - pose proof (slot_of_increasing _ mp x y Hls (Hown x Hx) (Hown y Hy) Hlt). lia.
      - pose proof (slot_of_increasing _ mp y x Hls (Hown y Hy) (Hown x Hx) Hgt). lia. }
    destruct (unpack_vector_chunk_pure Sparse.offset_vector m range (slot_of mp)
                (Sparse.localLength (layout m))
                Hw Hes idx buf size mem Hidx Hsize
                (sparse_offset_pure m mp idx (to range) Hls Hsec Hown) Hinj Hap)
      as (mem' & Hp & Hc0 & _ & Hc & Hfr).
    exists mem'. split; [exact Hp|]. split.
    + intros k b Hk Hb. exists (slot_of mp (idx + k)). split.
      * apply sparse_offset_owned; [exact Hls|]. apply Hown.
        unfold moved in *. fold es in Hk. lia.
      * apply Hc; assumption.
    + intros a Ha. apply Hfr. intros k Hk.
      assert (Hg : idx <= idx + k < to range)
        by (unfold moved in *; fold es in Hk; lia).
      destruct (sparse_offset_owned _ mp (idx + k) Hls (Hown _ Hg)) as [_ Hb].
      fold es. nia.
Qed.

Lemma unpack_vector_chunk_witness :
  (exists mem',
      Compact.unpack_vector (dense_at 0) (mkRange 0 4) 1 2000 20 sample_mem
        = Ret (mkPacked (Z.min (4 - 1) (20 / 8)) (1 + Z.min (4 - 1) (20 / 8))
                        (layout (dense_at 0)) mem') /\
      (forall k b, 0 <= k < Z.min (4 - 1) (20 / 8) -> 0 <= b < 8 ->
         mem' (0 + (1 + k) * 8 + b) = sample_mem (2000 + k * 8 + b)) /\
      (forall a, ~ 0 + 1 * 8 <= a < 0 + (1 + Z.min (4 - 1) (20 / 8)) * 8 ->
         mem' a = sample_mem a)) /\
  (exists mem',
      Sparse.unpack_vector (sparse_at 0) (mkRange 5 7) 5 2000 12 sample_mem
        = Ret (mkPacked (Z.min (7 - 5) (12 / 8)) (5 + Z.min (7 - 5) (12 / 8))
                        (layout (sparse_at 0)) mem') /\
      (forall k b, 0 <= k < Z.min (7 - 5) (12 / 8) -> 0 <= b < 8 ->
         exists o,
           Sparse.offset_vector (layout (sparse_at 0)) 0 (5 + k)
             = Ret (o, layout (sparse_at 0)) /\
           mem' (0 + o * 8 + b) = sample_mem (2000 + k * 8 + b)) /\
      (forall a, ~ 0 <= a < 0 + Sparse.localLength (layout (sparse_at 0)) * 8 ->
         mem' a = sample_mem a)).
Proof.
  destruct unpack_vector_chunk as [Hdense Hsparse]. split.
  - apply (Hdense (dense_at 0) (mkRange 0 4) 1 2000 20 4 sample_mem);
      try reflexivity; unfold apart; simpl; lia.
  - apply (Hsparse (sparse_at 0) scenario_map (mkRange 5 7) 5 2000 12 sample_mem);
      first [ reflexivity | simpl; lia | unfold apart; simpl; lia
            | apply scenario_local_state | idtac ].
    intros g Hg. simpl in Hg. exists (Sparse.mkInterval 5 7).
    split; [simpl; auto|]. unfold inside. simpl. lia.
Defined.

(** X10: packing a range in two calls, the second starting at the index
    the first one left and writing behind the [c1] elements it packed,
    leaves the same memory, the same index and in total the same count as
    packing in one call into a buffer as long as the two together.  Dense
    layout: any index from 0 on; sparse layout: owned indices. *)
Theorem pack_vector_resumes :
  (forall (m : Laik_Mapping Compact.Laik_Layout_Vector) (range : Laik_Range)
          (idx buf c1 size2 : Z) (mem : memory),
      let es := elemsize m in
      let c2 := Z.min (to range - (idx + c1)) (size2 / es) in
      0 <= idx <= to range ->
      0 <= c1 <= to range - idx ->
      laik_range_within_range range (requiredRange m) = true ->
      0 < es ->
      0 <= size2 ->
      c1 * es + size2 < 2 ^ 32 ->
      exists mem1 mem2,
        Compact.pack_vector m range idx buf (c1 * es) mem
          = Ret (mkPacked c1 (idx + c1) (layout m) mem1) /\
        Compact.pack_vector m range (idx + c1) (buf + c1 * es) size2 mem1
          = Ret (mkPacked c2 (idx + c1 + c2) (layout m) mem2) /\
        Compact.pack_vector m range idx buf (c1 * es + size2) mem
          = Ret (mkPacked (c1 + c2) (idx + c1 + c2) (layout m) mem2)) /\
  (forall (m : Laik_Mapping Sparse.Laik_Layout_Vector) (mp : Sparse.Laik_Map_Vector)
          (range : Laik_Range) (idx buf c1 size2 : Z) (mem : memory),
      let es := elemsize m in
      let c2 := Z.min (to range - (idx + c1)) (size2 / es) in
      local_state (layout m) mp ->
      layoutSection m = 0 ->
      idx <= to range ->
      (forall g, idx <= g < to range -> owned mp g) ->
      0 <= c1 <= to range - idx ->
      laik_range_within_range range (requiredRange m) = true ->
      0 < es ->
      0 <= size2 ->
      c1 * es + size2 < 2 ^ 32 ->
      exists mem1 mem2,
        Sparse.pack_vector m range idx buf (c1 * es) mem
          = Ret (mkPacked c1 (idx + c1) (layout m) mem1) /\
        Sparse.pack_vector m range (idx + c1) (buf + c1 * es) size2 mem1
          = Ret (mkPacked c2 (idx + c1 + c2) (layout m) mem2) /\
        Sparse.pack_vector m range idx buf (c1 * es + size2) mem
          = Ret (mkPacked (c1 + c2) (idx + c1 + c2) (layout m) mem2)).
Proof.
  split.
  - intros m range idx buf c1 size2 mem es c2 Hidx Hc1 Hw Hes Hs2 Hmax.
    apply (pack_vector_resumes_pure Compact.offset_entry m range (fun x => x)
             Hw Hes idx buf c1 size2 mem); auto; try lia.
    intros g Hg.
    apply (dense_offset_pure m idx (to range) (to range)); lia.
  - intros m mp range idx buf c1 size2 mem es c2 Hls Hsec Hidx Hown Hc1 Hw Hes Hs2 Hmax.
    apply (pack_vector_resumes_pure Sparse.offset_vector m range (slot_of mp)
             Hw Hes idx buf c1 size2 mem); auto; try lia.
    intros g Hg.
    apply (sparse_offset_pure m mp idx (to range) Hls Hsec Hown). exact Hg.
Qed.

Lemma pack_vector_resumes_witness :
  (exists mem1 mem2,
      Compact.pack_vector (dense_at 0) (mkRange 0 4) 0 2000 (1 * 8) sample_mem
        = Ret (mkPacked 1 (0 + 1) (layout (dense_at 0)) mem1) /\
      Compact.pack_vector (dense_at 0) (mkRange 0 4) (0 + 1) (2000 + 1 * 8) 20 mem1
        = Ret (mkPacked (Z.min (4 - (0 + 1)) (20 / 8))
                        (0 + 1 + Z.min (4 - (0 + 1)) (20 / 8))
                        (layout (dense_at 0)) mem2) /\
      Compact.pack_vector (dense_at 0) (mkRange 0 4) 0 2000 (1 * 8 + 20) sample_mem
        = Ret (mkPacked (1 + Z.min (4 - (0 + 1)) (20 / 8))
                        (0 + 1 + Z.min (4 - (0 + 1)) (20 / 8))
                        (layout (dense_at 0)) mem2)) /\
  (exists mem1 mem2,
      Sparse.pack_vector (sparse_at 0) (mkRange 5 7) 5 2000 (1 * 8) sample_mem
        = Ret (mkPacked 1 (5 + 1) (layout (sparse_at 0)) mem1) /\
      Sparse.pack_vector (sparse_at 0) (mkRange 5 7) (5 + 1) (2000 + 1 * 8) 20 mem1
        = Ret (mkPacked (Z.min (7 - (5 + 1)) (20 / 8))
                        (5 + 1 + Z.min (7 - (5 + 1)) (20 / 8))
                        (layout (sparse_at 0)) mem2) /\
      Sparse.pack_vector (sparse_at 0) (mkRange 5 7) 5 2000 (1 * 8 + 20) sample_mem
        = Ret (mkPacked (1 + Z.min (7 - (5 + 1)) (20 / 8))
                        (5 + 1 + Z.min (7 - (5 + 1)) (20 / 8))
                        (layout (sparse_at 0)) mem2)).
Proof.
  destruct pack_vector_resumes as [Hdense Hsparse]. split.
  - apply (Hdense (dense_at 0) (mkRange 0 4) 0 2000 1 20 sample_mem);
      try reflexivity; simpl; lia.
  - apply (Hsparse (sparse_at 0) scenario_map (mkRange 5 7) 5 2000 1 20 sample_mem);
      first [ reflexivity | simpl; lia | unfold apart; simpl; lia
            | apply scenario_local_state | idtac ].
    intros g Hg. simpl in Hg. exists (Sparse.mkInterval 5 7).
    split; [simpl; auto|]. unfold inside. simpl. lia.
Defined.

End ChunkFacts.

(** ** The simple partitioners *)

Module SimplePartitionerFacts.

Import Partitioner.

Lemma get_set_i idx d v : get_i (set_i idx d v) d = v.
Proof.
  unfold get_i, set_i. destruct (d =? 0); [reflexivity|].
  destruct (d =? 1); reflexivity.
Qed.

Lemma set_set_i idx d a b : set_i (set_i idx d a) d b = set_i idx d b.
Proof.
  unfold set_i. destruct (d =? 0); [reflexivity|].
  destruct (d =? 1); reflexivity.
Qed.

Lemma set_get_i idx d : set_i idx d (get_i idx d) = idx.
Proof.
  unfold get_i, set_i. destruct idx as [a b c]. cbn [i0 i1 i2].
  destruct (d =? 0); [reflexivity|]. destruct (d =? 1); reflexivity.
Qed.

Lemma laik_set_index_eta idx : laik_set_index (i0 idx) (i1 idx) (i2 idx) = idx.
Proof. destruct idx. reflexivity. Qed.

(** The slice that is the whole space, and the slice [a, b) in dimension
    [d] that spans the space in the other dimensions. *)
Definition full_slice (sp : Laik_Space) : Laik_Slice :=
  mkSlice (laik_set_index 0 0 0) (ssize sp).

Definition strip (sp : Laik_Space) (d a b : Z) : Laik_Slice :=
  mkSlice (set_i (laik_set_index 0 0 0) d a) (set_i (ssize sp) d b).

(** An index of the space, and an index inside a slice. *)
Definition in_space (sp : Laik_Space) (idx : Laik_Index) : Prop :=
  0 <= i0 idx < i0 (ssize sp) /\
  0 <= i1 idx < i1 (ssize sp) /\
  0 <= i2 idx < i2 (ssize sp).

Definition in_slice (slc : Laik_Slice) (idx : Laik_Index) : Prop :=
  i0 (sfrom slc) <= i0 idx < i0 (sto slc) /\
  i1 (sfrom slc) <= i1 idx < i1 (sto slc) /\
  i2 (sfrom slc) <= i2 idx < i2 (sto slc).

Lemma all_loop_spec n : forall t ba,
  all_loop n t ba =
    mkBorderArray (group_size ba) (space ba)
      (tslice ba ++ map (fun j => mkTaskSlice (t + Z.of_nat j) (full_slice (space ba)))
                        (seq 0 n)).
Proof.
  induction n as [|n IH]; intros t ba.
  - cbn [all_loop seq map]. rewrite app_nil_r. destruct ba. reflexivity.
  - cbn [all_loop]. rewrite IH. unfold laik_append_slice.
    cbn [group_size space tslice]. f_equal.
    rewrite <- app_assoc. f_equal. cbn [seq map app].
    rewrite laik_set_index_eta. unfold full_slice. f_equal.
    + do 2 f_equal. lia.
    + rewrite <- seq_shift, map_map. apply map_ext. intros j. f_equal. lia.
Qed.

(** X11: [runAllPartitioner] appends one slice per task of the group, for
    the tasks 0, 1, ... in this order, each slice the whole space; so every
    task holds every index of the space, and (into an empty border array)
    no slice holds anything else.  For a group of one task the result is
    that of [runMasterPartitioner], which appends the whole space for
    task 0 only. *)
Theorem runAllPartitioner_whole_space (ba : Laik_BorderArray) :
  tslice (runAllPartitioner ba) =
    tslice ba ++ map (fun j => mkTaskSlice (Z.of_nat j) (full_slice (space ba)))
                     (seq 0 (Z.to_nat (group_size ba))) /\
  (forall t idx, 0 <= t < group_size ba -> in_space (space ba) idx ->
     exists ts, In ts (tslice (runAllPartitioner ba)) /\
                task ts = t /\ in_slice (s ts) idx) /\
  (tslice ba = [] ->
   forall ts, In ts (tslice (runAllPartitioner ba)) ->
     0 <= task ts < group_size ba /\
     forall idx, in_slice (s ts) idx <-> in_space (space ba) idx) /\
  tslice (runMasterPartitioner ba) = tslice ba ++ [mkTaskSlice 0 (full_slice (space ba))] /\
  (group_size ba = 1 -> runAllPartitioner ba = runMasterPartitioner ba).
Proof.
  unfold runAllPartitioner. rewrite all_loop_spec. cbn [tslice Z.add].
  split; [reflexivity|]. split; [|split; [|split]].
  - intros t idx Ht Hidx.
    exists (mkTaskSlice t (full_slice (space ba))). split; [|split].
    + apply in_or_app. right. apply in_map_iff. exists (Z.to_nat t).
      split; [f_equal; lia|]. apply in_seq. lia.
    + reflexivity.
    + exact Hidx.
  - intros Hempty ts Hts. rewrite Hempty in Hts. cbn [app] in Hts.
    apply in_map_iff in Hts. destruct Hts as (j & <- & Hj). apply in_seq in Hj.
    cbn [task s]. split; [lia|]. intros idx. reflexivity.
  - unfold runMasterPartitioner, laik_append_slice. cbn [tslice].
    rewrite laik_set_index_eta. reflexivity.
  - intros H1. rewrite H1. cbn [Z.to_nat Pos.to_nat Pos.iter_op Nat.add seq map Z.of_nat].
    unfold runMasterPartitioner, laik_append_slice.
    rewrite laik_set_index_eta. rewrite H1. reflexivity.
Qed.

(** The slices [runCopyPartitioner] appends for the base borders [bts]. *)
Definition copied_slices (sp : Laik_Space) (fromDim toDim : Z)
    (bts : list Laik_TaskSlice) : list Laik_TaskSlice :=
  map (fun ts => mkTaskSlice (task ts)
                   (strip sp toDim (get_i (sfrom (s ts)) fromDim)
                                   (get_i (sto (s ts)) fromDim)))
      bts.

Lemma copy_fold (fromDim toDim : Z) (bts : list Laik_TaskSlice) : forall ba,
  fold_left
    (fun ba ts =>
       let sp := space ba in
       let slc :=
         mkSlice (laik_set_index 0 0 0)
                 (laik_set_index (i0 (ssize sp)) (i1 (ssize sp)) (i2 (ssize sp))) in
       let slc :=
         mkSlice (set_i (sfrom slc) toDim (get_i (sfrom (s ts)) fromDim)) (sto slc) in
       let slc :=
         mkSlice (sfrom slc) (set_i (sto slc) toDim (get_i (sto (s ts)) fromDim)) in
       laik_append_slice ba (task ts) slc)
    bts ba =
  mkBorderArray (group_size ba) (space ba)
    (tslice ba ++ copied_slices (space ba) fromDim toDim bts).
Proof.
  induction bts as [|ts bts IH]; intros ba.
  - cbn [fold_left copied_slices map]. rewrite app_nil_r. destruct ba. reflexivity.
  - cbn [fold_left]. rewrite IH. cbv zeta. unfold laik_append_slice.
    cbn [group_size space tslice sfrom sto]. rewrite laik_set_index_eta.
    rewrite <- app_assoc. reflexivity.
Qed.

Lemma copied_strips (sp : Laik_Space) (d : Z) (bts : list Laik_TaskSlice) :
  Forall (fun ts => exists a b, s ts = strip sp d a b) bts ->
  copied_slices sp d d bts = bts.
Proof.
  induction bts as [|ts bts IH]; intros H; [reflexivity|].
  inversion H as [|? ? (a & b & Hs) H']; subst.
  cbn [copied_slices map]. fold (copied_slices sp d d bts). rewrite IH by assumption.
  f_equal. rewrite Hs. unfold strip. cbn [sfrom sto].
  rewrite !get_set_i. destruct ts as [t sl]. cbn [s task] in *. rewrite Hs.
  reflexivity.
Qed.

(** A border array of a group of one task, and one of a group of three. *)
Definition sample_single : Laik_BorderArray :=
  mkBorderArray 1 (mkSpace 2 (mkIndex 6 10 1)) [].

Definition sample_three : Laik_BorderArray :=
  mkBorderArray 3 (mkSpace 2 (mkIndex 6 10 1)) [].

Lemma runAllPartitioner_whole_space_witness :
  (group_size sample_single = 1 /\
   runAllPartitioner sample_single = runMasterPartitioner sample_single) /\
  (tslice sample_three = [] /\
   In (mkTaskSlice 2 (full_slice (space sample_three)))
      (tslice (runAllPartitioner sample_three)) /\
   0 <= 2 < group_size sample_three).
Proof.
  split.
  - split; [reflexivity|].
    apply (proj2 (proj2 (proj2 (proj2 (runAllPartitioner_whole_space sample_single))))).
    reflexivity.
  - split; [reflexivity|].
    assert (Hin : In (mkTaskSlice 2 (full_slice (space sample_three)))
                     (tslice (runAllPartitioner sample_three))).
    { rewrite (proj1 (runAllPartitioner_whole_space sample_three)).
      cbn. right. right. left. reflexivity. }
    split; [exact Hin|].
    exact (proj1 (proj1 (proj2 (proj2 (runAllPartitioner_whole_space sample_three)))
                   eq_refl _ Hin)).
Defined.

(** X12: [runCopyPartitioner] needs a base partitioning with valid
    borders on the same group, and dimensions inside the two spaces; any
    of these missing ends in a failed assertion.  It then appends, for
    every slice of the base borders in their order and for the same task,
    the slice whose extent in dimension [toDim] is the base slice's extent
    in dimension [fromDim] and which spans the space in the other
    dimensions.  Copying a dimension to itself from base slices of that
    shape gives the base slices back. *)
Theorem runCopyPartitioner_copies_borders
    (b : Laik_Partitioning) (bb : Laik_BorderArray) (fd td : Z)
    (ba : Laik_BorderArray) (ba_group : Z) :
  let data := Some (mkCopyData (Some b) fd td) in
  borders b = Some bb ->
  (bordersValid b = true /\ pgroup b = ba_group /\
   0 <= fd < sdims (pspace b) /\ 0 <= td < sdims (space ba) ->
   runCopyPartitioner data ba ba_group =
     Ret (mkBorderArray (group_size ba) (space ba)
            (tslice ba ++ copied_slices (space ba) fd td (tslice bb))) /\
   (fd = td ->
    Forall (fun ts => exists a c, s ts = strip (space ba) td a c) (tslice bb) ->
    runCopyPartitioner data ba ba_group =
      Ret (mkBorderArray (group_size ba) (space ba) (tslice ba ++ tslice bb)))) /\
  (bordersValid b = false \/ pgroup b <> ba_group \/
   ~ 0 <= fd < sdims (pspace b) \/ ~ 0 <= td < sdims (space ba) ->
   runCopyPartitioner data ba ba_group = AssertFail) /\
  runCopyPartitioner None ba ba_group = AssertFail /\
  runCopyPartitioner (Some (mkCopyData None fd td)) ba ba_group = AssertFail.
Proof.
  intros data Hbb. split; [|split; [|split; reflexivity]].
  - intros (Hv & Hg & Hfd & Htd).
    assert (Hrun : runCopyPartitioner data ba ba_group =
              Ret (mkBorderArray (group_size ba) (space ba)
                     (tslice ba ++ copied_slices (space ba) fd td (tslice bb)))).
    { unfold runCopyPartitioner, data. cbn [base fromDim toDim].
      rewrite Hv, Hg, Z.eqb_refl.
      replace ((0 <=? fd) && (fd <? sdims (pspace b))) with true
        by (symmetry; apply andb_true_iff; split; [apply Z.leb_le | apply Z.ltb_lt]; lia).
      replace ((0 <=? td) && (td <? sdims (space ba))) with true
        by (symmetry; apply andb_true_iff; split; [apply Z.leb_le | apply Z.ltb_lt]; lia).
      cbn [assert bind]. rewrite Hbb. rewrite copy_fold. reflexivity. }
    split; [exact Hrun|].
    intros -> Hshape. rewrite Hrun. rewrite copied_strips by assumption. reflexivity.
  - intros H. unfold runCopyPartitioner, data. cbn [base fromDim toDim].
    destruct (bordersValid b) eqn:Ev; [|reflexivity]. cbn [assert bind].
    destruct (pgroup b =? ba_group) eqn:Eg; [|reflexivity]. cbn [assert bind].
    apply Z.eqb_eq in Eg.
    destruct ((0 <=? fd) && (fd <? sdims (pspace b))) eqn:Ef; [|reflexivity].
    cbn [assert bind].
    destruct ((0 <=? td) && (td <? sdims (space ba))) eqn:Et; [|reflexivity].
    exfalso.
    apply andb_true_iff in Ef. destruct Ef as [Ef1 Ef2].
    apply andb_true_iff in Et. destruct Et as [Et1 Et2].
    apply Z.leb_le in Ef1. apply Z.ltb_lt in Ef2.
    apply Z.leb_le in Et1. apply Z.ltb_lt in Et2.
    destruct H as [H|[H|[H|H]]]; try discriminate; try contradiction; lia.
Qed.

(** A base partitioning of a 10 x 4 space among two tasks along dimension
    0, and an empty border array over a 6 x 10 space for the same group. *)
Definition sample_base_borders : Laik_BorderArray :=
  mkBorderArray 2 (mkSpace 2 (mkIndex 10 4 1))
    [mkTaskSlice 0 (strip (mkSpace 2 (mkIndex 10 4 1)) 0 0 6);
     mkTaskSlice 1 (strip (mkSpace 2 (mkIndex 10 4 1)) 0 6 10)].

Definition sample_base : Laik_Partitioning :=
  mkPartitioning true 7 (mkSpace 2 (mkIndex 10 4 1)) (Some sample_base_borders).

Definition sample_target : Laik_BorderArray :=
  mkBorderArray 2 (mkSpace 2 (mkIndex 6 10 1)) [].

Lemma runCopyPartitioner_copies_borders_witness :
  let data := Some (mkCopyData (Some sample_base) 0 1) in
  (bordersValid sample_base = true /\ pgroup sample_base = 7 /\
   0 <= 0 < sdims (pspace sample_base) /\ 0 <= 1 < sdims (space sample_target) ->
   runCopyPartitioner data sample_target 7 =
     Ret (mkBorderArray (group_size sample_target) (space sample_target)
            (tslice sample_target
             ++ copied_slices (space sample_target) 0 1 (tslice sample_base_borders))) /\
   (0 = 1 ->
    Forall (fun ts => exists a c, s ts = strip (space sample_target) 1 a c)
           (tslice sample_base_borders) ->
    runCopyPartitioner data sample_target 7 =
      Ret (mkBorderArray (group_size sample_target) (space sample_target)
             (tslice sample_target ++ tslice sample_base_borders)))) /\
  (bordersValid sample_base = false \/ pgroup sample_base <> 7 \/
   ~ 0 <= 0 < sdims (pspace sample_base) \/ ~ 0 <= 1 < sdims (space sample_target) ->
   runCopyPartitioner data sample_target 7 = AssertFail) /\
  runCopyPartitioner None sample_target 7 = AssertFail /\
  runCopyPartitioner (Some (mkCopyData None 0 1)) sample_target 7 = AssertFail.
Proof.
  apply (runCopyPartitioner_copies_borders sample_base sample_base_borders 0 1
           sample_target 7).
  reflexivity.
Defined.

End SimplePartitionerFacts.

(** ** The block partitioner, whatever the weights *)

Module BlockRunFacts.

Import Partitioner BlockFacts SimplePartitionerFacts.

(** The pieces of a run: a piece is a triple of the step
    [cycle * count + task] at which it was closed, and its bounds [from]
    and [to] in the partitioned dimension.  [s_task] reads the step. *)
Definition piece_slice (sp : Laik_Space) (d count : Z) (x : slice1d)
  : Laik_TaskSlice :=
  mkTaskSlice (s_task x mod count) (strip sp d (s_from x) (s_to x)).

(** Steps that grow strictly from [lo] on and stay below [hi]. *)
Fixpoint chain (lo hi : Z) (pl : list slice1d) : Prop :=
  match pl with
  | [] => lo <= hi
  | x :: rest => lo <= s_task x /\ chain (s_task x + 1) hi rest
  end.

Lemma chain_le pl : forall lo hi, chain lo hi pl -> lo <= hi.
Proof.
  induction pl as [|x pl IH]; intros lo hi H; cbn [chain] in H; [exact H|].
  destruct H as [H1 H2]. specialize (IH _ _ H2). lia.
Qed.

Lemma chain_weaken pl : forall lo hi hi',
  chain lo hi pl -> hi <= hi' -> chain lo hi' pl.
Proof.
  induction pl as [|x pl IH]; intros lo hi hi' H Hle; cbn [chain] in *.
  - lia.
  - destruct H as [H1 H2]. split; [exact H1|]. eapply IH; eassumption.
Qed.

Lemma chain_snoc pl : forall lo p a b,
  chain lo p pl -> chain lo (p + 1) (pl ++ [(p, a, b)]).
Proof.
  induction pl as [|x pl IH]; intros lo p a b H; cbn [chain app] in *.
  - unfold s_task. cbn [fst]. lia.
  - destruct H as [H1 H2]. split; [exact H1|]. apply IH. exact H2.
Qed.

Lemma tiles_snoc pl : forall lo f p b,
  tiles lo f pl -> f < b -> tiles lo b (pl ++ [(p, f, b)]).
Proof.
  induction pl as [|x pl IH]; intros lo f p b H Hlt; cbn [tiles app] in *.
  - unfold s_from, s_to. cbn [fst snd]. subst. auto.
  - destruct H as (H1 & H2 & H3). repeat split; auto.
Qed.

Lemma last_snoc {A : Type} (l : list A) (x d : A) : last (l ++ [x]) d = x.
Proof.
  induction l as [|y l IH]; [reflexivity|].
  cbn [app]. destruct l as [|z l]; [reflexivity|]. exact IH.
Qed.

Section Run.

Context {D : Type}.
Variable ops : DoubleOps D.
Variable data : Laik_BlockPartitionerData (D := D).
Variable ba0 : Laik_BorderArray.
Variable totalTW perPart : D.

Let sp := space ba0.
Let count := group_size ba0.
Let size := get_i (ssize sp) (pdim data).

Hypothesis Hcount : 1 <= count.
Hypothesis Hcycles : 1 <= cycles data.
Hypothesis Hsize : 0 < size < 2 ^ 63.

(** What the loops keep, at index [i]: the step is in range, the open
    slice starts at [f <= i], and the pieces closed so far tile [0, f)
    at steps below the current one. *)
Inductive run_inv (i : Z) (st : bp_state (D := D)) : Prop :=
| mkRunInv (f b : Z) (pl : list slice1d) :
    0 <= st_task st < count ->
    0 <= st_cycle st < cycles data ->
    st_slc st = strip sp (pdim data) f b ->
    0 <= f <= i /\ f < size ->
    st_ba st =
      mkBorderArray count sp
        (tslice ba0 ++ map (piece_slice sp (pdim data) count) pl) ->
    tiles 0 f pl ->
    chain 0 (st_cycle st * count + st_task st) pl ->
    run_inv i st.

Lemma is_last_step st :
  0 <= st_task st < count -> 0 <= st_cycle st < cycles data ->
  (is_last data count st = true <->
   st_cycle st * count + st_task st = count * cycles data - 1).
Proof.
  intros Ht Hc. unfold is_last. rewrite andb_true_iff, !Z.eqb_eq.
  split; [intros [H1 H2]|intros H]; nia.
Qed.

Lemma while_loop_inv fuel : forall i st,
  run_inv i st ->
  0 <= i < size ->
  count * cycles data - 1 - (st_cycle st * count + st_task st) <= Z.of_nat fuel ->
  exists st',
    while_loop ops data count totalTW perPart fuel i st = Ret st' /\ run_inv i st'.
Proof.
  induction fuel as [|fuel IH]; intros i st Hinv Hi Hfuel.
  - destruct Hinv as [f b pl Ht Hc Hslc Hopen Hba Htiles Hchain].
    assert (Hlast : is_last data count
                      (mkState (dsub ops (st_w st) (dmul ops perPart (st_taskW st)))
                               (st_task st) (st_cycle st) (st_taskW st)
                               (st_slc st) (st_ba st)) = true).
    { apply is_last_step; cbn [st_task st_cycle]; auto. cbn [Z.of_nat] in Hfuel. nia. }
    cbn [while_loop].
    destruct (dge ops (st_w st) (dmul ops perPart (st_taskW st))).
    + rewrite Hlast. eexists. split; [reflexivity|].
      econstructor; cbn [st_task st_cycle st_slc st_ba]; eauto.
    + eexists. split; [reflexivity|]. econstructor; eauto.
  - assert (Hinv0 := Hinv).
    destruct Hinv as [f b pl Ht Hc Hslc Hopen Hba Htiles Hchain].
    cbn [while_loop].
    destruct (dge ops (st_w st) (dmul ops perPart (st_taskW st))).
    + set (st1 := mkState (dsub ops (st_w st) (dmul ops perPart (st_taskW st)))
                          (st_task st) (st_cycle st) (st_taskW st)
                          (st_slc st) (st_ba st)).
      destruct (is_last data count st1) eqn:Elast.
      * eexists. split; [reflexivity|].
        econstructor; cbn [st1 st_task st_cycle st_slc st_ba]; eauto.
      * assert (Hnl : st_cycle st * count + st_task st <> count * cycles data - 1).
        { intros Heq. apply (is_last_step st1) in Heq; auto. congruence. }
        cbn [st1 st_slc st_ba st_task st_cycle sfrom sto].
        rewrite Hslc. unfold strip at 1 2 3 4 5 6. cbn [sfrom sto].
        rewrite !set_set_i, !get_set_i.
        rewrite (CInt.sint64_id i) by (unfold CInt.is_sint64; lia).
        set (task' := fst (if st_task st + 1 =? count
                           then (0, st_cycle st + 1)
                           else (st_task st + 1, st_cycle st))).
        set (cycle' := snd (if st_task st + 1 =? count
                            then (0, st_cycle st + 1)
                            else (st_task st + 1, st_cycle st))).
        replace (let '(task, cycle) :=
                   if st_task st + 1 =? count
                   then (0, st_cycle st + 1)
                   else (st_task st + 1, st_cycle st) in
                 while_loop ops data count totalTW perPart fuel i
                   (mkState (dsub ops (st_w st) (dmul ops perPart (st_taskW st)))
                      task cycle (task_factor ops data count totalTW task)
                      (mkSlice (set_i (laik_set_index 0 0 0) (pdim data) i)
                               (set_i (ssize sp) (pdim data) i))
                      (if f <? i
                       then laik_append_slice (st_ba st) (st_task st)
                              (mkSlice (set_i (laik_set_index 0 0 0) (pdim data) f)
                                       (set_i (ssize sp) (pdim data) i))
                       else st_ba st)))
          with (while_loop ops data count totalTW perPart fuel i
                  (mkState (dsub ops (st_w st) (dmul ops perPart (st_taskW st)))
                     task' cycle' (task_factor ops data count totalTW task')
                     (strip sp (pdim data) i i)
                     (if f <? i
                      then laik_append_slice (st_ba st) (st_task st)
                             (strip sp (pdim data) f i)
                      else st_ba st)))
          by (subst task' cycle'; destruct (st_task st + 1 =? count); reflexivity).
        assert (Hstep : 0 <= task' < count /\ 0 <= cycle' < cycles data /\
                        cycle' * count + task' = st_cycle st * count + st_task st + 1).
        { subst task' cycle'.
          destruct (st_task st + 1 =? count) eqn:E; cbn [fst snd].
          - apply Z.eqb_eq in E. split; [lia|]. split; [|lia].
            split; [lia|]. nia.
          - apply Z.eqb_neq in E. split; [lia|]. split; [lia|]. lia. }
        destruct Hstep as (Ht' & Hc' & Hpos').
        apply IH; [|exact Hi|cbn [st_task st_cycle]; lia].
        destruct (f <? i) eqn:Efi.
        -- apply Z.ltb_lt in Efi.
           apply (mkRunInv i _ i i (pl ++ [(st_cycle st * count + st_task st, f, i)]));
             cbn [st_task st_cycle st_slc st_ba]; auto; try lia.
           ++ rewrite Hba. unfold laik_append_slice. cbn [group_size space tslice].
              f_equal. rewrite <- app_assoc. f_equal.
              rewrite map_app. cbn [map]. f_equal. unfold piece_slice.
              unfold s_task, s_from, s_to. cbn [fst snd]. do 2 f_equal.
              apply Z.mod_unique with (q := st_cycle st); lia.
           ++ apply tiles_snoc; assumption.
           ++ rewrite Hpos'. apply chain_snoc. exact Hchain.
        -- apply Z.ltb_ge in Efi. assert (f = i) by lia. subst f.
           apply (mkRunInv i _ i i pl);
             cbn [st_task st_cycle st_slc st_ba]; auto; try lia.
           rewrite Hpos'. eapply chain_weaken; [exact Hchain | lia].
    + eexists. split; [reflexivity | exact Hinv0].
Qed.

Lemma inv_next i st : run_inv i st -> i + 1 < size -> run_inv (i + 1) st.
Proof.
  intros [f b pl Ht Hc Hslc Hopen Hba Htiles Hchain] Hi.
  apply (mkRunInv (i + 1) st f b pl); auto. lia.
Qed.

Lemma inv_weight i st w tw :
  run_inv i st ->
  run_inv i (mkState w (st_task st) (st_cycle st) tw (st_slc st) (st_ba st)).
Proof.
  intros [f b pl Ht Hc Hslc Hopen Hba Htiles Hchain].
  apply (mkRunInv i _ f b pl); cbn [st_task st_cycle st_slc st_ba]; auto.
Qed.

Lemma for_loop_inv n : forall i st,
  run_inv i st ->
  0 <= i -> i + Z.of_nat n <= size ->
  exists st' j,
    for_loop ops data count totalTW perPart n i st = Ret st' /\ run_inv j st'.
Proof.
  induction n as [|n IH]; intros i st Hinv Hi Hn.
  - exists st, i. split; [reflexivity | exact Hinv].
  - cbn [for_loop].
    set (st0 := mkState _ (st_task st) (st_cycle st) (st_taskW st) (st_slc st) (st_ba st)).
    assert (Hinv0 : run_inv i st0) by (apply inv_weight; exact Hinv).
    destruct (while_loop_inv (Z.to_nat (count * cycles data)) i st0 Hinv0)
      as (st' & Hw & Hinv'); [lia| |].
    { destruct Hinv0 as [f b pl Ht Hc _ _ _ _ _]. nia. }
    rewrite Hw. cbn [bind].
    destruct (is_last data count st').
    + exists st', i. split; [reflexivity | exact Hinv'].
    + destruct n as [|n'].
      * exists st', i. split; [reflexivity | exact Hinv'].
      * apply IH; [|lia|lia]. apply inv_next; [exact Hinv'|lia].
Qed.

End Run.

(** The outcome of a run over a non-empty dimension with at least one task
    and one cycle. *)
Lemma block_run_cases {D : Type} (ops : DoubleOps D)
    (data : Laik_BlockPartitionerData (D := D)) (ba : Laik_BorderArray) :
  let sp := space ba in
  let count := group_size ba in
  let size := get_i (ssize sp) (pdim data) in
  0 <= pdim data <= 2 ->
  1 <= count ->
  1 <= cycles data ->
  0 < size < 2 ^ 63 ->
  runBlockPartitioner ops data ba = AssertFail \/
  exists pl,
    runBlockPartitioner ops data ba
      = Ret (mkBorderArray count sp
               (tslice ba ++ map (piece_slice sp (pdim data) count) pl)) /\
    tiles 0 size pl /\
    chain 0 (count * cycles data) pl /\
    s_task (last pl (0, 0, 0)) = count * cycles data - 1.
Proof.
  intros sp count size Hd Hcount Hcycles Hsize.
  unfold runBlockPartitioner. cbv zeta.
  fold sp. fold count. fold size.
  set (totalTW := match getTaskW data with
                  | Some g => fold_left (fun acc t => dadd ops acc (g t))
                                        (indices count) (d_zero ops)
                  | None => of_int ops count
                  end).
  set (perPart := ddiv ops (ddiv ops _ (of_int ops count)) (of_int ops (cycles data))).
  set (st0 := mkState (d_neg_half ops) 0 0 (task_factor ops data count totalTW 0) _ ba).
  assert (Hinv0 : run_inv data ba 0 st0).
  { apply (mkRunInv data ba 0 st0 0 size []); cbn [st0 st_task st_cycle st_slc st_ba];
      fold sp; fold count; try lia.
    - cbn [sfrom sto]. unfold strip. rewrite laik_set_index_eta. fold size.
      rewrite set_get_i.
      replace (set_i (laik_set_index 0 0 0) (pdim data) 0) with (laik_set_index 0 0 0);
        [reflexivity|].
      unfold set_i, laik_set_index. destruct (pdim data =? 0); [reflexivity|].
      destruct (pdim data =? 1); reflexivity.
    - cbn [map]. rewrite app_nil_r. destruct ba. reflexivity.
    - reflexivity.
    - cbn [chain]. lia. }
  destruct (for_loop_inv ops data ba totalTW perPart Hcount Hcycles Hsize
              (Z.to_nat size) 0 st0 Hinv0) as (st & j & Hfor & Hinv);
    [lia | unfold size, sp in *; lia |].
  fold sp count size in Hfor. rewrite Hfor. cbn [bind].
  destruct (is_last data count st) eqn:Elast; [|left; reflexivity].
  right. cbn [assert bind].
  destruct Hinv as [f b pl Ht Hc Hslc Hopen Hba Htiles Hchain].
  fold sp count size in Ht, Hc, Hslc, Hopen, Hba, Hchain.
  apply (is_last_step data ba) in Elast; auto. fold count in Elast.
  exists (pl ++ [(st_cycle st * count + st_task st, f, size)]).
  split; [|split; [|split]].
  - rewrite Hslc, Hba. unfold strip at 1 2. cbn [sfrom sto].
    rewrite set_set_i. rewrite (CInt.sint64_id size) by (unfold CInt.is_sint64; lia).
    unfold laik_append_slice. cbn [group_size space tslice].
    rewrite <- app_assoc, map_app. cbn [map].
    unfold piece_slice, strip, s_task, s_from, s_to. cbn [fst snd].
    replace ((st_cycle st * count + st_task st) mod count) with (st_task st)
      by (apply Z.mod_unique with (q := st_cycle st); lia).
    reflexivity.
  - apply tiles_snoc; [exact Htiles | lia].
  - replace (count * cycles data) with (st_cycle st * count + st_task st + 1) by lia.
    apply chain_snoc. exact Hchain.
  - rewrite last_snoc. unfold s_task. cbn [fst]. exact Elast.
Qed.

(** X13: with at least one task and one cycle over a non-empty dimension,
    [runBlockPartitioner] ends, for any weight functions and any
    arithmetic of [double], either in its closing assertion or with
    slices that tile the partitioned dimension: the slices it appends are
    non-empty, follow one another from 0 to the size, and span the space in
    the other dimensions; they belong to strictly growing steps
    [cycle * count + task], the last one to the last task of the last
    cycle, so that no task gets two slices in one cycle.  The loops never
    run on past the last step. *)
Theorem block_partitioner_tiles {D : Type} (ops : DoubleOps D)
    (data : Laik_BlockPartitionerData (D := D)) (ba : Laik_BorderArray) :
  let sp := space ba in
  let count := group_size ba in
  let size := get_i (ssize sp) (pdim data) in
  0 <= pdim data <= 2 ->
  1 <= count ->
  1 <= cycles data ->
  0 < size < 2 ^ 63 ->
  runBlockPartitioner ops data ba = AssertFail \/
  exists pl,
    runBlockPartitioner ops data ba
      = Ret (mkBorderArray count sp
               (tslice ba ++ map (piece_slice sp (pdim data) count) pl)) /\
    tiles 0 size pl /\
    chain 0 (count * cycles data) pl /\
    s_task (last pl (0, 0, 0)) = count * cycles data - 1.
Proof. exact (block_run_cases ops data ba). Qed.

(** Index weights 1, 1, 1, 5, ... and task weights 1, 3, 1, 3, ... *)
Definition sample_index_weight (idx : Laik_Index) : float :=
  if i0 idx =? 3 then 5%float else 1%float.

Definition sample_task_weight (t : Z) : float :=
  if Z.even t then 1%float else 3%float.

Definition sample_data : Laik_BlockPartitionerData (D := float) :=
  mkBlockData 0 2 (Some sample_index_weight) (Some sample_task_weight).

Lemma block_partitioner_tiles_witness :
  runBlockPartitioner binary64 sample_data (line 3 20 1 1) = AssertFail \/
  exists pl,
    runBlockPartitioner binary64 sample_data (line 3 20 1 1)
      = Ret (mkBorderArray 3 (mkSpace 1 (mkIndex 20 1 1))
               ([] ++ map (piece_slice (mkSpace 1 (mkIndex 20 1 1)) 0 3) pl)) /\
    tiles 0 20 pl /\
    chain 0 (3 * 2) pl /\
    s_task (last pl (0, 0, 0)) = 3 * 2 - 1.
Proof.
  apply (block_partitioner_tiles binary64 sample_data (line 3 20 1 1));
    cbn; lia.
Defined.

(** X14: for a group of one task and one cycle [runBlockPartitioner]
    returns for any weight functions, any arithmetic of [double] and any
    size from 0 on, with the one slice that is the whole space, for task
    0: the result of [runMasterPartitioner]. *)
Theorem block_partitioner_one_task {D : Type} (ops : DoubleOps D)
    (data : Laik_BlockPartitionerData (D := D)) (ba : Laik_BorderArray) :
  group_size ba = 1 ->
  cycles data = 1 ->
  0 <= pdim data <= 2 ->
  0 <= get_i (ssize (space ba)) (pdim data) < 2 ^ 63 ->
  runBlockPartitioner ops data ba = Ret (runMasterPartitioner ba).
Proof.
  intros Hcount Hcycles Hd Hsize. unfold runBlockPartitioner. cbv zeta.
  rewrite Hcount.
  set (size := get_i (ssize (space ba)) (pdim data)) in *.
  set (totalTW := match getTaskW data with
                  | Some g => fold_left (fun acc t => dadd ops acc (g t))
                                        (indices 1) (d_zero ops)
                  | None => of_int ops 1
                  end).
  set (perPart := ddiv ops (ddiv ops _ (of_int ops 1)) (of_int ops (cycles data))).
  set (slc0 := mkSlice (set_i (sfrom _) (pdim data) 0) (sto _)).
  assert (Hlast : forall w tw, is_last data 1 (mkState w 0 0 tw slc0 ba) = true).
  { intros w tw. unfold is_last. cbn [st_task st_cycle]. rewrite Hcycles. reflexivity. }
  assert (Hfor : forall n i w tw,
             exists w',
               for_loop ops data 1 totalTW perPart n i (mkState w 0 0 tw slc0 ba)
               = Ret (mkState w' 0 0 tw slc0 ba)).
  { intros n i w tw. destruct n as [|n].
    - exists w. reflexivity.
    - cbn [for_loop st_w st_task st_cycle st_taskW st_slc st_ba].
      rewrite Hcycles. change (Z.to_nat (1 * 1)) with 1%nat.
      cbn [while_loop st_w st_task st_cycle st_taskW st_slc st_ba].
      match goal with
      | |- context [dge ops ?a ?b] => destruct (dge ops a b)
      end.
      + rewrite Hlast. cbn [bind]. rewrite Hlast. eexists. reflexivity.
      + cbn [bind]. rewrite Hlast. eexists. reflexivity. }
  destruct (Hfor (Z.to_nat size) 0 (d_neg_half ops)
              (task_factor ops data 1 totalTW 0)) as [w' Hw'].
  rewrite Hw'. cbn [bind]. rewrite Hlast. cbn [assert bind st_slc st_ba st_task].
  unfold runMasterPartitioner. do 2 f_equal.
  unfold slc0. cbn [sfrom sto]. rewrite laik_set_index_eta.
  rewrite (CInt.sint64_id size) by (unfold CInt.is_sint64; lia).
  unfold size. rewrite set_get_i. f_equal.
  unfold set_i, laik_set_index. destruct (pdim data =? 0); [reflexivity|].
  destruct (pdim data =? 1); reflexivity.
Qed.

Lemma block_partitioner_one_task_witness :
  runBlockPartitioner binary64
    (laik_set_cycle_count sample_data 1) (line 1 20 1 1)
  = Ret (runMasterPartitioner (line 1 20 1 1)).
Proof.
  apply (block_partitioner_one_task binary64
           (laik_set_cycle_count sample_data 1) (line 1 20 1 1));
    cbn; first [reflexivity | lia].
Defined.

(** *** The cycle count *)

Section Cycles.

Context {D : Type}.
Variable ops : DoubleOps D.
Variable data : Laik_BlockPartitionerData (D := D).
Variable count : Z.
Variable totalTW perPart : D.

Lemma while_loop_cycle fuel : forall i st st',
  0 <= st_cycle st ->
  while_loop ops data count totalTW perPart fuel i st = Ret st' ->
  0 <= st_cycle st'.
Proof.
  induction fuel as [|fuel IH]; intros i st st' Hc; cbn [while_loop].
  - destruct (dge ops _ _).
    + destruct (is_last data count _).
      * intros H. injection H as <-. exact Hc.
      * cbn [st_task st_cycle st_slc st_ba].
        destruct (st_task st + 1 =? count); discriminate.
    + intros H. injection H as <-. exact Hc.
  - destruct (dge ops _ _).
    + destruct (is_last data count _).
      * intros H. injection H as <-. exact Hc.
      * cbn [st_task st_cycle st_slc st_ba].
        destruct (st_task st + 1 =? count); intros H; apply IH in H; auto;
          cbn [st_cycle]; lia.
    + intros H. injection H as <-. exact Hc.
Qed.

Lemma for_loop_cycle n : forall i st st',
  0 <= st_cycle st ->
  for_loop ops data count totalTW perPart n i st = Ret st' ->
  0 <= st_cycle st'.
Proof.
  induction n as [|n IH]; intros i st st' Hc; cbn [for_loop].
  - intros H. injection H as <-. exact Hc.
  - destruct (while_loop ops data count totalTW perPart _ i _) as [st1| | |] eqn:Ew;
      cbn [bind]; try discriminate.
    apply while_loop_cycle in Ew; [|exact Hc].
    destruct (is_last data count st1).
    + intros H. injection H as <-. exact Ew.
    + apply IH. exact Ew.
Qed.

End Cycles.

(** X15: [laik_set_cycle_count] stores a count from 0 to 10 as it is and
    replaces any other by 1, leaving the rest of the data alone.  The count
    0 is kept, and with it (as with any count below 1)
    [runBlockPartitioner] never returns: no step is the last step of the
    last cycle, so the run cannot pass its closing assertion. *)
Theorem laik_set_cycle_count_range {D : Type}
    (data : Laik_BlockPartitionerData (D := D)) :
  (forall c,
     let data' := laik_set_cycle_count data c in
     cycles data' = (if (0 <=? c) && (c <=? 10) then c else 1) /\
     0 <= cycles data' <= 10 /\
     pdim data' = pdim data /\
     getIdxW data' = getIdxW data /\
     getTaskW data' = getTaskW data) /\
  (forall (ops : DoubleOps D) ba b,
     runBlockPartitioner ops (laik_set_cycle_count data 0) ba <> Ret b) /\
  (forall (ops : DoubleOps D) ba b,
     cycles data < 1 -> runBlockPartitioner ops data ba <> Ret b).
Proof.
  assert (Hnever : forall (d : Laik_BlockPartitionerData (D := D)) (ops : DoubleOps D) ba b,
             cycles d < 1 -> runBlockPartitioner ops d ba <> Ret b).
  { intros d ops ba b Hc. unfold runBlockPartitioner. cbv zeta.
    destruct (for_loop ops d _ _ _ _ 0 _) as [st| | |] eqn:Efor; cbn [bind];
      try discriminate.
    apply for_loop_cycle in Efor; [|cbn [st_cycle]; lia].
    assert (Hl : is_last d (group_size ba) st = false).
    { unfold is_last. apply andb_false_iff. right. apply Z.eqb_neq. lia. }
    rewrite Hl. discriminate. }
  split; [|split].
  - intros c. cbv zeta. unfold laik_set_cycle_count. cbn [cycles pdim getIdxW getTaskW].
    destruct (c <? 0) eqn:E1; destruct (10 <? c) eqn:E2; cbn [orb];
      destruct (0 <=? c) eqn:E3; destruct (c <=? 10) eqn:E4; cbn [andb];
      try apply Z.ltb_lt in E1; try apply Z.ltb_ge in E1;
      try apply Z.ltb_lt in E2; try apply Z.ltb_ge in E2;
      try apply Z.leb_le in E3; try apply Z.leb_gt in E3;
      try apply Z.leb_le in E4; try apply Z.leb_gt in E4;
      repeat split; auto; lia.
  - intros ops ba b. apply Hnever. cbn. lia.
  - intros ops ba b Hc. apply Hnever. exact Hc.
Qed.

Lemma laik_set_cycle_count_range_witness :
  cycles (laik_set_cycle_count sample_data 11) = 1 /\
  cycles (laik_set_cycle_count sample_data 0) < 1 /\
  runBlockPartitioner binary64 (laik_set_cycle_count sample_data 0) (line 3 20 1 1)
    <> Ret (line 3 20 1 1).
Proof.
  split; [|split].
  - exact (proj1 (proj1 (laik_set_cycle_count_range sample_data) 11)).
  - cbn. lia.
  - apply (proj2 (proj2 (laik_set_cycle_count_range
                           (laik_set_cycle_count sample_data 0)))
             binary64 (line 3 20 1 1) (line 3 20 1 1)).
    cbn. lia.
Defined.

(** *** The weight callbacks and their user data *)

(** X23: the data object has one [userData] field for the two callbacks,
    and each of [laik_set_index_weight] and [laik_set_task_weight]
    overwrites it.  So [laik_set_task_weight] changes the [userData] the
    index callback is called with (and the other way round); after the
    two calls, in either order, a run calls both callbacks with the
    [userData] of the later call and partitions as with an object created
    for the two callbacks with that [userData].  The dimension and the
    cycle count are kept. *)
Theorem weight_setters_share_userData {V D : Type} (ops : DoubleOps D)
    (o : Laik_BlockPartitionerFields V D)
    (f : Laik_Index -> option V -> D) (g : Z -> option V -> D)
    (u1 u2 : option V) :
  let o12 := laik_set_task_weight (laik_set_index_weight o (Some f) u1) (Some g) u2 in
  let o21 := laik_set_index_weight (laik_set_task_weight o (Some g) u2) (Some f) u1 in
  getIdxW (as_data (laik_set_task_weight o (Some g) u2))
    = match f_getIdxW o with
      | Some f0 => Some (fun idx => f0 idx u2)
      | None => None
      end /\
  getTaskW (as_data (laik_set_index_weight o (Some f) u1))
    = match f_getTaskW o with
      | Some g0 => Some (fun t => g0 t u1)
      | None => None
      end /\
  as_data o12 = mkBlockData (f_pdim o) (f_cycles o)
                  (Some (fun idx => f idx u2)) (Some (fun t => g t u2)) /\
  as_data o21 = mkBlockData (f_pdim o) (f_cycles o)
                  (Some (fun idx => f idx u1)) (Some (fun t => g t u1)) /\
  (forall ba,
     runBlockPartitioner ops (as_data o12) ba
     = runBlockPartitioner ops
         (as_data (laik_new_block_partitioner (f_pdim o) (f_cycles o)
                     (Some f) (Some g) u2)) ba) /\
  (forall ba,
     runBlockPartitioner ops (as_data o21) ba
     = runBlockPartitioner ops
         (as_data (laik_new_block_partitioner (f_pdim o) (f_cycles o)
                     (Some f) (Some g) u1)) ba).
Proof.
  cbv zeta. unfold laik_set_task_weight, laik_set_index_weight,
    laik_new_block_partitioner, as_data.
  cbn [f_pdim f_cycles f_getIdxW f_userData f_getTaskW getIdxW getTaskW].
  repeat split; reflexivity.
Qed.

(** *** A copy of a block partitioning *)

(** X16: the borders a run of [runBlockPartitioner] has produced, copied
    by [runCopyPartitioner] from the partitioned dimension to the same
    dimension of the same space, are appended unchanged: same tasks, same
    slices, same order. *)
Theorem copy_of_block_borders {D : Type} (ops : DoubleOps D)
    (data : Laik_BlockPartitionerData (D := D)) (ba0 bb ba : Laik_BorderArray)
    (grp : Z) (valid : bool) :
  tslice ba0 = [] ->
  0 <= pdim data < sdims (space ba0) ->
  sdims (space ba0) <= 3 ->
  1 <= group_size ba0 ->
  1 <= cycles data ->
  0 < get_i (ssize (space ba0)) (pdim data) < 2 ^ 63 ->
  runBlockPartitioner ops data ba0 = Ret bb ->
  space ba = space ba0 ->
  valid = true ->
  runCopyPartitioner
    (Some (mkCopyData (Some (mkPartitioning valid grp (space ba0) (Some bb)))
                      (pdim data) (pdim data)))
    ba grp
  = Ret (mkBorderArray (group_size ba) (space ba) (tslice ba ++ tslice bb)).
Proof.
  intros Hempty Hd Hdims Hcount Hcycles Hsize Hrun Hsp ->.
  destruct (block_run_cases ops data ba0 ltac:(lia) Hcount Hcycles Hsize)
    as [Hfail|(pl & Hret & _)]; [congruence|].
  rewrite Hret in Hrun. injection Hrun as <-.
  rewrite Hempty. cbn [app].
  unfold runCopyPartitioner. cbn [base fromDim toDim bordersValid pgroup pspace borders].
  rewrite Z.eqb_refl, Hsp.
  replace ((0 <=? pdim data) && (pdim data <? sdims (space ba0))) with true
    by (symmetry; apply andb_true_iff; split; [apply Z.leb_le | apply Z.ltb_lt]; lia).
  cbn [assert bind]. rewrite copy_fold. cbn [tslice]. rewrite Hsp.
  rewrite copied_strips; [reflexivity|].
  apply Forall_forall. intros ts Hts. apply in_map_iff in Hts.
  destruct Hts as (x & <- & _). unfold piece_slice. cbn [s]. eauto.
Qed.

Lemma copy_of_block_borders_witness :
  runCopyPartitioner
    (Some (mkCopyData
             (Some (mkPartitioning true 7 (space (line 4 10 1 1))
                      (Some (mkBorderArray 4 (mkSpace 1 (mkIndex 10 1 1))
                               [mkTaskSlice 0 (strip (mkSpace 1 (mkIndex 10 1 1)) 0 0 2);
                                mkTaskSlice 1 (strip (mkSpace 1 (mkIndex 10 1 1)) 0 2 5);
                                mkTaskSlice 2 (strip (mkSpace 1 (mkIndex 10 1 1)) 0 5 7);
                                mkTaskSlice 3 (strip (mkSpace 1 (mkIndex 10 1 1)) 0 7 10)]))))
             (pdim (unit_data (D := float))) (pdim (unit_data (D := float)))))
    (line 4 10 1 1) 7
  = Ret (mkBorderArray (group_size (line 4 10 1 1)) (space (line 4 10 1 1))
           (tslice (line 4 10 1 1) ++
            tslice (mkBorderArray 4 (mkSpace 1 (mkIndex 10 1 1))
                      [mkTaskSlice 0 (strip (mkSpace 1 (mkIndex 10 1 1)) 0 0 2);
                       mkTaskSlice 1 (strip (mkSpace 1 (mkIndex 10 1 1)) 0 2 5);
                       mkTaskSlice 2 (strip (mkSpace 1 (mkIndex 10 1 1)) 0 5 7);
                       mkTaskSlice 3 (strip (mkSpace 1 (mkIndex 10 1 1)) 0 7 10)]))).
Proof.
  apply (copy_of_block_borders binary64 unit_data (line 4 10 1 1) _ (line 4 10 1 1) 7 true);
    first [ reflexivity | cbn; lia ].
Defined.

End BlockRunFacts.

(** ** The first sparse layout *)

Module SparseFirstFacts.

Import Sparse SparseFacts.

(** Offset queries one after the other, the layout threaded through. *)
Fixpoint first_offset_queries (lv : SparseFirst.Laik_Layout_Vector) (gs : list Z)
  : outcome (list Z * SparseFirst.Laik_Layout_Vector) :=
  match gs with
  | [] => Ret ([], lv)
  | g :: gs' =>
      (r <- SparseFirst.offset_vector lv 0 g ;;
       rs <- first_offset_queries (snd r) gs' ;;
       Ret (fst r :: fst rs, snd rs))%outcome
  end.

Lemma first_offset_external lv m g :
  SparseFirst.globalToLocalMap lv = Some m ->
  SparseFirst.numberOfExternalValues lv = 0 ->
  0 <= SparseFirst.currentExternalVallue lv ->
  0 <= SparseFirst.localLength lv ->
  SparseFirst.localLength lv + SparseFirst.currentExternalVallue lv + 1 < 2 ^ 63 ->
  ~ owned m g ->
  SparseFirst.offset_vector lv 0 g =
    Ret (SparseFirst.localLength lv + SparseFirst.currentExternalVallue lv,
         SparseFirst.set_currentExternalVallue lv
           (SparseFirst.currentExternalVallue lv + 1)).
Proof.
  intros Hmap HE Hc Hl Hmax Hout.
  unfold SparseFirst.offset_vector. cbn [Z.eqb assert bind]. rewrite Hmap.
  pose proof (scan_outside (intervals m) 0 g) as Hs.
  destruct (scan_intervals (intervals m) g 0) as [lo b]. simpl in Hs.
  rewrite Hs by (intros iv Hiv Hin; apply Hout; exists iv; split; assumption).
  rewrite HE.
  replace (if SparseFirst.currentExternalVallue lv =? 0
           then 0 else SparseFirst.currentExternalVallue lv)
    with (SparseFirst.currentExternalVallue lv)
    by (destruct (SparseFirst.currentExternalVallue lv =? 0) eqn:E;
        [apply Z.eqb_eq in E; lia | reflexivity]).
  rewrite (CInt.uint64_id (SparseFirst.localLength lv)) by (unfold CInt.is_uint64; lia).
  rewrite (CInt.uint64_id (SparseFirst.localLength lv + _))
    by (unfold CInt.is_uint64; lia).
  rewrite CInt.sint64_id by (unfold CInt.is_sint64; lia).
  rewrite CInt.uint64_id by (unfold CInt.is_uint64; lia).
  reflexivity.
Qed.

Lemma first_offset_queries_run gs : forall lv m,
  SparseFirst.globalToLocalMap lv = Some m ->
  SparseFirst.numberOfExternalValues lv = 0 ->
  0 <= SparseFirst.currentExternalVallue lv ->
  0 <= SparseFirst.localLength lv ->
  SparseFirst.localLength lv + SparseFirst.currentExternalVallue lv
    + Z.of_nat (length gs) < 2 ^ 63 ->
  Forall (fun g => ~ owned m g) gs ->
  first_offset_queries lv gs =
    Ret (map (fun k => SparseFirst.localLength lv
                       + SparseFirst.currentExternalVallue lv + Z.of_nat k)
             (seq 0 (length gs)),
         if is_nil gs then lv
         else SparseFirst.set_currentExternalVallue lv
                (SparseFirst.currentExternalVallue lv + Z.of_nat (length gs))).
Proof.
  induction gs as [|g gs IH]; intros lv m Hmap HE Hc Hl Hmax Hall.
  - reflexivity.
  - inversion Hall as [|? ? Hg Hgs]; subst. cbn [length] in Hmax.
    cbn [first_offset_queries].
    rewrite (first_offset_external lv m g Hmap HE Hc Hl) by (auto; lia).
    cbn [bind fst snd].
    set (lv1 := SparseFirst.set_currentExternalVallue lv
                  (SparseFirst.currentExternalVallue lv + 1)).
    rewrite (IH lv1 m); auto;
      try (cbn [lv1 SparseFirst.set_currentExternalVallue
                SparseFirst.currentExternalVallue SparseFirst.localLength]; lia).
    cbn [bind fst snd is_nil length seq map]. f_equal. f_equal.
    + f_equal.
      * cbn [Z.of_nat]. lia.
      * rewrite <- seq_shift, map_map. apply map_ext. intros k.
        cbn [lv1 SparseFirst.set_currentExternalVallue
             SparseFirst.currentExternalVallue SparseFirst.localLength]. lia.
    + destruct gs as [|g' gs']; cbn [is_nil].
      * reflexivity.
      * unfold lv1, SparseFirst.set_currentExternalVallue.
        cbn [SparseFirst.h SparseFirst.id SparseFirst.localLength
             SparseFirst.numberOfExternalValues SparseFirst.currentExternalVallue
             SparseFirst.globalToLocalMap]. f_equal. cbn [length]. lia.
Qed.

(** X17: the first sparse layout's [offset_vector] has no check of the
    number of external slots.  With none ([E = 0], cursor at 0) it gives
    the indices that are not owned the slots [localLength],
    [localLength + 1], [localLength + 2], ... one after the other: the
    cursor never comes back to 0, and every one of these slots lies
    behind the local block, where the layout has no room. *)
Theorem first_offset_vector_runs_on lv m gs :
  SparseFirst.globalToLocalMap lv = Some m ->
  SparseFirst.numberOfExternalValues lv = 0 ->
  SparseFirst.currentExternalVallue lv = 0 ->
  0 <= SparseFirst.localLength lv ->
  SparseFirst.localLength lv + Z.of_nat (length gs) < 2 ^ 63 ->
  Forall (fun g => ~ owned m g) gs ->
  exists os lv',
    first_offset_queries lv gs = Ret (os, lv') /\
    os = map (fun k => SparseFirst.localLength lv + Z.of_nat k) (seq 0 (length gs)) /\
    Forall (fun o => SparseFirst.localLength lv
                     + SparseFirst.numberOfExternalValues lv <= o) os /\
    SparseFirst.currentExternalVallue lv' = Z.of_nat (length gs).
Proof.
  intros Hmap HE Hc Hl Hmax Hall.
  eexists _, _. split.
  - rewrite (first_offset_queries_run gs lv m Hmap HE ltac:(lia) Hl ltac:(lia) Hall).
    reflexivity.
  - rewrite Hc, HE. split; [|split].
    + apply map_ext. intros k. lia.
    + apply Forall_forall. intros o Ho. apply in_map_iff in Ho.
      destruct Ho as (k & <- & _). lia.
    + destruct gs; cbn [is_nil length]; [exact Hc|].
      cbn [SparseFirst.set_currentExternalVallue SparseFirst.currentExternalVallue].
      reflexivity.
Qed.

Definition first_scenario_layout : SparseFirst.Laik_Layout_Vector :=
  SparseFirst.mkVector (mkLayout 1 1 6) 0 6 0 0 (Some scenario_map).

Lemma first_offset_vector_runs_on_witness :
  exists os lv',
    first_offset_queries first_scenario_layout [4; 7; 9] = Ret (os, lv') /\
    os = map (fun k => SparseFirst.localLength first_scenario_layout + Z.of_nat k)
             (seq 0 (length [4; 7; 9])) /\
    Forall (fun o => SparseFirst.localLength first_scenario_layout
                     + SparseFirst.numberOfExternalValues first_scenario_layout <= o) os /\
    SparseFirst.currentExternalVallue lv' = Z.of_nat (length [4; 7; 9]).
Proof.
  apply (first_offset_vector_runs_on first_scenario_layout scenario_map [4; 7; 9]).
  - reflexivity.
  - reflexivity.
  - reflexivity.
  - cbn. lia.
  - cbn. lia.
  - repeat constructor; apply scenario_not_owned; lia.
Defined.

(** X18: the first sparse layout's [reuse_vector] returns true exactly
    when the new local length is at most the old one.  On true the new
    layout takes the old map if its count differs from its local length and
    is left as it was otherwise; on false it is left as it was. *)
Theorem first_reuse_vector (l old : SparseFirst.Laik_Layout_Vector) (n nold : Z) :
  0 <= n < map_count (SparseFirst.h l) ->
  CInt.is_uint64 (count (SparseFirst.h l)) ->
  0 <= SparseFirst.localLength l < 2 ^ 63 ->
  exists b l',
    SparseFirst.reuse_vector l n old nold = Ret (b, l') /\
    (b = true <-> SparseFirst.localLength l <= SparseFirst.localLength old) /\
    (b = true -> count (SparseFirst.h l) <> SparseFirst.localLength l ->
       l' = SparseFirst.set_globalToLocalMap l (SparseFirst.globalToLocalMap old)) /\
    (b = true -> count (SparseFirst.h l) = SparseFirst.localLength l -> l' = l) /\
    (b = false -> l' = l).
Proof.
  intros Hn Hc Hl. unfold SparseFirst.reuse_vector.
  replace ((0 <=? n) && (n <? map_count (SparseFirst.h l))) with true
    by (symmetry; apply andb_true_iff; split; [apply Z.leb_le | apply Z.ltb_lt]; lia).
  cbn [assert bind].
  rewrite (cast_count_eq _ _ Hc Hl).
  destruct (SparseFirst.localLength l <=? SparseFirst.localLength old) eqn:E;
    cbn [negb].
  - apply Z.leb_le in E.
    destruct (count (SparseFirst.h l) =? SparseFirst.localLength l) eqn:Ec;
      [apply Z.eqb_eq in Ec | apply Z.eqb_neq in Ec]; cbn [negb];
      eexists true, _; (split; [reflexivity|]);
      repeat split; intros; auto; try discriminate; try contradiction; try lia.
  - apply Z.leb_gt in E. eexists false, _. split; [reflexivity|].
    repeat split; intros; auto; try discriminate; try lia.
Qed.

Lemma first_reuse_vector_witness :
  exists b l',
    SparseFirst.reuse_vector
      (SparseFirst.mkVector (mkLayout 1 1 8) 1 6 2 0 None) 0 first_scenario_layout 0
      = Ret (b, l') /\
    (b = true <->
     SparseFirst.localLength (SparseFirst.mkVector (mkLayout 1 1 8) 1 6 2 0 None)
       <= SparseFirst.localLength first_scenario_layout) /\
    (b = true ->
     count (SparseFirst.h (SparseFirst.mkVector (mkLayout 1 1 8) 1 6 2 0 None))
       <> SparseFirst.localLength (SparseFirst.mkVector (mkLayout 1 1 8) 1 6 2 0 None) ->
     l' = SparseFirst.set_globalToLocalMap
            (SparseFirst.mkVector (mkLayout 1 1 8) 1 6 2 0 None)
            (SparseFirst.globalToLocalMap first_scenario_layout)) /\
    (b = true ->
     count (SparseFirst.h (SparseFirst.mkVector (mkLayout 1 1 8) 1 6 2 0 None))
       = SparseFirst.localLength (SparseFirst.mkVector (mkLayout 1 1 8) 1 6 2 0 None) ->
     l' = SparseFirst.mkVector (mkLayout 1 1 8) 1 6 2 0 None) /\
    (b = false -> l' = SparseFirst.mkVector (mkLayout 1 1 8) 1 6 2 0 None).
Proof.
  apply (first_reuse_vector (SparseFirst.mkVector (mkLayout 1 1 8) 1 6 2 0 None)
           first_scenario_layout 0 0).
  - cbn. lia.
  - unfold CInt.is_uint64. cbn. lia.
  - cbn. lia.
Defined.

End SparseFirstFacts.

(** ** Sparse layout: an exchange of external values *)

Module ExternalFacts.

Import VectorPack PackFacts Sparse SparseFacts ChunkFacts.

(** Successive queries for indices that are not owned, with the state they
    leave. *)
Lemma external_queries_state m gs : forall lv,
  globalToLocalMap lv = Some m ->
  external_state lv ->
  0 < numberOfExternalValues lv ->
  Forall (fun g => ~ owned m g) gs ->
  exists lv',
    offset_queries lv gs =
      Ret (map (fun k => localLength lv
                         + (external_cursor lv + Z.of_nat k) mod numberOfExternalValues lv)
               (seq 0 (length gs)), lv') /\
    globalToLocalMap lv' = Some m /\
    localLength lv' = localLength lv /\
    numberOfExternalValues lv' = numberOfExternalValues lv /\
    h lv' = h lv /\
    external_state lv' /\
    external_cursor lv' =
      (external_cursor lv + Z.of_nat (length gs)) mod numberOfExternalValues lv.
Proof.
  induction gs as [|g gs IH]; intros lv Hmap Hes HE Hall.
  - exists lv. cbn [offset_queries length seq map Z.of_nat].
    split; [reflexivity|]. split; [exact Hmap|]. do 3 (split; [reflexivity|]).
    split; [exact Hes|]. rewrite Z.add_0_r.
    symmetry. apply Z.mod_small.
    unfold external_cursor. destruct Hes as [_ Hc _].
    destruct (currentExternalVallue lv =? numberOfExternalValues lv) eqn:E;
      [lia | apply Z.eqb_neq in E; lia].
  - inversion Hall as [|? ? Hg Hgs]; subst.
    assert (Hc : 0 <= external_cursor lv < numberOfExternalValues lv).
    { unfold external_cursor. destruct Hes as [_ Hc _].
      destruct (currentExternalVallue lv =? numberOfExternalValues lv) eqn:E;
        [lia | apply Z.eqb_neq in E; lia]. }
    cbn [offset_queries].
    rewrite (offset_vector_external lv m g Hmap Hes HE Hg). cbn [bind fst snd].
    destruct (external_state_step lv Hes HE) as [Hes' Hcur'].
    set (lv1 := set_currentExternalVallue lv (external_cursor lv + 1)) in *.
    destruct (IH lv1 Hmap Hes' HE Hgs) as (lv' & Hq & Hm' & Hl' & HE' & Hh' & Hes'' & Hc').
    rewrite Hq. cbn [bind fst snd]. exists lv'.
    change (localLength lv1) with (localLength lv) in *.
    change (numberOfExternalValues lv1) with (numberOfExternalValues lv) in *.
    assert (Hshift : forall k,
              (external_cursor lv1 + Z.of_nat k) mod numberOfExternalValues lv =
              (external_cursor lv + Z.of_nat (S k)) mod numberOfExternalValues lv).
    { intros k. rewrite Hcur'.
      destruct (external_cursor lv + 1 =? numberOfExternalValues lv) eqn:E.
      - apply Z.eqb_eq in E.
        replace (external_cursor lv + Z.of_nat (S k))
          with (0 + Z.of_nat k + 1 * numberOfExternalValues lv) by lia.
        rewrite Z.mod_add by lia. reflexivity.
      - f_equal. lia. }
    split; [|split; [exact Hm'|split; [exact Hl'|split; [exact HE'|
             split; [exact Hh'|split; [exact Hes''|]]]]]].
    + f_equal. f_equal. cbn [length seq map]. f_equal.
      * f_equal. rewrite Z.add_0_r. symmetry. apply Z.mod_small. exact Hc.
      * rewrite <- seq_shift, map_map. apply map_ext. intros k.
        f_equal. apply Hshift.
    + rewrite Hc'. cbn [length]. apply Hshift.
Qed.

Lemma offsets_as_queries n : forall lv idx,
  offsets offset_vector n lv 0 idx = offset_queries lv (zrange idx n).
Proof.
  induction n as [|n IH]; intros lv idx; cbn [offsets zrange offset_queries].
  - reflexivity.
  - destruct (offset_vector lv 0 idx) as [[o l1]| | |]; cbn [bind fst snd];
      try reflexivity.
    rewrite IH. reflexivity.
Qed.

(** The [E] external slots in their order. *)
Definition external_slots (lv : Laik_Layout_Vector) : list Z :=
  map (fun k => localLength lv + Z.of_nat k)
      (seq 0 (Z.to_nat (numberOfExternalValues lv))).

(** [E] queries from cursor 0 go through the external slots once and leave
    the cursor where the next round starts at 0 again. *)
Lemma external_round lv m idx :
  globalToLocalMap lv = Some m ->
  external_state lv ->
  0 < numberOfExternalValues lv ->
  external_cursor lv = 0 ->
  (forall g, idx <= g < idx + numberOfExternalValues lv -> ~ owned m g) ->
  exists lv',
    offsets offset_vector (Z.to_nat (numberOfExternalValues lv)) lv 0 idx
      = Ret (external_slots lv, lv') /\
    globalToLocalMap lv' = Some m /\
    localLength lv' = localLength lv /\
    numberOfExternalValues lv' = numberOfExternalValues lv /\
    h lv' = h lv /\
    external_state lv' /\
    external_cursor lv' = 0.
Proof.
  intros Hmap Hes HE Hc Hout.
  set (n := Z.to_nat (numberOfExternalValues lv)).
  assert (Hall : Forall (fun g => ~ owned m g) (zrange idx n)).
  { apply Forall_forall. intros g Hg. apply In_zrange in Hg. apply Hout.
    subst n. lia. }
  destruct (external_queries_state m (zrange idx n) lv Hmap Hes HE Hall)
    as (lv' & Hq & Hm' & Hl' & HE' & Hh' & Hes' & Hc').
  exists lv'. rewrite offsets_as_queries, Hq.
  rewrite zrange_length in *. rewrite Hc in *.
  split; [|split; [exact Hm'|split; [exact Hl'|split; [exact HE'|
           split; [exact Hh'|split; [exact Hes'|]]]]]].
  - f_equal. f_equal. unfold external_slots. fold n.
    apply map_ext_in. intros k Hk. apply in_seq in Hk.
    rewrite Z.add_0_l, Z.mod_small by (subst n; lia). reflexivity.
  - rewrite Hc'. subst n. rewrite Z2Nat.id by lia.
    rewrite Z.add_0_l. apply Z.mod_same. lia.
Qed.

(** X19: an exchange of exactly [E] external values.  With the cursor at
    the start of the external block, [unpack_vector] over a range of [E]
    indices that are not owned puts chunk [k] of the buffer into the
    external slot [localLength + k] and leaves the local block alone;
    [pack_vector] over the same range on the layout as unpacking left it
    then reads the same slots in the same order, so its buffer holds what
    the first buffer held; and the cursor is back at the start. *)
Theorem external_values_round_trip
    (mp : Laik_Mapping Laik_Layout_Vector) (m : Laik_Map_Vector)
    (range : Laik_Range) (buf1 buf2 : Z) (mem : memory) :
  let lv := layout mp in
  let es := elemsize mp in
  let E := numberOfExternalValues lv in
  let len := localLength lv in
  globalToLocalMap lv = Some m ->
  external_state lv ->
  0 < E ->
  external_cursor lv = 0 ->
  layoutSection mp = 0 ->
  to range - from range = E ->
  (forall g, from range <= g < to range -> ~ owned m g) ->
  laik_range_within_range range (requiredRange mp) = true ->
  0 < es ->
  E * es < 2 ^ 32 ->
  apart buf1 (E * es) (start mp) ((len + E) * es) ->
  apart buf2 (E * es) (start mp) ((len + E) * es) ->
  exists lv1 mem1 lv2 mem2,
    unpack_vector mp range (from range) buf1 (E * es) mem
      = Ret (mkPacked E (to range) lv1 mem1) /\
    pack_vector (mkMapping lv1 0 (start mp) (requiredRange mp) es)
                range (from range) buf2 (E * es) mem1
      = Ret (mkPacked E (to range) lv2 mem2) /\
    (forall k b, 0 <= k < E -> 0 <= b < es ->
       mem1 (start mp + (len + k) * es + b) = mem (buf1 + k * es + b) /\
       mem2 (buf2 + k * es + b) = mem (buf1 + k * es + b)) /\
    (forall a, start mp <= a < start mp + len * es -> mem1 a = mem a) /\
    external_cursor lv2 = 0.
Proof.
  intros lv es E len Hmap Hes HE Hc Hsec Hn Hout Hw Hpos Hmax Hb1 Hb2.
  assert (Hlen : 0 <= len) by (destruct Hes; assumption).
  assert (Hout' : forall g, from range <= g < from range + E -> ~ owned m g)
    by (intros g Hg; apply Hout; lia).
  destruct (external_round lv m (from range) Hmap Hes HE Hc Hout')
    as (lv1 & Ho1 & Hm1 & Hl1 & HE1 & Hh1 & Hes1 & Hc1).
  assert (Hout1 : forall g, from range <= g < from range + numberOfExternalValues lv1 ->
                            ~ owned m g)
    by (intros g Hg; apply Hout; rewrite HE1 in Hg; fold E in Hg; lia).
  destruct (external_round lv1 m (from range) Hm1 Hes1 ltac:(rewrite HE1; exact HE)
              Hc1 Hout1)
    as (lv2 & Ho2 & Hm2 & Hl2 & HE2 & Hh2 & Hes2 & Hc2).
  assert (Hslots1 : external_slots lv1 = external_slots lv)
    by (unfold external_slots; rewrite Hl1, HE1; reflexivity).
  rewrite HE1 in Ho2. rewrite Hslots1 in Ho2. fold E in Ho1, Ho2.
  set (k0 := Z.to_nat (E - 1)).
  assert (Hk0 : Z.to_nat E = S k0) by (subst k0; lia).
  assert (Hk0' : E = Z.of_nat (S k0)) by (subst k0; lia).
  set (os := external_slots lv) in *.
  assert (Hos_len : length os = S k0).
  { subst os. unfold external_slots. rewrite length_map, length_seq. exact Hk0. }
  assert (Hos_nth : forall k o, nth_error os k = Some o -> o = len + Z.of_nat k).
  { intros k o Hk. subst os. unfold external_slots in Hk.
    rewrite nth_error_map in Hk.
    destruct (nth_error (seq 0 (Z.to_nat (numberOfExternalValues lv))) k) as [j|] eqn:Ej;
      [|discriminate].
    cbn [option_map] in Hk. injection Hk as <-.
    assert (Hklt : (k < length (seq 0 (Z.to_nat (numberOfExternalValues lv))))%nat)
      by (apply nth_error_Some; congruence).
    rewrite (nth_error_nth' _ 0%nat Hklt) in Ej. injection Ej as <-.
    rewrite seq_nth by (rewrite length_seq in Hklt; exact Hklt). reflexivity. }
  assert (Hos_in : forall o, In o os -> len <= o < len + E).
  { intros o Ho. subst os. unfold external_slots in Ho. apply in_map_iff in Ho.
    destruct Ho as (j & <- & Hj). apply in_seq in Hj. fold E in Hj. fold len. lia. }
  assert (Hos_has : forall k, 0 <= k < E -> nth_error os (Z.to_nat k) = Some (len + k)).
  { intros k Hk. subst os. unfold external_slots. rewrite nth_error_map.
    rewrite (nth_error_nth' _ 0%nat) by (rewrite length_seq; fold E; lia).
    rewrite seq_nth by (fold E; lia). cbn [option_map]. fold len. f_equal. lia. }
  exists lv1, (unpack_mem (start mp) es os buf1 mem).
  exists lv2, (pack_mem (start mp) es os buf2 (unpack_mem (start mp) es os buf1 mem)).
  split; [|split; [|split; [|split]]].
  - unfold unpack_vector, VectorPack.unpack_vector.
    replace (0 <? E * es) with true by (symmetry; apply Z.ltb_lt; nia).
    replace (from range =? to range) with false by (symmetry; apply Z.eqb_neq; lia).
    rewrite Hw. cbn [negb assert bind]. rewrite Hn, Hk0.
    rewrite (unpack_loop_run offset_vector mp range k0 (S k0) (layout mp) (from range)
               buf1 (E * es) 0 mem os lv1); fold es; try lia.
    + rewrite <- Hk0'. reflexivity.
    + rewrite Hsec, <- Hk0. exact Ho1.
  - unfold pack_vector, VectorPack.pack_vector.
    replace (from range =? to range) with false by (symmetry; apply Z.eqb_neq; lia).
    cbn [requiredRange layout]. rewrite Hw. cbn [assert bind]. rewrite Hn, Hk0.
    rewrite (pack_loop_run offset_vector _ range k0 (S k0) lv1 (from range)
               buf2 (E * es) 0 _ os lv2); cbn [elemsize start layoutSection]; try lia.
    + rewrite <- Hk0'. reflexivity.
    + rewrite <- Hk0. exact Ho2.
  - intros k b Hk Hb.
    assert (Hslot : unpack_mem (start mp) es os buf1 mem (start mp + (len + k) * es + b)
                    = mem (buf1 + k * es + b)).
    { replace (mem (buf1 + k * es + b))
        with ((fun o b => mem (buf1 + (o - len) * es + b)) (len + k) b)
        by (cbv beta; do 3 f_equal; lia).
      apply (unpack_mem_slots (start mp) es (len + E)
               (fun o b => mem (buf1 + (o - len) * es + b))); auto.
      - intros o Ho. apply Hos_in in Ho. lia.
      - rewrite Hos_len, <- Hk0'. exact Hb1.
      - intros j o b' Hj Hb'. apply Hos_nth in Hj. subst o. do 3 f_equal. lia.
      - eapply nth_error_In. apply Hos_has. exact Hk. }
    split; [exact Hslot|].
    replace (buf2 + k * es + b) with (buf2 + Z.of_nat (Z.to_nat k) * es + b)
      by (rewrite Z2Nat.id by lia; reflexivity).
    rewrite (pack_mem_buffer (start mp) es (len + E) os buf2 _ (Z.to_nat k) (len + k) b);
      auto.
    + intros o Ho. apply Hos_in in Ho. lia.
    + rewrite Hos_len, <- Hk0'. exact Hb2.
  - intros a Ha. apply unpack_mem_frame; [exact Hpos|].
    intros o Ho. apply Hos_in in Ho. nia.
  - exact Hc2.
Qed.

(** A mapping on the layout of section 8 with two external slots. *)
Definition external_at (st : Z) : Laik_Mapping Laik_Layout_Vector :=
  mkMapping (scenario_layout 2 0) 0 st (mkRange 0 12) 8.

Lemma external_values_round_trip_witness :
  exists lv1 mem1 lv2 mem2,
    unpack_vector (external_at 0) (mkRange 7 9) 7 2000 (2 * 8) sample_mem
      = Ret (mkPacked 2 9 lv1 mem1) /\
    pack_vector (mkMapping lv1 0 0 (mkRange 0 12) 8) (mkRange 7 9) 7 3000 (2 * 8) mem1
      = Ret (mkPacked 2 9 lv2 mem2) /\
    (forall k b, 0 <= k < 2 -> 0 <= b < 8 ->
       mem1 (0 + (6 + k) * 8 + b) = sample_mem (2000 + k * 8 + b) /\
       mem2 (3000 + k * 8 + b) = sample_mem (2000 + k * 8 + b)) /\
    (forall a, 0 <= a < 0 + 6 * 8 -> mem1 a = sample_mem a) /\
    external_cursor lv2 = 0.
Proof.
  apply (external_values_round_trip (external_at 0) scenario_map (mkRange 7 9)
           2000 3000 sample_mem);
    first [ reflexivity | cbn; lia | unfold apart; cbn; lia
          | apply scenario_external_state; lia | idtac ].
  intros g Hg. cbn in Hg. apply scenario_not_owned. lia.
Defined.

End ExternalFacts.

(** ** Markov chain example: the graph that [init] builds *)

Module MarkovFacts.

Import Partitioner Markov.

Lemma int_in_range z : - 2 ^ 31 <= z < 2 ^ 31 -> int z = Ret z.
Proof.
  intros H. unfold int.
  replace ((- 2 ^ 31 <=? z) && (z <? 2 ^ 31)) with true; [reflexivity|].
  symmetry. apply andb_true_iff. split; [apply Z.leb_le|apply Z.ltb_lt]; lia.
Qed.

Lemma int_rem_pos a b : 0 <= a -> 0 < b -> int_rem a b = Ret (a mod b).
Proof.
  intros Ha Hb. unfold int_rem.
  replace (b =? 0) with false by (symmetry; apply Z.eqb_neq; lia).
  replace (a =? - 2 ^ 31) with false by (symmetry; apply Z.eqb_neq; lia).
  cbn [orb andb]. rewrite Z.rem_mod_nonneg by lia. reflexivity.
Qed.

Lemma read_inside {A : Type} (a : array A) k :
  0 <= k < cells a -> read a k = Ret (elem a k).
Proof.
  intros H. unfold read.
  replace ((0 <=? k) && (k <? cells a)) with true; [reflexivity|].
  symmetry. apply andb_true_iff. split; [apply Z.leb_le|apply Z.ltb_lt]; lia.
Qed.

Lemma write_inside {A : Type} (a : array A) k v :
  0 <= k < cells a ->
  write a k v = Ret (mkArray (cells a) (fun x => if x =? k then v else elem a x)).
Proof.
  intros H. unfold write.
  replace ((0 <=? k) && (k <? cells a)) with true; [reflexivity|].
  symmetry. apply andb_true_iff. split; [apply Z.leb_le|apply Z.ltb_lt]; lia.
Qed.

Lemma write_outside {A : Type} (a : array A) k v :
  ~ 0 <= k < cells a -> write a k v = Undefined.
Proof.
  intros H. unfold write.
  replace ((0 <=? k) && (k <? cells a)) with false; [reflexivity|].
  symmetry. apply andb_false_iff.
  destruct (Z.leb_spec 0 k); [right; apply Z.ltb_ge; lia | left; reflexivity].
Qed.

(** The value of [step] at the start of round [j = k + 1] of the inner
    loop: 1 at first, then [2 * step + j] brought back into [1, n]. *)
Fixpoint step_at (num : Z) (k : nat) : Z :=
  match k with
  | O => 1
  | S k' => (2 * step_at num k' + Z.of_nat k - 1) mod num + 1
  end.

Lemma step_at_range num k : 1 <= num -> 1 <= step_at num k <= num.
Proof.
  intros Hn. destruct k as [|k]; cbn [step_at]; [lia|].
  pose proof (Z.mod_pos_bound (2 * step_at num k + Z.of_nat (S k) - 1) num ltac:(lia)).
  lia.
Qed.

Lemma reduce_loop_spec num : 1 <= num ->
  forall fuel s, 1 <= s < 2 ^ 31 -> (Z.to_nat s <= fuel)%nat ->
    reduce_loop fuel s num = Ret ((s - 1) mod num + 1).
Proof.
  intros Hn. induction fuel as [|fuel IH]; intros s Hs Hf.
  - lia.
  - cbn [reduce_loop]. destruct (Z.ltb_spec num s) as [Hlt|Hge].
    + rewrite int_in_range by lia. cbn [bind].
      rewrite IH by lia. f_equal. f_equal.
      replace (s - 1) with (s - num - 1 + 1 * num) by lia.
      rewrite Z.mod_add by lia. reflexivity.
    + rewrite Z.mod_small by lia. f_equal. lia.
Qed.

Section Graph.

Context {D : Type}.
Variable ops : DoubleOps D.
Variables num fan : Z.

(** The state that [cm] names at column [j] of row [i], and the weight
    that [pm] holds there before the normalization. *)
Definition raw_cm (i j : Z) : Z :=
  if j =? 0 then i else (i + step_at num (Z.to_nat (j - 1))) mod num.

Definition raw_pm (i j : Z) : D :=
  if j =? 0 then of_int ops 5
  else dadd ops (of_int ops ((j + i) mod (5 * fan))) (of_int ops 1).

(** What the rounds for the cells [l] add to [sum[k]]. *)
Definition acc_sum (k : Z) (l : list (Z * Z)) (x : D) : D :=
  fold_left (fun acc p => if raw_cm (fst p) (snd p) =? k
                          then dadd ops acc (raw_pm (fst p) (snd p)) else acc)
            l x.

(** Columns [j, j + m) of row [i]; the rows [i, i + m). *)
Definition row_from (i j : Z) (m : nat) : list (Z * Z) :=
  map (fun t => (i, j + Z.of_nat t)) (seq 0 m).

Definition rows_from (i : Z) (m : nat) : list (Z * Z) :=
  flat_map (fun t => row_from (i + Z.of_nat t) 0 (Z.to_nat (fan + 1))) (seq 0 m).

(** The divisor of state [k]: [sum[k]] after the second loop. *)
Definition total (k : Z) : D := acc_sum k (rows_from 0 (Z.to_nat num)) (d_zero ops).

Lemma acc_sum_app k l1 l2 x :
  acc_sum k (l1 ++ l2) x = acc_sum k l2 (acc_sum k l1 x).
Proof. unfold acc_sum. apply fold_left_app. Qed.

Lemma row_from_S i j m :
  row_from i j (S m) = (i, j) :: row_from i (j + 1) m.
Proof.
  unfold row_from. cbn [seq map]. f_equal; [f_equal; lia|].
  rewrite <- seq_shift, map_map. apply map_ext. intros t. f_equal. lia.
Qed.

Lemma rows_from_S i m :
  rows_from i (S m) = row_from i 0 (Z.to_nat (fan + 1)) ++ rows_from (i + 1) m.
Proof.
  unfold rows_from. cbn [seq flat_map]. f_equal; [f_equal; lia|].
  rewrite <- seq_shift, flat_map_concat_map, map_map, <- flat_map_concat_map.
  apply flat_map_ext. intros t. f_equal. lia.
Qed.

Hypothesis Hnum : 1 <= num.
Hypothesis Hfan : 0 <= fan.
Hypothesis Hstep : 2 * num + fan < 2 ^ 31.
Hypothesis Hfive : 5 * fan < 2 ^ 31.
Hypothesis Hcells : num * (fan + 1) < 2 ^ 31.

Lemma cell_inside i j :
  0 <= i < num -> 0 <= j <= fan ->
  cell fan i j = Ret (i * (fan + 1) + j) /\
  0 <= i * (fan + 1) + j < num * (fan + 1).
Proof.
  intros Hi Hj.
  assert (Hb : 0 <= i * (fan + 1) + j < num * (fan + 1)) by nia.
  split; [|exact Hb].
  unfold cell. rewrite int_in_range by nia. cbn [bind].
  rewrite int_in_range by nia. cbn [bind].
  apply int_in_range. lia.
Qed.

Lemma raw_cm_range i j : 0 <= i < num -> 0 <= raw_cm i j < num.
Proof.
  intros Hi. unfold raw_cm. destruct (j =? 0); [lia|].
  apply Z.mod_pos_bound. lia.
Qed.

(** In bounds: the block of [num * (fan + 1)] cells. *)
Definition in_row (i j c : Z) : bool :=
  (i * (fan + 1) + j <=? c) && (c <=? i * (fan + 1) + fan).

Definition in_rows (i c : Z) : bool :=
  (i * (fan + 1) <=? c) && (c <? num * (fan + 1)).

Lemma zero_loop_spec m : forall i sum,
  0 <= i -> i + Z.of_nat m = cells sum ->
  exists sum',
    zero_loop ops m i sum = Ret sum' /\
    cells sum' = cells sum /\
    forall k, elem sum' k = if (i <=? k) && (k <? cells sum)
                            then d_zero ops else elem sum k.
Proof.
  induction m as [|m IH]; intros i sum Hi Hm.
  - exists sum. split; [reflexivity|]. split; [reflexivity|].
    intros k. destruct (Z.leb_spec i k); destruct (Z.ltb_spec k (cells sum));
      cbn [andb]; try reflexivity; lia.
  - cbn [zero_loop]. rewrite write_inside by lia. cbn [bind].
    destruct (IH (i + 1) (mkArray (cells sum)
                            (fun x => if x =? i then d_zero ops else elem sum x)))
      as (sum' & Hrun & Hc & Hv); [lia|cbn [cells]; lia|].
    exists sum'. split; [exact Hrun|]. split; [exact Hc|].
    intros k. rewrite Hv. cbn [cells elem].
    destruct (Z.leb_spec (i + 1) k); destruct (Z.leb_spec i k);
      destruct (Z.ltb_spec k (cells sum)); destruct (Z.eqb_spec k i);
      cbn [andb]; try reflexivity; lia.
Qed.

Ltac run_step L := rewrite L; cbn [bind].

Lemma step_at_next j : 1 <= j ->
  step_at num (Z.to_nat (j + 1 - 1))
  = (2 * step_at num (Z.to_nat (j - 1)) + j - 1) mod num + 1.
Proof.
  intros Hj. replace (Z.to_nat (j + 1 - 1)) with (S (Z.to_nat (j - 1))) by lia.
  cbn [step_at]. do 2 f_equal. lia.
Qed.

Lemma in_row_false_past i c : in_row i (fan + 1) c = false.
Proof.
  unfold in_row. destruct (Z.leb_spec (i * (fan + 1) + (fan + 1)) c);
    destruct (Z.leb_spec c (i * (fan + 1) + fan)); cbn [andb]; try reflexivity; lia.
Qed.

Lemma in_row_step i j c : 0 <= j <= fan ->
  in_row i j c = (c =? i * (fan + 1) + j) || in_row i (j + 1) c.
Proof.
  intros Hj. unfold in_row.
  destruct (Z.leb_spec (i * (fan + 1) + j) c);
    destruct (Z.leb_spec (i * (fan + 1) + (j + 1)) c);
    destruct (Z.leb_spec c (i * (fan + 1) + fan));
    destruct (Z.eqb_spec c (i * (fan + 1) + j)); cbn [andb orb];
    try reflexivity; lia.
Qed.

(** The inner loop of the second loop of [init], rounds [j .. fan] of
    state [i]. *)
Lemma edge_loop_spec i : 0 <= i < num ->
  forall m j a,
  1 <= j -> j + Z.of_nat m = fan + 1 ->
  cells (a_sum a) = num ->
  num * (fan + 1) <= cells (a_cm a) ->
  num * (fan + 1) <= cells (a_pm a) ->
  exists a',
    edge_loop ops m num fan i j (step_at num (Z.to_nat (j - 1))) a = Ret a' /\
    cells (a_cm a') = cells (a_cm a) /\
    cells (a_pm a') = cells (a_pm a) /\
    cells (a_sum a') = cells (a_sum a) /\
    (forall c, elem (a_cm a') c =
       if in_row i j c then raw_cm i (c - i * (fan + 1)) else elem (a_cm a) c) /\
    (forall c, elem (a_pm a') c =
       if in_row i j c then raw_pm i (c - i * (fan + 1)) else elem (a_pm a) c) /\
    (forall k, elem (a_sum a') k = acc_sum k (row_from i j m) (elem (a_sum a) k)).
Proof.
  intros Hi. induction m as [|m IH]; intros j a Hj Hm Hs Hc Hp.
  - exists a. split; [reflexivity|].
    replace j with (fan + 1) by lia.
    repeat split; intros; try rewrite in_row_false_past; reflexivity.
  - pose proof (step_at_range num (Z.to_nat (j - 1)) Hnum) as Hst.
    set (step := step_at num (Z.to_nat (j - 1))) in *.
    assert (Hfrom : 0 <= (i + step) mod num < num) by (apply Z.mod_pos_bound; lia).
    destruct (cell_inside i j Hi ltac:(lia)) as [Hcell Hk].
    cbn [edge_loop].
    run_step (int_in_range (i + step) ltac:(lia)).
    run_step (int_rem_pos (i + step) num ltac:(lia) ltac:(lia)).
    run_step (int_in_range (j + i) ltac:(lia)).
    run_step (int_in_range (5 * fan) ltac:(lia)).
    run_step (int_rem_pos (j + i) (5 * fan) ltac:(lia) ltac:(lia)).
    run_step (read_inside (a_sum a) ((i + step) mod num) ltac:(lia)).
    run_step (write_inside (a_sum a) ((i + step) mod num)
                (dadd ops (elem (a_sum a) ((i + step) mod num))
                   (dadd ops (of_int ops ((j + i) mod (5 * fan))) (of_int ops 1)))
                ltac:(lia)).
    run_step Hcell.
    run_step (write_inside (a_cm a) (i * (fan + 1) + j) ((i + step) mod num) ltac:(lia)).
    run_step (write_inside (a_pm a) (i * (fan + 1) + j)
                (dadd ops (of_int ops ((j + i) mod (5 * fan))) (of_int ops 1))
                ltac:(lia)).
    run_step (int_in_range (2 * step) ltac:(lia)).
    run_step (int_in_range (2 * step + j) ltac:(lia)).
    run_step (reduce_loop_spec num Hnum (Z.to_nat (2 * step + j)) (2 * step + j)
                ltac:(lia) ltac:(lia)).
    run_step (int_in_range (j + 1) ltac:(lia)).
    pose proof (step_at_next j Hj) as Hnext. fold step in Hnext.
    rewrite <- Hnext.
    match goal with |- context [edge_loop ops m num fan i (j + 1) _ ?a1] =>
      destruct (IH (j + 1) a1) as (a' & Hrun & Hc1 & Hp1 & Hs1 & Hcm & Hpm & Hsum);
        [lia | lia | cbn [a_sum cells]; exact Hs | cbn [a_cm cells]; exact Hc
        | cbn [a_pm cells]; exact Hp |]
    end.
    exists a'. split; [exact Hrun|].
    cbn [a_cm a_pm a_sum cells elem] in Hc1, Hp1, Hs1, Hcm, Hpm, Hsum.
    assert (Hraw : raw_cm i j = (i + step) mod num).
    { unfold raw_cm. replace (j =? 0) with false by (symmetry; apply Z.eqb_neq; lia).
      reflexivity. }
    assert (Hrawp : raw_pm i j
                    = dadd ops (of_int ops ((j + i) mod (5 * fan))) (of_int ops 1)).
    { unfold raw_pm. replace (j =? 0) with false by (symmetry; apply Z.eqb_neq; lia).
      reflexivity. }
    split; [exact Hc1|]. split; [exact Hp1|]. split; [exact Hs1|].
    split; [|split].
    + intros c. rewrite Hcm, (in_row_step i j c) by lia.
      destruct (in_row i (j + 1) c) eqn:Er.
      * rewrite orb_true_r. reflexivity.
      * rewrite orb_false_r. destruct (Z.eqb_spec c (i * (fan + 1) + j)) as [->|]; [|reflexivity].
        replace (i * (fan + 1) + j - i * (fan + 1)) with j by lia. symmetry. exact Hraw.
    + intros c. rewrite Hpm, (in_row_step i j c) by lia.
      destruct (in_row i (j + 1) c) eqn:Er.
      * rewrite orb_true_r. reflexivity.
      * rewrite orb_false_r. destruct (Z.eqb_spec c (i * (fan + 1) + j)) as [->|]; [|reflexivity].
        replace (i * (fan + 1) + j - i * (fan + 1)) with j by lia. symmetry. exact Hrawp.
    + intros k. rewrite Hsum, row_from_S. unfold acc_sum at 2. cbn [fold_left fst snd].
      fold (acc_sum k (row_from i (j + 1) m)).
      f_equal. rewrite Hraw, Hrawp, (Z.eqb_sym k).
      destruct (Z.eqb_spec ((i + step) mod num) k) as [->|]; reflexivity.
Qed.

Lemma row_div_mod i c :
  i * (fan + 1) <= c <= i * (fan + 1) + fan ->
  c / (fan + 1) = i /\ c mod (fan + 1) = c - i * (fan + 1).
Proof.
  intros H. split.
  - symmetry. apply Z.div_unique with (r := c - i * (fan + 1)); lia.
  - symmetry. apply Z.mod_unique with (q := i); lia.
Qed.

Lemma in_rows_false_past c : in_rows num c = false.
Proof.
  unfold in_rows. destruct (Z.leb_spec (num * (fan + 1)) c);
    destruct (Z.ltb_spec c (num * (fan + 1))); cbn [andb]; try reflexivity; lia.
Qed.

Lemma in_rows_step i c : 0 <= i < num ->
  in_rows i c = (c =? i * (fan + 1)) || in_row i 1 c || in_rows (i + 1) c.
Proof.
  intros Hi. unfold in_rows, in_row.
  assert ((i + 1) * (fan + 1) <= num * (fan + 1)) by nia.
  destruct (Z.leb_spec (i * (fan + 1)) c);
    destruct (Z.leb_spec ((i + 1) * (fan + 1)) c);
    destruct (Z.leb_spec (i * (fan + 1) + 1) c);
    destruct (Z.leb_spec c (i * (fan + 1) + fan));
    destruct (Z.ltb_spec c (num * (fan + 1)));
    destruct (Z.eqb_spec c (i * (fan + 1))); cbn [andb orb];
    try reflexivity; lia.
Qed.

Lemma in_row_bounds i j c :
  in_row i j c = true -> i * (fan + 1) + j <= c <= i * (fan + 1) + fan.
Proof.
  unfold in_row. intros H. apply andb_true_iff in H. destruct H as [H1 H2].
  apply Z.leb_le in H1. apply Z.leb_le in H2. lia.
Qed.

(** The second loop of [init], states [i .. num). *)
Lemma ring_loop_spec : forall m i a,
  0 <= i -> i + Z.of_nat m = num ->
  cells (a_sum a) = num ->
  num * (fan + 1) <= cells (a_cm a) ->
  num * (fan + 1) <= cells (a_pm a) ->
  exists a',
    ring_loop ops m num fan i a = Ret a' /\
    cells (a_cm a') = cells (a_cm a) /\
    cells (a_pm a') = cells (a_pm a) /\
    cells (a_sum a') = cells (a_sum a) /\
    (forall c, elem (a_cm a') c =
       if in_rows i c then raw_cm (c / (fan + 1)) (c mod (fan + 1))
       else elem (a_cm a) c) /\
    (forall c, elem (a_pm a') c =
       if in_rows i c then raw_pm (c / (fan + 1)) (c mod (fan + 1))
       else elem (a_pm a) c) /\
    (forall k, elem (a_sum a') k = acc_sum k (rows_from i m) (elem (a_sum a) k)).
Proof.
  induction m as [|m IH]; intros i a Hi Hm Hs Hc Hp.
  - exists a. split; [reflexivity|].
    replace i with num by lia.
    repeat split; intros; try rewrite in_rows_false_past; reflexivity.
  - assert (Hi' : 0 <= i < num) by lia.
    destruct (cell_inside i 0 Hi' ltac:(lia)) as [Hcell Hk].
    replace (i * (fan + 1) + 0) with (i * (fan + 1)) in Hcell, Hk by lia.
    cbn [ring_loop].
    run_step Hcell.
    run_step (write_inside (a_cm a) (i * (fan + 1)) i ltac:(lia)).
    run_step (write_inside (a_pm a) (i * (fan + 1)) (of_int ops 5) ltac:(lia)).
    run_step (read_inside (a_sum a) i ltac:(lia)).
    run_step (write_inside (a_sum a) i (dadd ops (elem (a_sum a) i) (of_int ops 5))
                ltac:(lia)).
    match goal with |- context [edge_loop ops _ num fan i 1 1 ?a1] =>
      destruct (edge_loop_spec i Hi' (Z.to_nat fan) 1 a1)
        as (a2 & Hrun2 & Hc2 & Hp2 & Hs2 & Hcm2 & Hpm2 & Hsum2);
        [lia | lia | cbn [a_sum cells]; exact Hs | cbn [a_cm cells]; exact Hc
        | cbn [a_pm cells]; exact Hp |]
    end.
    change (step_at num (Z.to_nat (1 - 1))) with 1 in Hrun2.
    run_step Hrun2.
    cbn [a_cm a_pm a_sum cells elem] in Hc2, Hp2, Hs2, Hcm2, Hpm2, Hsum2.
    destruct (IH (i + 1) a2) as (a' & Hrun & Hc3 & Hp3 & Hs3 & Hcm & Hpm & Hsum);
      [lia | lia | lia | lia | lia |].
    exists a'. split; [exact Hrun|].
    split; [lia|]. split; [lia|]. split; [lia|].
    split; [|split].
    + intros c. rewrite Hcm, Hcm2, (in_rows_step i c Hi').
      destruct (in_rows (i + 1) c) eqn:E3; [rewrite orb_true_r; reflexivity|].
      rewrite orb_false_r.
      destruct (in_row i 1 c) eqn:E2.
      * rewrite orb_true_r. apply in_row_bounds in E2.
        destruct (row_div_mod i c ltac:(lia)) as [-> ->]. reflexivity.
      * rewrite orb_false_r.
        destruct (Z.eqb_spec c (i * (fan + 1))) as [->|]; [|reflexivity].
        destruct (row_div_mod i (i * (fan + 1)) ltac:(lia)) as [-> ->].
        replace (i * (fan + 1) - i * (fan + 1)) with 0 by lia. reflexivity.
    + intros c. rewrite Hpm, Hpm2, (in_rows_step i c Hi').
      destruct (in_rows (i + 1) c) eqn:E3; [rewrite orb_true_r; reflexivity|].
      rewrite orb_false_r.
      destruct (in_row i 1 c) eqn:E2.
      * rewrite orb_true_r. apply in_row_bounds in E2.
        destruct (row_div_mod i c ltac:(lia)) as [-> ->]. reflexivity.
      * rewrite orb_false_r.
        destruct (Z.eqb_spec c (i * (fan + 1))) as [->|]; [|reflexivity].
        destruct (row_div_mod i (i * (fan + 1)) ltac:(lia)) as [-> ->].
        replace (i * (fan + 1) - i * (fan + 1)) with 0 by lia. reflexivity.
    + intros k. rewrite Hsum, Hsum2, rows_from_S, acc_sum_app.
      replace (Z.to_nat (fan + 1)) with (S (Z.to_nat fan)) by lia.
      rewrite row_from_S. change (0 + 1) with 1.
      f_equal. unfold acc_sum at 2. cbn [fold_left fst snd].
      fold (acc_sum k (row_from i 1 (Z.to_nat fan))).
      f_equal. unfold raw_cm, raw_pm. cbn [Z.eqb]. rewrite (Z.eqb_sym k).
      destruct (Z.eqb_spec i k) as [->|]; reflexivity.
Qed.

Lemma in_rows_row i c : 0 <= i < num ->
  in_rows i c = in_row i 0 c || in_rows (i + 1) c.
Proof.
  intros Hi. unfold in_rows, in_row.
  assert ((i + 1) * (fan + 1) <= num * (fan + 1)) by nia.
  destruct (Z.leb_spec (i * (fan + 1)) c);
    destruct (Z.leb_spec ((i + 1) * (fan + 1)) c);
    destruct (Z.leb_spec (i * (fan + 1) + 0) c);
    destruct (Z.leb_spec c (i * (fan + 1) + fan));
    destruct (Z.ltb_spec c (num * (fan + 1))); cbn [andb orb];
    try reflexivity; lia.
Qed.

(** The inner loop of the normalization, columns [j .. fan] of state
    [i]. *)
Lemma divide_loop_spec i : 0 <= i < num ->
  forall m j a,
  0 <= j -> j + Z.of_nat m = fan + 1 ->
  cells (a_sum a) = num ->
  num * (fan + 1) <= cells (a_cm a) ->
  num * (fan + 1) <= cells (a_pm a) ->
  (forall c, in_row i j c = true -> 0 <= elem (a_cm a) c < num) ->
  exists a',
    divide_loop ops m fan i j a = Ret a' /\
    a_cm a' = a_cm a /\
    a_sum a' = a_sum a /\
    cells (a_pm a') = cells (a_pm a) /\
    (forall c, elem (a_pm a') c =
       if in_row i j c
       then ddiv ops (elem (a_pm a) c) (elem (a_sum a) (elem (a_cm a) c))
       else elem (a_pm a) c).
Proof.
  intros Hi. induction m as [|m IH]; intros j a Hj Hm Hs Hc Hp Hcm.
  - exists a. split; [reflexivity|].
    replace j with (fan + 1) by lia.
    repeat split; intros; try rewrite in_row_false_past; reflexivity.
  - destruct (cell_inside i j Hi ltac:(lia)) as [Hcell Hk].
    assert (Hin : in_row i j (i * (fan + 1) + j) = true).
    { rewrite in_row_step by lia. rewrite Z.eqb_refl. reflexivity. }
    pose proof (Hcm _ Hin) as Hv.
    cbn [divide_loop].
    run_step Hcell.
    run_step (read_inside (a_pm a) (i * (fan + 1) + j) ltac:(lia)).
    run_step (read_inside (a_cm a) (i * (fan + 1) + j) ltac:(lia)).
    run_step (read_inside (a_sum a) (elem (a_cm a) (i * (fan + 1) + j)) ltac:(lia)).
    run_step (write_inside (a_pm a) (i * (fan + 1) + j)
                (ddiv ops (elem (a_pm a) (i * (fan + 1) + j))
                   (elem (a_sum a) (elem (a_cm a) (i * (fan + 1) + j))))
                ltac:(lia)).
    run_step (int_in_range (j + 1) ltac:(nia)).
    match goal with |- context [divide_loop ops m fan i (j + 1) ?a1] =>
      destruct (IH (j + 1) a1) as (a' & Hrun & Hcm' & Hsum' & Hp' & Hpm);
        [lia | lia | cbn [a_sum]; exact Hs | cbn [a_cm]; exact Hc
        | cbn [a_pm cells]; exact Hp
        | cbn [a_cm]; intros c Hc1; apply Hcm;
          rewrite in_row_step by lia; rewrite Hc1; apply orb_true_r |]
    end.
    exists a'. split; [exact Hrun|].
    cbn [a_cm a_pm a_sum cells elem] in Hcm', Hsum', Hp', Hpm.
    split; [exact Hcm'|]. split; [exact Hsum'|]. split; [exact Hp'|].
    intros c. rewrite Hpm, (in_row_step i j c) by lia.
    destruct (in_row i (j + 1) c) eqn:Er.
    + rewrite orb_true_r. apply in_row_bounds in Er.
      replace (c =? i * (fan + 1) + j) with false by (symmetry; apply Z.eqb_neq; lia).
      reflexivity.
    + rewrite orb_false_r.
      destruct (Z.eqb_spec c (i * (fan + 1) + j)) as [->|]; reflexivity.
Qed.

(** The normalization loop of [init], states [i .. num). *)
Lemma normalize_loop_spec : forall m i a,
  0 <= i -> i + Z.of_nat m = num ->
  cells (a_sum a) = num ->
  num * (fan + 1) <= cells (a_cm a) ->
  num * (fan + 1) <= cells (a_pm a) ->
  (forall c, in_rows i c = true -> 0 <= elem (a_cm a) c < num) ->
  exists a',
    normalize_loop ops m fan i a = Ret a' /\
    a_cm a' = a_cm a /\
    a_sum a' = a_sum a /\
    cells (a_pm a') = cells (a_pm a) /\
    (forall c, elem (a_pm a') c =
       if in_rows i c
       then ddiv ops (elem (a_pm a) c) (elem (a_sum a) (elem (a_cm a) c))
       else elem (a_pm a) c).
Proof.
  induction m as [|m IH]; intros i a Hi Hm Hs Hc Hp Hcm.
  - exists a. split; [reflexivity|].
    replace i with num by lia.
    repeat split; intros; try rewrite in_rows_false_past; reflexivity.
  - assert (Hi' : 0 <= i < num) by lia.
    cbn [normalize_loop].
    destruct (divide_loop_spec i Hi' (Z.to_nat (fan + 1)) 0 a)
      as (a1 & Hrun1 & Hcm1 & Hsum1 & Hp1 & Hpm1);
      [lia | lia | exact Hs | exact Hc | exact Hp
      | intros c Hc1; apply Hcm; rewrite in_rows_row by lia; rewrite Hc1; reflexivity |].
    run_step Hrun1.
    destruct (IH (i + 1) a1) as (a' & Hrun & Hcm' & Hsum' & Hp' & Hpm);
      [lia | lia | rewrite Hsum1; exact Hs | rewrite Hcm1; exact Hc | lia
      | rewrite Hcm1; intros c Hc1; apply Hcm; rewrite in_rows_row by lia;
        rewrite Hc1; apply orb_true_r |].
    exists a'. split; [exact Hrun|].
    split; [congruence|]. split; [congruence|]. split; [lia|].
    intros c. rewrite Hpm, Hpm1, Hcm1, Hsum1, (in_rows_row i c Hi').
    destruct (in_rows (i + 1) c) eqn:E3.
    + rewrite orb_true_r.
      replace (in_row i 0 c) with false; [reflexivity|].
      symmetry. unfold in_rows in E3. apply andb_true_iff in E3. destruct E3 as [E3 _].
      apply Z.leb_le in E3. unfold in_row.
      apply andb_false_iff. right. apply Z.leb_gt. lia.
    + rewrite orb_false_r. reflexivity.
Qed.

Lemma in_rows_bounds c : in_rows 0 c = true -> 0 <= c < num * (fan + 1).
Proof.
  unfold in_rows. intros H. apply andb_true_iff in H. destruct H as [H1 H2].
  apply Z.leb_le in H1. apply Z.ltb_lt in H2. lia.
Qed.

Lemma cell_row c : 0 <= c < num * (fan + 1) ->
  0 <= c / (fan + 1) < num /\ 0 <= c mod (fan + 1) <= fan.
Proof.
  intros H. split.
  - split; [apply Z.div_pos; lia|]. apply Z.div_lt_upper_bound; lia.
  - pose proof (Z.mod_pos_bound c (fan + 1) ltac:(lia)). lia.
Qed.

(** The three loops of [init] in closed form. *)
Lemma init_run_spec (mg : MGraph D) (sum0 : Z -> D) :
  n mg = num -> in_ mg = fan ->
  num * (fan + 1) <= cells (cm mg) ->
  num * (fan + 1) <= cells (pm mg) ->
  exists a,
    init_run ops mg sum0 = Ret a /\
    cells (a_cm a) = cells (cm mg) /\
    cells (a_pm a) = cells (pm mg) /\
    (forall c, elem (a_cm a) c =
       if in_rows 0 c then raw_cm (c / (fan + 1)) (c mod (fan + 1))
       else elem (cm mg) c) /\
    (forall c, elem (a_pm a) c =
       if in_rows 0 c
       then ddiv ops (raw_pm (c / (fan + 1)) (c mod (fan + 1)))
                     (total (raw_cm (c / (fan + 1)) (c mod (fan + 1))))
       else elem (pm mg) c) /\
    (forall k, 0 <= k < num -> elem (a_sum a) k = total k).
Proof.
  intros Hn Hi Hc Hp. unfold init_run. rewrite Hn, Hi.
  destruct (zero_loop_spec (Z.to_nat num) 0 (mkArray num sum0))
    as (s0 & Hrun0 & Hc0 & Hv0); [lia | cbn [cells]; lia |].
  cbn [cells] in Hc0, Hv0. run_step Hrun0.
  destruct (ring_loop_spec (Z.to_nat num) 0 (mkArrays (cm mg) (pm mg) s0))
    as (a1 & Hrun1 & Hc1 & Hp1 & Hs1 & Hcm1 & Hpm1 & Hsum1);
    [lia | lia | exact Hc0 | exact Hc | exact Hp |].
  cbn [a_cm a_pm a_sum] in Hc1, Hp1, Hs1, Hcm1, Hpm1, Hsum1. run_step Hrun1.
  destruct (normalize_loop_spec (Z.to_nat num) 0 a1)
    as (a2 & Hrun2 & Hcm2 & Hsum2 & Hp2 & Hpm2);
    [lia | lia | lia | lia | lia | |].
  { intros c Hin. rewrite Hcm1, Hin. apply raw_cm_range.
    apply cell_row. apply in_rows_bounds. exact Hin. }
  assert (Htot : forall k, 0 <= k < num -> elem (a_sum a1) k = total k).
  { intros k Hk. rewrite Hsum1, Hv0. unfold total.
    replace ((0 <=? k) && (k <? num)) with true; [reflexivity|].
    symmetry. apply andb_true_iff. split; [apply Z.leb_le|apply Z.ltb_lt]; lia. }
  exists a2. split; [exact Hrun2|].
  rewrite Hcm2, Hsum2. split; [exact Hc1|]. split; [lia|].
  split; [exact Hcm1|]. split; [|exact Htot].
  intros c. rewrite Hpm2, Hpm1, Hcm1.
  destruct (in_rows 0 c) eqn:Hin; [|reflexivity].
  rewrite Htot; [reflexivity|].
  apply raw_cm_range. apply cell_row. apply in_rows_bounds. exact Hin.
Qed.

Lemma in_rows_inside c : 0 <= c < num * (fan + 1) -> in_rows 0 c = true.
Proof.
  intros H. unfold in_rows. apply andb_true_iff.
  split; [apply Z.leb_le|apply Z.ltb_lt]; lia.
Qed.

Lemma in_rows_outside c : ~ 0 <= c < num * (fan + 1) -> in_rows 0 c = false.
Proof.
  intros H. unfold in_rows. apply andb_false_iff.
  destruct (Z.leb_spec (0 * (fan + 1)) c); [right; apply Z.ltb_ge; lia | left; reflexivity].
Qed.

Lemma in_rows_cell i j : 0 <= i < num -> 0 <= j <= fan ->
  in_rows 0 (i * (fan + 1) + j) = true /\
  (i * (fan + 1) + j) / (fan + 1) = i /\
  (i * (fan + 1) + j) mod (fan + 1) = j.
Proof.
  intros Hi Hj. split.
  - apply in_rows_inside. nia.
  - destruct (row_div_mod i (i * (fan + 1) + j) ltac:(lia)) as [H1 H2].
    split; [exact H1|]. rewrite H2. lia.
Qed.

End Graph.

(** X20: for [n >= 1] states with fan-in [in >= 0], sizes that keep the
    [int] arithmetic in range and arrays of at least [n * (in + 1)] cells,
    [init] returns, whatever the arithmetic of [double] is and whatever the
    arrays and the block of [sum] held.  Row [i] of [cm] then starts with
    [i] itself; its column [j >= 1] holds [(i + step) mod n], where [step]
    is 1 for the first column and [2 * step + j] brought back into
    [1, n] for the next one.  Every entry of [cm] is a state of [0, n),
    and row [i] is row 0 turned on by [i] states round the ring.  The
    cells of [cm] and [pm] behind the [n * (in + 1)] of the graph are not
    touched. *)
Theorem init_connectivity {D : Type} (ops : DoubleOps D)
    (mg : MGraph D) (sum0 : Z -> D) :
  let w := in_ mg + 1 in
  1 <= n mg ->
  0 <= in_ mg ->
  2 * n mg + in_ mg < 2 ^ 31 ->
  5 * in_ mg < 2 ^ 31 ->
  n mg * w < 2 ^ 31 ->
  n mg * w <= cells (cm mg) ->
  n mg * w <= cells (pm mg) ->
  exists mg',
    init ops mg sum0 = Ret mg' /\
    n mg' = n mg /\ in_ mg' = in_ mg /\
    cells (cm mg') = cells (cm mg) /\ cells (pm mg') = cells (pm mg) /\
    (forall i, 0 <= i < n mg -> elem (cm mg') (i * w) = i) /\
    (forall i j, 0 <= i < n mg -> 1 <= j <= in_ mg ->
       elem (cm mg') (i * w + j)
       = (i + step_at (n mg) (Z.to_nat (j - 1))) mod n mg) /\
    (forall i j, 0 <= i < n mg -> 0 <= j <= in_ mg ->
       0 <= elem (cm mg') (i * w + j) < n mg /\
       elem (cm mg') (i * w + j) = (i + elem (cm mg') j) mod n mg) /\
    (forall c, ~ 0 <= c < n mg * w ->
       elem (cm mg') c = elem (cm mg) c /\ elem (pm mg') c = elem (pm mg) c).
Proof.
  intros w Hn Hi Hstep Hfive Hcells Hc Hp. subst w.
  destruct (init_run_spec ops (n mg) (in_ mg) Hn Hi Hstep Hfive Hcells mg sum0
              eq_refl eq_refl Hc Hp)
    as (a & Hrun & Hcc & Hcp & Hcm & Hpm & _).
  exists (mkMGraph (n mg) (in_ mg) (a_cm a) (a_pm a)).
  unfold init. rewrite Hrun. cbn [bind n in_ cm pm].
  assert (Hcell : forall i j, 0 <= i < n mg -> 0 <= j <= in_ mg ->
            elem (a_cm a) (i * (in_ mg + 1) + j) = raw_cm (n mg) i j).
  { intros i j Hi' Hj. rewrite Hcm.
    destruct (in_rows_cell (n mg) (in_ mg) Hi i j Hi' Hj) as (-> & -> & ->).
    reflexivity. }
  split; [reflexivity|]. split; [reflexivity|]. split; [reflexivity|].
  split; [exact Hcc|]. split; [exact Hcp|].
  split; [|split; [|split]].
  - intros i Hi'. replace (i * (in_ mg + 1)) with (i * (in_ mg + 1) + 0) by lia.
    rewrite Hcell by lia. reflexivity.
  - intros i j Hi' Hj. rewrite Hcell by lia. unfold raw_cm.
    replace (j =? 0) with false by (symmetry; apply Z.eqb_neq; lia). reflexivity.
  - intros i j Hi' Hj. rewrite Hcell by lia.
    split; [apply raw_cm_range; lia|].
    replace j with (0 * (in_ mg + 1) + j) at 2 by lia.
    rewrite Hcell by lia. unfold raw_cm.
    destruct (Z.eqb_spec j 0) as [->|Hj0].
    + rewrite Z.add_0_r, Z.mod_small by lia. reflexivity.
    + rewrite Z.add_0_l, Zplus_mod_idemp_r. reflexivity.
  - intros c Hout. rewrite Hcm, Hpm, in_rows_outside by lia. split; reflexivity.
Qed.

(** A graph of five states with fan-in 2, in arrays of 15 cells. *)
Definition sample_graph : MGraph float :=
  mkMGraph 5 2 (mkArray 15 (fun _ => 0)) (mkArray 15 (fun _ => 0%float)).

Lemma init_connectivity_witness :
  exists mg',
    init binary64 sample_graph (fun _ => 0%float) = Ret mg' /\
    n mg' = 5 /\ in_ mg' = 2 /\
    cells (cm mg') = 15 /\ cells (pm mg') = 15 /\
    (forall i, 0 <= i < 5 -> elem (cm mg') (i * 3) = i) /\
    (forall i j, 0 <= i < 5 -> 1 <= j <= 2 ->
       elem (cm mg') (i * 3 + j) = (i + step_at 5 (Z.to_nat (j - 1))) mod 5) /\
    (forall i j, 0 <= i < 5 -> 0 <= j <= 2 ->
       0 <= elem (cm mg') (i * 3 + j) < 5 /\
       elem (cm mg') (i * 3 + j) = (i + elem (cm mg') j) mod 5) /\
    (forall c, ~ 0 <= c < 5 * 3 ->
       elem (cm mg') c = 0 /\ elem (pm mg') c = 0%float).
Proof.
  apply (init_connectivity binary64 sample_graph (fun _ => 0%float));
    cbn; lia.
Defined.

(** *** The probabilities, in exact arithmetic *)


Section ExactGraph.

Variables num fan : Z.
Hypothesis Hnum : 1 <= num.
Hypothesis Hfan : 0 <= fan.













End ExactGraph.






(** *** What [init] needs of the arrays *)

(** [init] has no assertion: a call returns or leaves the defined
    behaviour. *)
Definition returns_or_undefined {A : Type} (o : outcome A) : Prop :=
  (exists a, o = Ret a) \/ o = Undefined.

Lemma bind_rou {A B : Type} (o : outcome A) (k : A -> outcome B) :
  returns_or_undefined o -> (forall a, returns_or_undefined (k a)) ->
  returns_or_undefined (bind o k).
Proof.
  intros [[a ->]| ->] Hk; [apply Hk | right; reflexivity].
Qed.

Lemma ret_rou {A : Type} (a : A) : returns_or_undefined (Ret a).
Proof. left. exists a. reflexivity. Qed.

Lemma int_rou z : returns_or_undefined (int z).
Proof. unfold int. destruct (_ && _); [apply ret_rou | right; reflexivity]. Qed.

Lemma int_rem_rou a b : returns_or_undefined (int_rem a b).
Proof. unfold int_rem. destruct (_ || _); [right; reflexivity | apply ret_rou]. Qed.

Lemma read_rou {A : Type} (a : array A) k : returns_or_undefined (read a k).
Proof. unfold read. destruct (_ && _); [apply ret_rou | right; reflexivity]. Qed.

Lemma write_rou {A : Type} (a : array A) k v : returns_or_undefined (write a k v).
Proof. unfold write. destruct (_ && _); [apply ret_rou | right; reflexivity]. Qed.

Ltac rou_step :=
  first [ apply ret_rou | apply int_rou | apply int_rem_rou | apply read_rou
        | apply write_rou | apply bind_rou; [|intros ?] ].

Lemma cell_rou fan i j : returns_or_undefined (cell fan i j).
Proof. unfold cell. repeat rou_step. Qed.

Lemma reduce_loop_rou fuel : forall step num,
  returns_or_undefined (reduce_loop fuel step num).
Proof.
  induction fuel as [|fuel IH]; intros step num; cbn [reduce_loop];
    destruct (num <? step); try apply ret_rou; [right; reflexivity|].
  apply bind_rou; [apply int_rou | intros s; apply IH].
Qed.

Section NoStop.

Context {D : Type}.
Variable ops : DoubleOps D.

Lemma zero_loop_rou fuel : forall i sum,
  returns_or_undefined (zero_loop ops fuel i sum).
Proof.
  induction fuel as [|fuel IH]; intros i sum; cbn [zero_loop]; [apply ret_rou|].
  apply bind_rou; [apply write_rou | intros s; apply IH].
Qed.

Lemma edge_loop_rou fuel : forall num fan i j step a,
  returns_or_undefined (edge_loop ops fuel num fan i j step a).
Proof.
  induction fuel as [|fuel IH]; intros num fan i j step a; cbn [edge_loop];
    [apply ret_rou|].
  repeat first [ apply IH | apply cell_rou | apply reduce_loop_rou | rou_step ].
Qed.

Lemma ring_loop_rou fuel : forall num fan i a,
  returns_or_undefined (ring_loop ops fuel num fan i a).
Proof.
  induction fuel as [|fuel IH]; intros num fan i a; cbn [ring_loop];
    [apply ret_rou|].
  repeat first [ apply IH | apply cell_rou | apply edge_loop_rou | rou_step ].
Qed.

Lemma divide_loop_rou fuel : forall fan i j a,
  returns_or_undefined (divide_loop ops fuel fan i j a).
Proof.
  induction fuel as [|fuel IH]; intros fan i j a; cbn [divide_loop];
    [apply ret_rou|].
  repeat first [ apply IH | apply cell_rou | rou_step ].
Qed.

Lemma normalize_loop_rou fuel : forall fan i a,
  returns_or_undefined (normalize_loop ops fuel fan i a).
Proof.
  induction fuel as [|fuel IH]; intros fan i a; cbn [normalize_loop];
    [apply ret_rou|].
  apply bind_rou; [apply divide_loop_rou | intros a'; apply IH].
Qed.

Lemma init_rou (mg : MGraph D) sum0 : returns_or_undefined (init ops mg sum0).
Proof.
  unfold init, init_run.
  repeat first [ apply zero_loop_rou | apply ring_loop_rou
               | apply normalize_loop_rou | rou_step ].
Qed.

(** What a returning call has passed. *)
Lemma bind_ret {A B : Type} (o : outcome A) (k : A -> outcome B) b :
  bind o k = Ret b -> exists a, o = Ret a /\ k a = Ret b.
Proof.
  destruct o as [a| | |]; cbn [bind]; intros H; try discriminate.
  exists a. split; [reflexivity | exact H].
Qed.

Lemma int_ret z z' : int z = Ret z' -> z' = z.
Proof.
  unfold int. destruct (_ && _); intros H; [|discriminate].
  injection H as <-. reflexivity.
Qed.

Lemma cell_ret fan i j k : cell fan i j = Ret k -> k = i * (fan + 1) + j.
Proof.
  unfold cell. intros H.
  apply bind_ret in H. destruct H as (w & Hw & H). apply int_ret in Hw.
  apply bind_ret in H. destruct H as (r & Hr & H). apply int_ret in Hr.
  apply int_ret in H. subst. reflexivity.
Qed.

Lemma write_ret {A : Type} (a : array A) k v a' :
  write a k v = Ret a' -> 0 <= k < cells a /\ cells a' = cells a.
Proof.
  unfold write. destruct (Z.leb_spec 0 k); destruct (Z.ltb_spec k (cells a));
    cbn [andb]; intros Hw; try discriminate.
  injection Hw as <-. cbn [cells]. lia.
Qed.

Ltac bind_inv H :=
  let x := fresh "x" in let E := fresh "E" in let H' := fresh "H" in
  apply bind_ret in H; destruct H as (x & E & H'); rename H' into H.

Ltac ret_facts :=
  repeat match goal with
         | E : write _ _ _ = Ret _ |- _ => apply write_ret in E
         | E : cell _ _ _ = Ret _ |- _ => apply cell_ret in E
         | E : int (_ + 1) = Ret _ |- _ => apply int_ret in E
         end.

Lemma edge_loop_cells fuel : forall num fan i j step a a',
  edge_loop ops fuel num fan i j step a = Ret a' ->
  cells (a_cm a') = cells (a_cm a) /\ cells (a_pm a') = cells (a_pm a).
Proof.
  induction fuel as [|fuel IH]; intros num fan i j step a a' H.
  - injection H as <-. split; reflexivity.
  - cbn [edge_loop] in H. do 15 bind_inv H.
    apply IH in H. cbn [a_cm a_pm] in H. ret_facts. lia.
Qed.

Lemma edge_loop_last fuel : forall num fan i j step a a',
  (1 <= fuel)%nat -> j + Z.of_nat fuel = fan + 1 ->
  edge_loop ops fuel num fan i j step a = Ret a' ->
  i * (fan + 1) + fan < cells (a_cm a) /\
  i * (fan + 1) + fan < cells (a_pm a).
Proof.
  induction fuel as [|fuel IH]; intros num fan i j step a a' Hf Hj H; [lia|].
  cbn [edge_loop] in H. do 15 bind_inv H. ret_facts. subst.
  destruct fuel as [|fuel].
  - lia.
  - apply IH in H; [|lia|lia]. cbn [a_cm a_pm] in H. lia.
Qed.

Lemma ring_loop_last fuel : forall num fan i a a',
  0 <= fan -> (1 <= fuel)%nat -> i + Z.of_nat fuel = num ->
  ring_loop ops fuel num fan i a = Ret a' ->
  num * (fan + 1) <= cells (a_cm a) /\ num * (fan + 1) <= cells (a_pm a).
Proof.
  induction fuel as [|fuel IH]; intros num fan i a a' Hfan Hf Hi H; [lia|].
  cbn [ring_loop] in H. do 7 bind_inv H.
  match goal with
  | E : edge_loop _ _ _ _ _ _ _ _ = Ret _ |- _ =>
      pose proof (edge_loop_cells _ _ _ _ _ _ _ _ E) as Hkeep;
      pose proof (fun Hf' Hj' => edge_loop_last _ _ _ _ _ _ _ _ Hf' Hj' E) as Hlast
  end.
  cbn [a_cm a_pm] in Hkeep, Hlast. ret_facts. subst.
  destruct fuel as [|fuel].
  - destruct (Z.eq_dec fan 0) as [->|Hf0]; [nia|].
    specialize (Hlast ltac:(lia) ltac:(lia)). nia.
  - apply IH in H; [|exact Hfan|lia|lia]. lia.
Qed.

End NoStop.

(** X22: [init] touches nothing when there is no state ([n <= 0]): it
    returns with the graph as it was, whatever the fan-in and the arrays
    are.  With at least one state and a fan-in from 0 on it needs
    [n * (in + 1)] cells in both [cm] and [pm]: where one of the two
    arrays is shorter the call does not return but writes past the end of
    it (or meets another undefined operation before); [init] has no
    assertion to stop at. *)
Theorem init_needs_cells {D : Type} (ops : DoubleOps D)
    (mg : MGraph D) (sum0 : Z -> D) :
  (n mg <= 0 -> init ops mg sum0 = Ret mg) /\
  (1 <= n mg -> 0 <= in_ mg ->
   cells (cm mg) < n mg * (in_ mg + 1) \/ cells (pm mg) < n mg * (in_ mg + 1) ->
   init ops mg sum0 = Undefined) /\
  init ops mg sum0 <> AssertFail /\
  init ops mg sum0 <> Panic.
Proof.
  split; [|split].
  - intros Hn. unfold init, init_run.
    replace (Z.to_nat (n mg)) with 0%nat by lia.
    cbn [zero_loop ring_loop normalize_loop bind a_cm a_pm].
    destruct mg; reflexivity.
  - intros Hn Hi Hsmall.
    destruct (init_rou ops mg sum0) as [[mg' Hret]|Hu]; [|exact Hu].
    exfalso. unfold init, init_run in Hret.
    apply bind_ret in Hret. destruct Hret as (a & Ha & _).
    apply bind_ret in Ha. destruct Ha as (s0 & _ & Ha).
    apply bind_ret in Ha. destruct Ha as (a1 & Ha1 & _).
    apply ring_loop_last in Ha1; [|exact Hi|lia|lia].
    cbn [a_cm a_pm] in Ha1. lia.
  - destruct (init_rou ops mg sum0) as [[mg' ->]| ->]; split; discriminate.
Qed.

(** The five-state graph in arrays of 14 cells, one short. *)
Definition short_graph : MGraph float :=
  mkMGraph 5 2 (mkArray 14 (fun _ => 0)) (mkArray 15 (fun _ => 0%float)).

Lemma init_needs_cells_witness :
  init binary64 short_graph (fun _ => 0%float) = Undefined /\
  init binary64 (mkMGraph 0 2 (cm short_graph) (pm short_graph)) (fun _ => 0%float)
    = Ret (mkMGraph 0 2 (cm short_graph) (pm short_graph)).
Proof.
  split.
  - apply (proj1 (proj2 (init_needs_cells binary64 short_graph (fun _ => 0%float))));
      cbn; lia.
  - apply (proj1 (init_needs_cells binary64
                    (mkMGraph 0 2 (cm short_graph) (pm short_graph))
                    (fun _ => 0%float))).
    cbn. lia.
Defined.

End MarkovFacts.
